(** * parseform: bracket-notation form data to nested values and structs

    A shallow embedding of [parser.go] (package [parseform]) and of the
    parts of the Go standard library it calls ([strings], [strconv],
    [regexp] for the one pattern used, [net/url], [encoding/json]).

    Conventions of the embedding.
    - A Go [string] is a sequence of bytes: Rocq's [string].
    - Go's [int] is the 64-bit one ([intSize = 64]); integers are [Z] and
      the places where the source can leave the range are written out.
    - A Go map is an association list with pairwise distinct keys.  [range]
      over a map visits the entries in the order of the list; Go leaves
      that order unspecified, so statements about a corpus are made for
      every order of its entries.
    - A call either returns, returns a Go [error], or panics: [outcome]. *)

From Stdlib Require Import ZArith List String Ascii Bool Lia.
From Stdlib Require Import DecimalString.
From Stdlib Require Import Floats.SpecFloat.
Import ListNotations.

Set Warnings "-register-all".

Open Scope string_scope.
Open Scope Z_scope.

(** ** Outcomes of a call *)

Inductive outcome (A : Type) : Type :=
| Ok (a : A)
| Err (msg : string)
| Panic (msg : string).

Arguments Ok {A} a.
Arguments Err {A} msg.
Arguments Panic {A} msg.

Definition bind {A B} (m : outcome A) (k : A -> outcome B) : outcome B :=
  match m with
  | Ok a => k a
  | Err e => Err e
  | Panic p => Panic p
  end.

Notation "x <- m ;; k" := (bind m (fun x => k))
  (at level 61, m at next level, right associativity).

Definition returns {A} (m : outcome A) : bool :=
  match m with Ok _ => true | _ => false end.

Definition panics {A} (m : outcome A) : bool :=
  match m with Panic _ => true | _ => false end.

(** ** Go maps as association lists *)

Section GoMap.
Context {K V : Type} (eqb : K -> K -> bool).

Fixpoint map_get (m : list (K * V)) (k : K) : option V :=
  match m with
  | [] => None
  | (k', v) :: m' => if eqb k' k then Some v else map_get m' k
  end.

(** [m[k] = v]: overwrite in place, or add a new entry. *)
Fixpoint map_set (m : list (K * V)) (k : K) (v : V) : list (K * V) :=
  match m with
  | [] => [(k, v)]
  | (k', v') :: m' =>
      if eqb k' k then (k', v) :: m' else (k', v') :: map_set m' k v
  end.

Definition map_has (m : list (K * V)) (k : K) : bool :=
  match map_get m k with Some _ => true | None => false end.
End GoMap.

Abbreviation sget := (map_get String.eqb).
Abbreviation sset := (map_set String.eqb).
Abbreviation zget := (map_get Z.eqb).
Abbreviation zset := (map_set Z.eqb).

(** ** Bytes *)

Definition byte (c : ascii) : Z := Z.of_N (N_of_ascii c).

Definition isDigit (c : ascii) : bool := (48 <=? byte c) && (byte c <=? 57).

Definition lower (c : ascii) : ascii :=
  if (65 <=? byte c) && (byte c <=? 90)
  then ascii_of_N (N_of_ascii c + 32) else c.

Definition len (s : string) : Z := Z.of_nat (String.length s).

(** ** Package [strings] *)

Module strings.

Fixpoint HasPrefix (s prefix : string) : bool :=
  match prefix, s with
  | EmptyString, _ => true
  | String c p', String d s' => Ascii.eqb c d && HasPrefix s' p'
  | String _ _, EmptyString => false
  end.

(** First position of [substr] in [s], or [-1]. *)
Fixpoint Index (s substr : string) : Z :=
  if HasPrefix s substr then 0
  else match s with
       | EmptyString => -1
       | String _ s' =>
           let i := Index s' substr in
           if i <? 0 then -1 else i + 1
       end.

Definition Contains (s substr : string) : bool := 0 <=? Index s substr.

Fixpoint drop (n : nat) (s : string) : string :=
  match n, s with
  | O, _ => s
  | S n', String _ s' => drop n' s'
  | S _, EmptyString => EmptyString
  end.

Fixpoint take (n : nat) (s : string) : string :=
  match n, s with
  | O, _ => EmptyString
  | S n', String c s' => String c (take n' s')
  | S _, EmptyString => EmptyString
  end.

Definition HasSuffix (s suffix : string) : bool :=
  (String.length suffix <=? String.length s)%nat
  && String.eqb (drop (String.length s - String.length suffix) s) suffix.

Definition TrimSuffix (s suffix : string) : string :=
  if HasSuffix s suffix
  then take (String.length s - String.length suffix) s else s.

(** [Cut s sep] with a non-empty separator: the text before and after
    the first [sep], and whether it was found. *)
Fixpoint Cut (s sep : string) : string * string * bool :=
  if HasPrefix s sep then (EmptyString, drop (String.length sep) s, true)
  else match s with
       | EmptyString => (EmptyString, EmptyString, false)
       | String c s' =>
           let '(before, after, found) := Cut s' sep in
           (String c before, after, found)
       end.

(** [Split s sep] for a separator of one byte. *)
Fixpoint Split (s : string) (sep : ascii) : list string :=
  match s with
  | EmptyString => [EmptyString]
  | String c s' =>
      if Ascii.eqb c sep then EmptyString :: Split s' sep
      else match Split s' sep with
           | [] => [String c EmptyString]
           | p :: ps => String c p :: ps
           end
  end.

(** [SplitN s sep 2] with a non-empty separator. *)
Definition SplitN2 (s sep : string) : list string :=
  let '(before, after, found) := Cut s sep in
  if found then [before; after] else [s].

Fixpoint Join (elems : list string) (sep : string) : string :=
  match elems with
  | [] => EmptyString
  | [e] => e
  | e :: es => e ++ sep ++ Join es sep
  end.

(** [ReplaceAll s old new] with a non-empty [old]; the fuel is the length
    of [s], which bounds the number of steps. *)
Fixpoint replaceFrom (fuel : nat) (s old new : string) : string :=
  match fuel with
  | O => s
  | S fuel' =>
      if HasPrefix s old
      then new ++ replaceFrom fuel' (drop (String.length old) s) old new
      else match s with
           | EmptyString => EmptyString
           | String c s' => String c (replaceFrom fuel' s' old new)
           end
  end.

Definition ReplaceAll (s old new : string) : string :=
  replaceFrom (S (String.length s)) s old new.

(** The UTF-8 encodings of the code points with the White_Space
    property, which is what [unicode.IsSpace] accepts. *)
Definition bytes (l : list Z) : string :=
  string_of_list_ascii (map (fun z => ascii_of_N (Z.to_N z)) l).

Definition spaces : list string :=
  map bytes
    [ [9]; [10]; [11]; [12]; [13]; [32];
      [194; 133]; [194; 160]; [225; 154; 128];
      [226; 128; 128]; [226; 128; 129]; [226; 128; 130];
      [226; 128; 131]; [226; 128; 132]; [226; 128; 133];
      [226; 128; 134]; [226; 128; 135]; [226; 128; 136];
      [226; 128; 137]; [226; 128; 138]; [226; 128; 168];
      [226; 128; 169]; [226; 128; 175]; [226; 129; 159];
      [227; 128; 128] ].

Definition leadingSpace (s : string) : option nat :=
  match filter (HasPrefix s) spaces with
  | sp :: _ => Some (String.length sp)
  | [] => None
  end.

Definition trailingSpace (s : string) : option nat :=
  match filter (HasSuffix s) spaces with
  | sp :: _ => Some (String.length sp)
  | [] => None
  end.

Fixpoint trimLeft (fuel : nat) (s : string) : string :=
  match fuel with
  | O => s
  | S fuel' =>
      match leadingSpace s with
      | Some n => trimLeft fuel' (drop n s)
      | None => s
      end
  end.

Fixpoint trimRight (fuel : nat) (s : string) : string :=
  match fuel with
  | O => s
  | S fuel' =>
      match trailingSpace s with
      | Some n => trimRight fuel' (take (String.length s - n) s)
      | None => s
      end
  end.

Definition TrimSpace (s : string) : string :=
  trimRight (String.length s) (trimLeft (String.length s) s).

End strings.

(** Slice expressions [s[:hi]] and [s[lo:]]: out of range bounds panic. *)

Definition slice_to (s : string) (hi : Z) : outcome string :=
  if (hi <? 0) || (len s <? hi)
  then Panic "slice bounds out of range"
  else Ok (strings.take (Z.to_nat hi) s).

Definition slice_from (s : string) (lo : Z) : outcome string :=
  if (lo <? 0) || (len s <? lo)
  then Panic "slice bounds out of range"
  else Ok (strings.drop (Z.to_nat lo) s).

(** ** Package [strconv] *)

Module strconv.

Definition intSize : Z := 64.

Fixpoint digitsFrom (acc : Z) (s : string) : option Z :=
  match s with
  | EmptyString => Some acc
  | String c s' =>
      if isDigit c then digitsFrom (acc * 10 + (byte c - 48)) s' else None
  end.

(** The value of a non-empty run of base-10 digits. *)
Definition digits (s : string) : option Z :=
  match s with
  | EmptyString => None
  | _ => digitsFrom 0 s
  end.

(** [ParseUint(s, 10, bitSize)]; [None] stands for a non-nil error. *)
Definition ParseUint (s : string) (bitSize : Z) : option Z :=
  match digits s with
  | Some un => if un <? 2 ^ bitSize then Some un else None
  | None => None
  end.

(** [ParseInt(s, 10, bitSize)]. *)
Definition ParseInt (s : string) (bitSize : Z) : option Z :=
  match s with
  | EmptyString => None
  | String c s' =>
      let neg := Ascii.eqb c "-" in
      let body := if Ascii.eqb c "+" || Ascii.eqb c "-" then s' else s in
      match digits body with
      | Some un =>
          let cutoff := 2 ^ (bitSize - 1) in
          if neg
          then if un <=? cutoff then Some (- un) else None
          else if un <? cutoff then Some un else None
      | None => None
      end
  end.

(** [Atoi(s)] is [ParseInt(s, 10, 0)]: its fast path for short strings
    accepts the same strings and computes the same value. *)
Definition Atoi (s : string) : option Z := ParseInt s intSize.

Definition ParseBool (str : string) : option bool :=
  if existsb (String.eqb str) ["1"; "t"; "T"; "TRUE"; "true"; "True"]
  then Some true
  else if existsb (String.eqb str) ["0"; "f"; "F"; "FALSE"; "false"; "False"]
  then Some false
  else None.

(** *** [ParseFloat(s, 64)]

    A float64 is a [spec_float] of precision 53 and maximal exponent
    1024.  The literal denotes an exact rational; the result is that
    rational rounded to nearest, ties to even. *)

Definition float64 := spec_float.
Definition prec : Z := 53.
Definition emax : Z := 1024.

Definition roundRatio (neg : bool) (n d : Z) : float64 :=
  if n =? 0 then S754_zero neg
  else let '(mz, ez, lz) := SFdiv_core_binary prec emax n 0 d 0 in
       binary_round_aux prec emax neg mz ez lz.

Definition roundBinary (neg : bool) (m e : Z) : float64 :=
  match m with
  | Zpos p => binary_round prec emax neg p e
  | _ => S754_zero neg
  end.

Definition lowerString (s : string) : string :=
  string_of_list_ascii (map lower (list_ascii_of_string s)).

(** "inf", "infinity" (optionally signed) and "nan", in any case. *)
Definition special (s : string) : option float64 :=
  let l := lowerString s in
  if existsb (String.eqb l) ["inf"; "+inf"; "infinity"; "+infinity"]
  then Some (S754_infinity false)
  else if existsb (String.eqb l) ["-inf"; "-infinity"]
  then Some (S754_infinity true)
  else if String.eqb l "nan" then Some S754_nan
  else None.

Definition hexDigit (c : ascii) : option Z :=
  let b := byte (lower c) in
  if isDigit c then Some (byte c - 48)
  else if (97 <=? b) && (b <=? 102) then Some (b - 87)
  else None.

(** What [readFloat] has seen of the mantissa. *)
Record mantissa := {
  m_value : Z;          (* all digits read as one integer *)
  m_frac : Z;           (* number of digits after the point *)
  m_sawdot : bool;
  m_sawdigits : bool;
  m_underscores : bool
}.

Fixpoint readMantissa (hex : bool) (s : string) (m : mantissa)
  : mantissa * string :=
  match s with
  | EmptyString => (m, s)
  | String c s' =>
      if Ascii.eqb c "_" then
        readMantissa hex s'
          {| m_value := m_value m; m_frac := m_frac m;
             m_sawdot := m_sawdot m; m_sawdigits := m_sawdigits m;
             m_underscores := true |}
      else if Ascii.eqb c "." then
        if m_sawdot m then (m, s)
        else readMantissa hex s'
               {| m_value := m_value m; m_frac := m_frac m;
                  m_sawdot := true; m_sawdigits := m_sawdigits m;
                  m_underscores := m_underscores m |}
      else
        match (if hex then hexDigit c
               else if isDigit c then Some (byte c - 48) else None) with
        | Some d =>
            readMantissa hex s'
              {| m_value := m_value m * (if hex then 16 else 10) + d;
                 m_frac := if m_sawdot m then m_frac m + 1 else m_frac m;
                 m_sawdot := m_sawdot m; m_sawdigits := true;
                 m_underscores := m_underscores m |}
        | None => (m, s)
        end
  end.

(** The digits of the exponent; the accumulator stops growing once it
    has reached 10000. *)
Fixpoint readExponent (s : string) (e : Z) (us : bool)
  : Z * bool * string :=
  match s with
  | EmptyString => (e, us, s)
  | String c s' =>
      if Ascii.eqb c "_" then readExponent s' e true
      else if isDigit c
      then readExponent s' (if e <? 10000 then e * 10 + (byte c - 48) else e) us
      else (e, us, s)
  end.

(** Underscores must separate digits (one may follow a base prefix). *)
Fixpoint underscoreScan (hex : bool) (s : string) (saw : ascii) : bool :=
  match s with
  | EmptyString => negb (Ascii.eqb saw "_")
  | String c s' =>
      if isDigit c
         || (hex && (97 <=? byte (lower c)) && (byte (lower c) <=? 102))
      then underscoreScan hex s' "0"
      else if Ascii.eqb c "_"
      then if Ascii.eqb saw "0" then underscoreScan hex s' "_" else false
      else if Ascii.eqb saw "_" then false
      else underscoreScan hex s' "!"
  end.

Definition underscoreOK (s : string) : bool :=
  let s := match s with
           | String c s' =>
               if Ascii.eqb c "-" || Ascii.eqb c "+" then s' else s
           | _ => s
           end in
  match s with
  | String c0 (String c1 s') =>
      if Ascii.eqb c0 "0"
         && existsb (Ascii.eqb (lower c1)) ["b"; "o"; "x"]%char
      then underscoreScan (Ascii.eqb (lower c1) "x") s' "0"
      else underscoreScan false s "^"
  | _ => underscoreScan false s "^"
  end.

(** [readFloat] on the whole of [s], then the conversion: [None] is a
    syntax error or a range error. *)
Definition ParseNumber (s : string) : option float64 :=
  let '(neg, body) :=
    match s with
    | String c s' =>
        if Ascii.eqb c "+" then (false, s')
        else if Ascii.eqb c "-" then (true, s') else (false, s)
    | _ => (false, s)
    end in
  let '(hex, digitsPart) :=
    match body with
    | String c0 (String c1 (String c2 s')) =>
        if Ascii.eqb c0 "0" && Ascii.eqb (lower c1) "x"
        then (true, String c2 s') else (false, body)
    | _ => (false, body)
    end in
  let '(m, rest) :=
    readMantissa hex digitsPart
      {| m_value := 0; m_frac := 0; m_sawdot := false;
         m_sawdigits := false; m_underscores := false |} in
  if negb (m_sawdigits m) then None
  else
    let expChar := if hex then "p"%char else "e"%char in
    let exponent : option (Z * bool * string) :=
      match rest with
      | String c rest' =>
          if Ascii.eqb (lower c) expChar then
            let '(esign, rest'') :=
              match rest' with
              | String d r =>
                  if Ascii.eqb d "+" then (1, r)
                  else if Ascii.eqb d "-" then (-1, r) else (1, rest')
              | _ => (1, rest')
              end in
            match rest'' with
            | String d _ =>
                if isDigit d
                then let '(e, us, r) :=
                       readExponent rest'' 0 (m_underscores m) in
                     Some (e * esign, us, r)
                else None
            | EmptyString => None
            end
          else if hex then None
          else Some (0, m_underscores m, rest)
      | EmptyString =>
          if hex then None else Some (0, m_underscores m, rest)
      end in
    match exponent with
    | None => None
    | Some (e, us, tail) =>
        if us && negb (underscoreOK s) then None
        else if negb (String.eqb tail EmptyString) then None
        else
          let f :=
            if hex then roundBinary neg (m_value m) (e - 4 * m_frac m)
            else let exp := e - m_frac m in
                 roundRatio neg (m_value m * 10 ^ Z.max exp 0)
                   (10 ^ Z.max (- exp) 0) in
          match f with
          | S754_infinity _ => None
          | _ => Some f
          end
    end.

Definition ParseFloat (s : string) : option float64 :=
  match special s with
  | Some f => Some f
  | None => ParseNumber s
  end.

End strconv.

(** ** Integers and slices of the Go runtime *)

(** Arithmetic on [int] wraps around at 64 bits. *)
Definition wrap64 (z : Z) : Z := (z + 2 ^ 63) mod 2 ^ 64 - 2 ^ 63.

(** [fmt.Sprintf("%d", n)]. *)
Definition Sprintd (n : Z) : string := NilZero.string_of_int (Z.to_int n).

(** ** Dynamic values: what an [interface{}] of the generic path holds *)

Inductive any : Type :=
| Nil
| AString (s : string)
| AInt (n : Z)
| AInt64 (n : Z)
| AFloat64 (f : strconv.float64)
| ABool (b : bool)
| ASlice (l : list any)
| AMap (m : list (string * any)).

(** [make([]interface{}, n)]: the runtime refuses a negative length and
    one whose 16-byte elements would exceed [maxAlloc] (2^48 bytes on the
    64-bit targets), with a panic.  Memory is not modelled: for a length
    that passes this test the runtime can still end the process with a
    fatal out-of-memory error, and does so for the lengths near the
    limit.  So [Ok] stands for the slice if it is allocated at all, and
    the properties of arrays below are stated for conversions that
    return. *)
Definition maxSliceLen : Z := 2 ^ 44.

Definition makeSlice (n : Z) : outcome (list any) :=
  if (n <? 0) || (maxSliceLen <? n)
  then Panic "makeslice: len out of range"
  else Ok (repeat Nil (Z.to_nat n)).

Fixpoint update {A} (l : list A) (i : nat) (v : A) : list A :=
  match l, i with
  | [], _ => []
  | _ :: l', O => v :: l'
  | x :: l', S i' => x :: update l' i' v
  end.

(** [result[index] = v]. *)
Definition setIndex (result : list any) (index : Z) (v : any)
  : outcome (list any) :=
  if (index <? 0) || (Z.of_nat (List.length result) <=? index)
  then Panic "index out of range"
  else Ok (update result (Z.to_nat index) v).

(** ** The generic path of [parser.go] *)

(** [keyGroup]: the [children] and [arrayData] maps are owned by the node,
    so updating a node in place is a functional update.  A nil map and an
    empty map are both the empty list (the source never writes to a nil
    map: it allocates first). *)
Inductive keyGroup : Type := mkKeyGroup {
  baseKey : string;
  value : any;
  isSimple : bool;
  isArray : bool;
  isObject : bool;
  children : list (string * keyGroup);
  arrayData : list (Z * keyGroup)
}.

Record parsedKey : Type := mkParsedKey {
  parsed_baseKey : string;
  parsed_isArray : bool;
  parsed_isNested : bool;
  parsed_arrayIndex : Z;
  parsed_path : list string
}.

Definition newKeyGroup (base : string) : keyGroup :=
  mkKeyGroup base Nil false false false [] [].

Definition setScalar (g : keyGroup) (v : any) : keyGroup :=
  mkKeyGroup (baseKey g) v true (isArray g) (isObject g)
    (children g) (arrayData g).

Definition markArray (g : keyGroup) : keyGroup :=
  mkKeyGroup (baseKey g) (value g) (isSimple g) true (isObject g)
    (children g) (arrayData g).

Definition markObject (g : keyGroup) : keyGroup :=
  mkKeyGroup (baseKey g) (value g) (isSimple g) (isArray g) true
    (children g) (arrayData g).

Definition setChild (g : keyGroup) (k : string) (c : keyGroup) : keyGroup :=
  mkKeyGroup (baseKey g) (value g) (isSimple g) (isArray g) (isObject g)
    (sset (children g) k c) (arrayData g).

Definition setItem (g : keyGroup) (i : Z) (c : keyGroup) : keyGroup :=
  mkKeyGroup (baseKey g) (value g) (isSimple g) (isArray g) (isObject g)
    (children g) (zset (arrayData g) i c).

(** [isNumeric]: whether [strconv.Atoi] accepts the string. *)
Definition isNumeric (s : string) : bool :=
  match strconv.Atoi s with Some _ => true | None => false end.

(** [n, _ := strconv.Atoi(s)]. *)
Definition atoi (s : string) : Z :=
  match strconv.Atoi s with Some n => n | None => 0 end.

(** [regexp.MustCompile(`\[([^\]]+)\]`).FindAllStringSubmatch(s, -1)],
    as the list of the captured groups.  A match starts at a '[' that is
    followed by at least one byte other than ']' and ends at the next
    ']'; the search resumes after it.  [open] is the text read since the
    '[' under consideration, if any. *)
Fixpoint bracketGroups (s : string) (open : option string) : list string :=
  match s with
  | EmptyString => []
  | String c s' =>
      match open with
      | None =>
          if Ascii.eqb c "[" then bracketGroups s' (Some EmptyString)
          else bracketGroups s' None
      | Some g =>
          if Ascii.eqb c "]" then
            if String.eqb g EmptyString then bracketGroups s' None
            else g :: bracketGroups s' None
          else bracketGroups s' (Some (g ++ String c EmptyString))
      end
  end.

Definition FindAllStringSubmatch (s : string) : list string :=
  bracketGroups s None.

Definition parseKeyStructure (key : string) : outcome parsedKey :=
  if negb (strings.Contains key "[") && negb (strings.Contains key "]")
  then Ok (mkParsedKey key false false 0 [])
  else
    let openBracket := strings.Index key "[" in
    base <- slice_to key openBracket ;;
    rest <- slice_from key openBracket ;;
    match FindAllStringSubmatch rest with
    | [] => Ok (mkParsedKey base false false 0 [])
    | firstMatch :: others =>
        if isNumeric firstMatch
        then Ok (mkParsedKey base true false (atoi firstMatch) others)
        else Ok (mkParsedKey base false true 0 (firstMatch :: others))
    end.

(** [convertValueToType]: int, then int64, then float64, then bool, then
    the string itself. *)
Definition convertValueToType (value : string) : any :=
  match strconv.Atoi value with
  | Some intVal => AInt intVal
  | None =>
      match strconv.ParseInt value 64 with
      | Some int64Val => AInt64 int64Val
      | None =>
          match strconv.ParseFloat value with
          | Some floatVal => AFloat64 floatVal
          | None =>
              match strconv.ParseBool value with
              | Some boolVal => ABool boolVal
              | None => AString value
              end
          end
      end
  end.

Definition getOr {K} (eqb : K -> K -> bool) (m : list (K * keyGroup)) (k : K)
  (fresh : keyGroup) : keyGroup :=
  match map_get eqb m k with Some g => g | None => fresh end.

Fixpoint addNestedToGroup (group : keyGroup) (path : list string)
  (v : string) {struct path} : keyGroup :=
  match path with
  | [] => setScalar group (convertValueToType v)
  | currentKey :: remainingPath =>
      if isNumeric currentKey then
        let index := atoi currentKey in
        let item :=
          markArray (getOr Z.eqb (arrayData group) index
                       (newKeyGroup currentKey)) in
        setItem group index (addNestedToGroup item remainingPath v)
      else
        let child :=
          getOr String.eqb (children group) currentKey
            (newKeyGroup currentKey) in
        match remainingPath with
        | [] => setChild group currentKey
                  (setScalar child (convertValueToType v))
        | _ => setChild group currentKey
                 (addNestedToGroup child remainingPath v)
        end
  end.

Definition addToArrayGroup (group : keyGroup) (parsed : parsedKey)
  (v : string) : keyGroup :=
  let index := parsed_arrayIndex parsed in
  let arrayItem :=
    getOr Z.eqb (arrayData group) index (newKeyGroup (Sprintd index)) in
  match parsed_path parsed with
  | [] => setItem group index (setScalar arrayItem (AString v))
  | path => setItem group index (addNestedToGroup arrayItem path v)
  end.

Definition addToObjectGroup (group : keyGroup) (parsed : parsedKey)
  (v : string) : keyGroup :=
  match parsed_path parsed with
  | [] => setScalar group (AString v)
  | path => addNestedToGroup group path v
  end.

(** One iteration of the loop of [groupKeysByStructure]. *)
Definition addEntry (groups : list (string * keyGroup))
  (entry : string * list string) : outcome (list (string * keyGroup)) :=
  let '(key, valueSlice) := entry in
  match valueSlice with
  | [] => Ok groups
  | v :: _ =>
      parsed <- parseKeyStructure key ;;
      let base := parsed_baseKey parsed in
      let group := getOr String.eqb groups base (newKeyGroup base) in
      Ok (sset groups base
            (if parsed_isArray parsed
             then addToArrayGroup (markArray group) parsed v
             else if parsed_isNested parsed
             then addToObjectGroup (markObject group) parsed v
             else setScalar group (AString v)))
  end.

Fixpoint addEntries (groups : list (string * keyGroup))
  (values : list (string * list string))
  : outcome (list (string * keyGroup)) :=
  match values with
  | [] => Ok groups
  | entry :: values' =>
      groups' <- addEntry groups entry ;;
      addEntries groups' values'
  end.

Definition groupKeysByStructure (values : list (string * list string))
  : outcome (list (string * keyGroup)) :=
  addEntries [] values.

Definition maxIndexOf (arrayData : list (Z * keyGroup)) : Z :=
  fold_left (fun maxIndex e => if maxIndex <? fst e then fst e else maxIndex)
    arrayData 0.

Definition nonEmpty {A} (l : list A) : bool :=
  match l with [] => false | _ => true end.

Fixpoint buildArrayFromGroup (group : keyGroup) : outcome (list any) :=
  match group with
  | mkKeyGroup _ _ _ _ _ _ items =>
      if negb (nonEmpty items) then Ok []
      else
        result <- makeSlice (wrap64 (maxIndexOf items + 1)) ;;
        (fix each (l : list (Z * keyGroup)) (result : list any)
           : outcome (list any) :=
           match l with
           | [] => Ok result
           | (index, arrayItem) :: l' =>
               result' <-
                 (if isSimple arrayItem
                  then setIndex result index (value arrayItem)
                  else if nonEmpty (children arrayItem)
                          || nonEmpty (arrayData arrayItem)
                  then if nonEmpty (arrayData arrayItem)
                       then a <- buildArrayFromGroup arrayItem ;;
                            setIndex result index (ASlice a)
                       else o <- buildObjectFromGroup arrayItem ;;
                            setIndex result index (AMap o)
                  else Ok result) ;;
               each l' result'
           end) items result
  end

with buildObjectFromGroup (group : keyGroup) : outcome (list (string * any)) :=
  match group with
  | mkKeyGroup _ val simple _ _ kids items =>
      let result := if simple then [("value", val)] else [] in
      result <-
        (fix eachChild (l : list (string * keyGroup))
           (result : list (string * any)) : outcome (list (string * any)) :=
           match l with
           | [] => Ok result
           | (key, child) :: l' =>
               result' <-
                 (if isSimple child
                  then Ok (sset result key (value child))
                  else if nonEmpty (children child)
                          || nonEmpty (arrayData child)
                  then if nonEmpty (arrayData child)
                       then a <- buildArrayFromGroup child ;;
                            Ok (sset result key (ASlice a))
                       else o <- buildObjectFromGroup child ;;
                            Ok (sset result key (AMap o))
                  else Ok result) ;;
               eachChild l' result'
           end) kids result ;;
      (fix eachItem (l : list (Z * keyGroup))
         (result : list (string * any)) : outcome (list (string * any)) :=
         match l with
         | [] => Ok result
         | (key, child) :: l' =>
             let keyStr := Sprintd key in
             result' <-
               (if isSimple child
                then Ok (sset result keyStr (value child))
                else if nonEmpty (children child)
                        || nonEmpty (arrayData child)
                then if nonEmpty (arrayData child)
                     then a <- buildArrayFromGroup child ;;
                          Ok (sset result keyStr (ASlice a))
                     else o <- buildObjectFromGroup child ;;
                          Ok (sset result keyStr (AMap o))
                else Ok result) ;;
             eachItem l' result'
         end) items result
  end.

(** The body of the loop of [parseFormFlexibly]: the value stored under a
    base key. *)
Definition buildGroup (group : keyGroup) : outcome any :=
  if isSimple group then Ok (value group)
  else if isArray group
  then a <- buildArrayFromGroup group ;; Ok (ASlice a)
  else o <- buildObjectFromGroup group ;; Ok (AMap o).

Fixpoint buildGroups (keyGroups : list (string * keyGroup))
  (result : list (string * any)) : outcome (list (string * any)) :=
  match keyGroups with
  | [] => Ok result
  | (base, group) :: rest =>
      v <- buildGroup group ;;
      buildGroups rest (sset result base v)
  end.

Definition parseFormFlexibly (values : list (string * list string))
  : outcome (list (string * any)) :=
  keyGroups <- groupKeysByStructure values ;;
  buildGroups keyGroups [].

(** ** Package [net/url] *)

Module url.

(** [QueryUnescape]: "%XX" to the byte, '+' to a space; [None] is an
    [EscapeError]. *)
Fixpoint QueryUnescape (s : string) : option string :=
  match s with
  | EmptyString => Some EmptyString
  | String c s' =>
      if Ascii.eqb c "%" then
        match s' with
        | String h1 (String h2 s'') =>
            match strconv.hexDigit h1, strconv.hexDigit h2 with
            | Some a, Some b =>
                option_map (String (ascii_of_N (Z.to_N (16 * a + b))))
                  (QueryUnescape s'')
            | _, _ => None
            end
        | _ => None
        end
      else if Ascii.eqb c "+" then option_map (String " ") (QueryUnescape s')
      else option_map (String c) (QueryUnescape s')
  end.

(** [Values]: a map from key to the values given for it, in order. *)
Definition Values := list (string * list string).

Definition add (m : Values) (key v : string) : Values :=
  sset m key
    (match sget m key with Some vs => (vs ++ [v])%list | None => [v] end).

(** One "key=value" piece of the query: the map and whether an error
    has been recorded. *)
Definition parsePiece (st : Values * bool) (piece : string) : Values * bool :=
  let '(m, failed) := st in
  if strings.Contains piece ";" then (m, true)
  else if String.eqb piece EmptyString then (m, failed)
  else
    let '(key, v, _) := strings.Cut piece "=" in
    match QueryUnescape key with
    | None => (m, true)
    | Some key' =>
        match QueryUnescape v with
        | None => (m, true)
        | Some v' => (add m key' v', failed)
        end
    end.

(** [ParseQuery]: the pieces between '&' are read from left to right;
    the map is returned with a non-nil error if any piece was bad. *)
Definition ParseQuery (query : string) : Values * bool :=
  fold_left parsePiece (strings.Split query "&") ([], false).

End url.

(** ** Package [encoding/json]

    The document that [json.MarshalIndent] writes, as a tree; the bytes
    (indentation, escapes, the digits of a number) are not modelled.  The
    keys of an object come out sorted; a NaN or an infinity is refused. *)

Module json.

Inductive document : Type :=
| Null
| Str (s : string)
| Int (n : Z)
| Float (f : strconv.float64)
| Bool (b : bool)
| Array (l : list document)
| Object (m : list (string * document)).

Fixpoint insertSorted (k : string) (d : document)
  (m : list (string * document)) : list (string * document) :=
  match m with
  | [] => [(k, d)]
  | (k', d') :: m' =>
      if String.leb k k' then (k, d) :: m
      else (k', d') :: insertSorted k d m'
  end.

Fixpoint Marshal (v : any) : outcome document :=
  match v with
  | Nil => Ok Null
  | AString s => Ok (Str s)
  | AInt n => Ok (Int n)
  | AInt64 n => Ok (Int n)
  | AFloat64 f =>
      match f with
      | S754_nan | S754_infinity _ =>
          Err "json: unsupported value"
      | _ => Ok (Float f)
      end
  | ABool b => Ok (Bool b)
  | ASlice l =>
      (fix elems (l : list any) : outcome document :=
         match l with
         | [] => Ok (Array [])
         | x :: l' =>
             d <- Marshal x ;;
             r <- elems l' ;;
             match r with
             | Array ds => Ok (Array (d :: ds))
             | other => Ok other
             end
         end) l
  | AMap m =>
      (fix members (m : list (string * any)) : outcome document :=
         match m with
         | [] => Ok (Object [])
         | (k, x) :: m' =>
             d <- Marshal x ;;
             r <- members m' ;;
             match r with
             | Object ms => Ok (Object (insertSorted k d ms))
             | other => Ok other
             end
         end) m
  end.

End json.

(** ** Entry points of the generic path *)

(** The entry points hand the corpus on in the order in which
    [url.ParseQuery] met the keys, which is one of the orders in which Go
    may range over it.  Where two keys assign to one node (as "a" and
    "a[" do) the order decides which value stays; the general statements
    below are made for [parseFormFlexibly] on a corpus in any order, or
    do not depend on the order. *)
Definition FormToMap (formData : string) : outcome (list (string * any)) :=
  let '(values, failed) := url.ParseQuery formData in
  if failed then Err "failed to parse form data"
  else parseFormFlexibly values.

Definition FormToJSON (formData : string) : outcome json.document :=
  let '(values, failed) := url.ParseQuery formData in
  if failed then Err "failed to parse form data"
  else
    result <- parseFormFlexibly values ;;
    match json.Marshal (AMap result) with
    | Ok d => Ok d
    | Err _ => Err "failed to marshal to JSON"
    | Panic p => Panic p
    end.

Definition quote : string := String "034"%char EmptyString.
Definition newline : string := String "010"%char EmptyString.

(** [unescapeUnicode]: the seven literal substitutions.  No replacement
    text contains a byte of a pattern, so the order does not matter. *)
Definition replacements : list (string * string) :=
  [ ("\u0026", "&");
    ("\u0027", "'");
    ("\u0022", quote);
    ("\u003C", "<");
    ("\u003E", ">");
    ("\u002B", "+");
    ("\u0020", " ") ].

Definition unescapeUnicode (data : string) : string :=
  fold_left (fun result r => strings.ReplaceAll result (fst r) (snd r))
    replacements data.

Definition convertMultiLineToForm (multiLineData : string) : string :=
  let lines := strings.Split multiLineData "010"%char in
  let formParts :=
    flat_map
      (fun line =>
         let line := strings.TrimSpace line in
         if String.eqb line EmptyString then []
         else match strings.SplitN2 line " = " with
              | [key; v] =>
                  [strings.TrimSpace key ++ "=" ++ strings.TrimSpace v]
              | _ => []
              end)
      lines in
  strings.Join formParts "&".

Definition normalizeFormData (data : string) : string :=
  if strings.Contains data newline && strings.Contains data " = "
  then convertMultiLineToForm data
  else data.

Definition FormToJSONEncoded (encodedData : string) : outcome json.document :=
  let unescapedData := unescapeUnicode encodedData in
  match url.QueryUnescape unescapedData with
  | None => Err "failed to URL decode data"
  | Some decodedData => FormToJSON (normalizeFormData decodedData)
  end.

Definition FormToMapEncoded (encodedData : string)
  : outcome (list (string * any)) :=
  let unescapedData := unescapeUnicode encodedData in
  match url.QueryUnescape unescapedData with
  | None => Err "failed to URL decode data"
  | Some decodedData => FormToMap decodedData
  end.

(** ** The struct-binding path

    [reflect] is modelled by a description of the destination type and a
    value of that type.  [TOther] stands for the kinds that no [switch] of
    the source has a case for (pointers, interfaces, arrays, ...). *)

Inductive gotype : Type :=
| TString
| TInt (bits : Z)
| TUint (bits : Z)
| TFloat (bits : Z)
| TBool
| TStruct (fields : list (string * string * gotype))  (* name, form tag, type *)
| TSlice (elem : gotype)
| TMap (key elem : gotype)
| TOther.

Inductive govalue : Type :=
| GString (s : string)
| GInt (n : Z)
| GUint (n : Z)
| GFloat (f : strconv.float64)
| GBool (b : bool)
| GStruct (fields : list govalue)
| GSlice (elems : option (list govalue))            (* [None]: the nil slice *)
| GMap (entries : option (list (govalue * govalue))) (* [None]: the nil map *)
| GOther.

Fixpoint zero (t : gotype) : govalue :=
  match t with
  | TString => GString EmptyString
  | TInt _ => GInt 0
  | TUint _ => GUint 0
  | TFloat _ => GFloat (S754_zero false)
  | TBool => GBool false
  | TStruct fields => GStruct (map (fun f => zero (snd f)) fields)
  | TSlice _ => GSlice None
  | TMap _ _ => GMap None
  | TOther => GOther
  end.

(** Equality of map keys ([==] on comparable values). *)
Fixpoint keyEqb (a b : govalue) : bool :=
  match a, b with
  | GString x, GString y => String.eqb x y
  | GInt x, GInt y => x =? y
  | GUint x, GUint y => x =? y
  | GFloat x, GFloat y => SFeqb x y
  | GBool x, GBool y => Bool.eqb x y
  | GStruct xs, GStruct ys =>
      (fix all2 (xs ys : list govalue) : bool :=
         match xs, ys with
         | [], [] => true
         | x :: xs', y :: ys' => keyEqb x y && all2 xs' ys'
         | _, _ => false
         end) xs ys
  | GOther, GOther => true
  | _, _ => false
  end.

(** [utf8.DecodeRuneInString], the rune only: a first byte below 0x80
    is the rune; 0xC2 to 0xDF, 0xE0 to 0xEF and 0xF0 to 0xF4 start a rune
    of two, three and four bytes, whose continuation bytes are in 0x80 to
    0xBF (the second one narrower after 0xE0, 0xED, 0xF0 and 0xF4).
    [None]: no rune or an invalid encoding, for which Go gives
    [utf8.RuneError]. *)
Definition continuation (lo hi : Z) (s : string) : option (Z * string) :=
  match s with
  | String c s' =>
      if (lo <=? byte c) && (byte c <=? hi) then Some (byte c - 128, s')
      else None
  | EmptyString => None
  end.

Definition firstRune (s : string) : option Z :=
  match s with
  | EmptyString => None
  | String c0 s1 =>
      let b0 := byte c0 in
      if b0 <? 128 then Some b0
      else if (194 <=? b0) && (b0 <=? 223) then
        match continuation 128 191 s1 with
        | Some (x1, _) => Some ((b0 - 192) * 64 + x1)
        | None => None
        end
      else if (224 <=? b0) && (b0 <=? 239) then
        match continuation (if b0 =? 224 then 160 else 128)
                (if b0 =? 237 then 159 else 191) s1 with
        | Some (x1, s2) =>
            match continuation 128 191 s2 with
            | Some (x2, _) => Some ((b0 - 224) * 4096 + x1 * 64 + x2)
            | None => None
            end
        | None => None
        end
      else if (240 <=? b0) && (b0 <=? 244) then
        match continuation (if b0 =? 240 then 144 else 128)
                (if b0 =? 244 then 143 else 191) s1 with
        | Some (x1, s2) =>
            match continuation 128 191 s2 with
            | Some (x2, s3) =>
                match continuation 128 191 s3 with
                | Some (x3, _) =>
                    Some ((b0 - 240) * 262144 + x1 * 4096 + x2 * 64 + x3)
                | None => None
                end
            | None => None
            end
        | None => None
        end
      else None
  end.

(** [unicode.Upper]: the upper-case letters (category Lu) of Unicode
    15.0, the tables of Go 1.21, as inclusive ranges. *)
Definition upperRanges : list (Z * Z) :=
  [
   (65, 90); (192, 214); (216, 222); (256, 256); (258, 258); (260, 260);
   (262, 262); (264, 264); (266, 266); (268, 268); (270, 270); (272, 272);
   (274, 274); (276, 276); (278, 278); (280, 280); (282, 282); (284, 284);
   (286, 286); (288, 288); (290, 290); (292, 292); (294, 294); (296, 296);
   (298, 298); (300, 300); (302, 302); (304, 304); (306, 306); (308, 308);
   (310, 310); (313, 313); (315, 315); (317, 317); (319, 319); (321, 321);
   (323, 323); (325, 325); (327, 327); (330, 330); (332, 332); (334, 334);
   (336, 336); (338, 338); (340, 340); (342, 342); (344, 344); (346, 346);
   (348, 348); (350, 350); (352, 352); (354, 354); (356, 356); (358, 358);
   (360, 360); (362, 362); (364, 364); (366, 366); (368, 368); (370, 370);
   (372, 372); (374, 374); (376, 377); (379, 379); (381, 381); (385, 386);
   (388, 388); (390, 391); (393, 395); (398, 401); (403, 404); (406, 408);
   (412, 413); (415, 416); (418, 418); (420, 420); (422, 423); (425, 425);
   (428, 428); (430, 431); (433, 435); (437, 437); (439, 440); (444, 444);
   (452, 452); (455, 455); (458, 458); (461, 461); (463, 463); (465, 465);
   (467, 467); (469, 469); (471, 471); (473, 473); (475, 475); (478, 478);
   (480, 480); (482, 482); (484, 484); (486, 486); (488, 488); (490, 490);
   (492, 492); (494, 494); (497, 497); (500, 500); (502, 504); (506, 506);
   (508, 508); (510, 510); (512, 512); (514, 514); (516, 516); (518, 518);
   (520, 520); (522, 522); (524, 524); (526, 526); (528, 528); (530, 530);
   (532, 532); (534, 534); (536, 536); (538, 538); (540, 540); (542, 542);
   (544, 544); (546, 546); (548, 548); (550, 550); (552, 552); (554, 554);
   (556, 556); (558, 558); (560, 560); (562, 562); (570, 571); (573, 574);
   (577, 577); (579, 582); (584, 584); (586, 586); (588, 588); (590, 590);
   (880, 880); (882, 882); (886, 886); (895, 895); (902, 902); (904, 906);
   (908, 908); (910, 911); (913, 929); (931, 939); (975, 975); (978, 980);
   (984, 984); (986, 986); (988, 988); (990, 990); (992, 992); (994, 994);
   (996, 996); (998, 998); (1000, 1000); (1002, 1002); (1004, 1004);
   (1006, 1006); (1012, 1012); (1015, 1015); (1017, 1018); (1021, 1071);
   (1120, 1120); (1122, 1122); (1124, 1124); (1126, 1126); (1128, 1128);
   (1130, 1130); (1132, 1132); (1134, 1134); (1136, 1136); (1138, 1138);
   (1140, 1140); (1142, 1142); (1144, 1144); (1146, 1146); (1148, 1148);
   (1150, 1150); (1152, 1152); (1162, 1162); (1164, 1164); (1166, 1166);
   (1168, 1168); (1170, 1170); (1172, 1172); (1174, 1174); (1176, 1176);
   (1178, 1178); (1180, 1180); (1182, 1182); (1184, 1184); (1186, 1186);
   (1188, 1188); (1190, 1190); (1192, 1192); (1194, 1194); (1196, 1196);
   (1198, 1198); (1200, 1200); (1202, 1202); (1204, 1204); (1206, 1206);
   (1208, 1208); (1210, 1210); (1212, 1212); (1214, 1214); (1216, 1217);
   (1219, 1219); (1221, 1221); (1223, 1223); (1225, 1225); (1227, 1227);
   (1229, 1229); (1232, 1232); (1234, 1234); (1236, 1236); (1238, 1238);
   (1240, 1240); (1242, 1242); (1244, 1244); (1246, 1246); (1248, 1248);
   (1250, 1250); (1252, 1252); (1254, 1254); (1256, 1256); (1258, 1258);
   (1260, 1260); (1262, 1262); (1264, 1264); (1266, 1266); (1268, 1268);
   (1270, 1270); (1272, 1272); (1274, 1274); (1276, 1276); (1278, 1278);
   (1280, 1280); (1282, 1282); (1284, 1284); (1286, 1286); (1288, 1288);
   (1290, 1290); (1292, 1292); (1294, 1294); (1296, 1296); (1298, 1298);
   (1300, 1300); (1302, 1302); (1304, 1304); (1306, 1306); (1308, 1308);
   (1310, 1310); (1312, 1312); (1314, 1314); (1316, 1316); (1318, 1318);
   (1320, 1320); (1322, 1322); (1324, 1324); (1326, 1326); (1329, 1366);
   (4256, 4293); (4295, 4295); (4301, 4301); (5024, 5109); (7312, 7354);
   (7357, 7359); (7680, 7680); (7682, 7682); (7684, 7684); (7686, 7686);
   (7688, 7688); (7690, 7690); (7692, 7692); (7694, 7694); (7696, 7696);
   (7698, 7698); (7700, 7700); (7702, 7702); (7704, 7704); (7706, 7706);
   (7708, 7708); (7710, 7710); (7712, 7712); (7714, 7714); (7716, 7716);
   (7718, 7718); (7720, 7720); (7722, 7722); (7724, 7724); (7726, 7726);
   (7728, 7728); (7730, 7730); (7732, 7732); (7734, 7734); (7736, 7736);
   (7738, 7738); (7740, 7740); (7742, 7742); (7744, 7744); (7746, 7746);
   (7748, 7748); (7750, 7750); (7752, 7752); (7754, 7754); (7756, 7756);
   (7758, 7758); (7760, 7760); (7762, 7762); (7764, 7764); (7766, 7766);
   (7768, 7768); (7770, 7770); (7772, 7772); (7774, 7774); (7776, 7776);
   (7778, 7778); (7780, 7780); (7782, 7782); (7784, 7784); (7786, 7786);
   (7788, 7788); (7790, 7790); (7792, 7792); (7794, 7794); (7796, 7796);
   (7798, 7798); (7800, 7800); (7802, 7802); (7804, 7804); (7806, 7806);
   (7808, 7808); (7810, 7810); (7812, 7812); (7814, 7814); (7816, 7816);
   (7818, 7818); (7820, 7820); (7822, 7822); (7824, 7824); (7826, 7826);
   (7828, 7828); (7838, 7838); (7840, 7840); (7842, 7842); (7844, 7844);
   (7846, 7846); (7848, 7848); (7850, 7850); (7852, 7852); (7854, 7854);
   (7856, 7856); (7858, 7858); (7860, 7860); (7862, 7862); (7864, 7864);
   (7866, 7866); (7868, 7868); (7870, 7870); (7872, 7872); (7874, 7874);
   (7876, 7876); (7878, 7878); (7880, 7880); (7882, 7882); (7884, 7884);
   (7886, 7886); (7888, 7888); (7890, 7890); (7892, 7892); (7894, 7894);
   (7896, 7896); (7898, 7898); (7900, 7900); (7902, 7902); (7904, 7904);
   (7906, 7906); (7908, 7908); (7910, 7910); (7912, 7912); (7914, 7914);
   (7916, 7916); (7918, 7918); (7920, 7920); (7922, 7922); (7924, 7924);
   (7926, 7926); (7928, 7928); (7930, 7930); (7932, 7932); (7934, 7934);
   (7944, 7951); (7960, 7965); (7976, 7983); (7992, 7999); (8008, 8013);
   (8025, 8025); (8027, 8027); (8029, 8029); (8031, 8031); (8040, 8047);
   (8120, 8123); (8136, 8139); (8152, 8155); (8168, 8172); (8184, 8187);
   (8450, 8450); (8455, 8455); (8459, 8461); (8464, 8466); (8469, 8469);
   (8473, 8477); (8484, 8484); (8486, 8486); (8488, 8488); (8490, 8493);
   (8496, 8499); (8510, 8511); (8517, 8517); (8579, 8579); (11264, 11311);
   (11360, 11360); (11362, 11364); (11367, 11367); (11369, 11369);
   (11371, 11371); (11373, 11376); (11378, 11378); (11381, 11381);
   (11390, 11392); (11394, 11394); (11396, 11396); (11398, 11398);
   (11400, 11400); (11402, 11402); (11404, 11404); (11406, 11406);
   (11408, 11408); (11410, 11410); (11412, 11412); (11414, 11414);
   (11416, 11416); (11418, 11418); (11420, 11420); (11422, 11422);
   (11424, 11424); (11426, 11426); (11428, 11428); (11430, 11430);
   (11432, 11432); (11434, 11434); (11436, 11436); (11438, 11438);
   (11440, 11440); (11442, 11442); (11444, 11444); (11446, 11446);
   (11448, 11448); (11450, 11450); (11452, 11452); (11454, 11454);
   (11456, 11456); (11458, 11458); (11460, 11460); (11462, 11462);
   (11464, 11464); (11466, 11466); (11468, 11468); (11470, 11470);
   (11472, 11472); (11474, 11474); (11476, 11476); (11478, 11478);
   (11480, 11480); (11482, 11482); (11484, 11484); (11486, 11486);
   (11488, 11488); (11490, 11490); (11499, 11499); (11501, 11501);
   (11506, 11506); (42560, 42560); (42562, 42562); (42564, 42564);
   (42566, 42566); (42568, 42568); (42570, 42570); (42572, 42572);
   (42574, 42574); (42576, 42576); (42578, 42578); (42580, 42580);
   (42582, 42582); (42584, 42584); (42586, 42586); (42588, 42588);
   (42590, 42590); (42592, 42592); (42594, 42594); (42596, 42596);
   (42598, 42598); (42600, 42600); (42602, 42602); (42604, 42604);
   (42624, 42624); (42626, 42626); (42628, 42628); (42630, 42630);
   (42632, 42632); (42634, 42634); (42636, 42636); (42638, 42638);
   (42640, 42640); (42642, 42642); (42644, 42644); (42646, 42646);
   (42648, 42648); (42650, 42650); (42786, 42786); (42788, 42788);
   (42790, 42790); (42792, 42792); (42794, 42794); (42796, 42796);
   (42798, 42798); (42802, 42802); (42804, 42804); (42806, 42806);
   (42808, 42808); (42810, 42810); (42812, 42812); (42814, 42814);
   (42816, 42816); (42818, 42818); (42820, 42820); (42822, 42822);
   (42824, 42824); (42826, 42826); (42828, 42828); (42830, 42830);
   (42832, 42832); (42834, 42834); (42836, 42836); (42838, 42838);
   (42840, 42840); (42842, 42842); (42844, 42844); (42846, 42846);
   (42848, 42848); (42850, 42850); (42852, 42852); (42854, 42854);
   (42856, 42856); (42858, 42858); (42860, 42860); (42862, 42862);
   (42873, 42873); (42875, 42875); (42877, 42878); (42880, 42880);
   (42882, 42882); (42884, 42884); (42886, 42886); (42891, 42891);
   (42893, 42893); (42896, 42896); (42898, 42898); (42902, 42902);
   (42904, 42904); (42906, 42906); (42908, 42908); (42910, 42910);
   (42912, 42912); (42914, 42914); (42916, 42916); (42918, 42918);
   (42920, 42920); (42922, 42926); (42928, 42932); (42934, 42934);
   (42936, 42936); (42938, 42938); (42940, 42940); (42942, 42942);
   (42944, 42944); (42946, 42946); (42948, 42951); (42953, 42953);
   (42960, 42960); (42966, 42966); (42968, 42968); (42997, 42997);
   (65313, 65338); (66560, 66599); (66736, 66771); (66928, 66938);
   (66940, 66954); (66956, 66962); (66964, 66965); (68736, 68786);
   (71840, 71871); (93760, 93791); (119808, 119833); (119860, 119885);
   (119912, 119937); (119964, 119964); (119966, 119967); (119970, 119970);
   (119973, 119974); (119977, 119980); (119982, 119989); (120016, 120041);
   (120068, 120069); (120071, 120074); (120077, 120084); (120086, 120092);
   (120120, 120121); (120123, 120126); (120128, 120132); (120134, 120134);
   (120138, 120144); (120172, 120197); (120224, 120249); (120276, 120301);
   (120328, 120353); (120380, 120405); (120432, 120457); (120488, 120512);
   (120546, 120570); (120604, 120628); (120662, 120686); (120720, 120744);
   (120778, 120778); (125184, 125217)
  ].

(** [unicode.IsUpper]. *)
Definition isUpper (r : Z) : bool :=
  existsb (fun range => (fst range <=? r) && (r <=? snd range)) upperRanges.

(** A field can be set when its name is exported, that is when its first
    rune is an upper-case letter; the [Set...] methods of [reflect.Value]
    panic otherwise. *)
Definition exported (name : string) : bool :=
  match firstRune name with
  | Some r => isUpper r
  | None => false
  end.

Definition set (canSet : bool) (v : govalue) : outcome govalue :=
  if canSet then Ok v
  else Panic "reflect: value obtained using unexported field".

(** [SetInt], [SetUint], [SetFloat] store into the width of the kind. *)
Definition intOfWidth (bits n : Z) : govalue :=
  GInt ((n + 2 ^ (bits - 1)) mod 2 ^ bits - 2 ^ (bits - 1)).

Definition uintOfWidth (bits n : Z) : govalue := GUint (n mod 2 ^ bits).

Definition floatOfWidth (bits : Z) (f : strconv.float64) : govalue :=
  if bits =? 32 then
    match f with
    | S754_finite s m e => GFloat (binary_round 24 128 s m e)
    | _ => GFloat f
    end
  else GFloat f.

(** The name under which a field is looked up: its [form] tag, or else
    its own name. *)
Definition lookupName (f : string * string * gotype) : string :=
  let '(name, tag, _) := f in
  if negb (String.eqb tag EmptyString) then tag else name.

Definition findFieldData (values : url.Values) (fieldName : string)
  : option (list (string * string)) :=
  let result :=
    fold_left
      (fun result entry =>
         let '(key, valueSlice) := entry in
         match valueSlice with
         | [] => result
         | v :: _ =>
             if String.eqb key fieldName then sset result key v
             else if strings.HasPrefix key (fieldName ++ "[")
             then sset result
                    (strings.drop (String.length fieldName + 1) key) v
             else result
         end)
      values [] in
  match result with
  | [] => None
  | _ => Some result
  end.

(** [setValue]: always returns a nil error. *)
Definition setValue (canSet : bool) (t : gotype) (cur : govalue)
  (v : string) : outcome govalue :=
  match t with
  | TString => set canSet (GString v)
  | TInt bits =>
      match strconv.ParseInt v 64 with
      | Some intVal => set canSet (intOfWidth bits intVal)
      | None => Ok cur
      end
  | TUint bits =>
      match strconv.ParseUint v 64 with
      | Some uintVal => set canSet (uintOfWidth bits uintVal)
      | None => Ok cur
      end
  | TFloat bits =>
      match strconv.ParseFloat v with
      | Some floatVal => set canSet (floatOfWidth bits floatVal)
      | None => Ok cur
      end
  | TBool =>
      match strconv.ParseBool v with
      | Some boolVal => set canSet (GBool boolVal)
      | None => Ok cur
      end
  | _ => Ok cur
  end.

(** [parseStructFromMap]: the fields of [structValue] in turn. *)
Fixpoint parseStructFromMap (fieldData : list (string * string))
  (fields : list (string * string * gotype)) (cur : list govalue)
  : outcome (list govalue) :=
  match fields, cur with
  | f :: fields', c :: cur' =>
      c' <- match sget fieldData (lookupName f) with
            | Some v => setValue (exported (fst (fst f))) (snd f) c v
            | None => Ok c
            end ;;
      rest <- parseStructFromMap fieldData fields' cur' ;;
      Ok (c' :: rest)
  | _, _ => Ok cur
  end.

Definition zeroFields (fields : list (string * string * gotype))
  : list govalue :=
  map (fun f => zero (snd f)) fields.

(** The first loop of [parseSlice]: [indexedData]. *)
Definition indexEntry (indexedData : list (Z * list (string * string)))
  (entry : string * string) : list (Z * list (string * string)) :=
  let '(key, v) := entry in
  if strings.Contains key "[" && strings.Contains key "]" then
    match strings.Split key "[" with
    | _ :: part1 :: parts2 =>
        let indexStr := strings.TrimSuffix part1 "]" in
        match strconv.Atoi indexStr with
        | Some index =>
            let data :=
              match zget indexedData index with
              | Some d => d
              | None => []
              end in
            let nestedKey := strings.Join parts2 "[" in
            zset indexedData index
              (sset data
                 (if negb (String.eqb nestedKey EmptyString)
                  then nestedKey else "value") v)
        | None => indexedData
        end
    | _ => indexedData
    end
  else indexedData.

(** [reflect.MakeSlice]: a negative length panics.  The allocation is
    not modelled: a length whose elements exceed the address space
    panics in the runtime as well, and memory can run out.  No property
    below relies on a slice that [MakeSlice] returns. *)
Definition MakeSlice (elem : gotype) (n : Z) : outcome (list govalue) :=
  if n <? 0 then Panic "reflect.MakeSlice: negative len"
  else Ok (repeat (zero elem) (Z.to_nat n)).

Definition parseElement (elemType : gotype) (data : list (string * string))
  (elem : govalue) : outcome govalue :=
  match elemType with
  | TStruct fields =>
      newElem <- parseStructFromMap data fields (zeroFields fields) ;;
      Ok (GStruct newElem)
  | TString =>
      match sget data "value" with
      | Some v => Ok (GString v)
      | None => Ok elem
      end
  | TInt bits =>
      match sget data "value" with
      | Some v =>
          match strconv.ParseInt v 64 with
          | Some intVal => Ok (intOfWidth bits intVal)
          | None => Ok elem
          end
      | None => Ok elem
      end
  | _ => Ok elem
  end.

Fixpoint parseElements (elemType : gotype)
  (indexedData : list (Z * list (string * string))) (slice : list govalue)
  : outcome (list govalue) :=
  match indexedData with
  | [] => Ok slice
  | (index, data) :: rest =>
      slice' <-
        (if index <? Z.of_nat (List.length slice) then
           if index <? 0 then Panic "reflect: slice index out of range"
           else
             elem <- parseElement elemType data
                       (nth (Z.to_nat index) slice (zero elemType)) ;;
             Ok (update slice (Z.to_nat index) elem)
         else Ok slice) ;;
      parseElements elemType rest slice'
  end.

Definition parseSlice (canSet : bool) (elemType : gotype) (cur : govalue)
  (fieldData : list (string * string)) : outcome govalue :=
  let indexedData := fold_left indexEntry fieldData [] in
  if nonEmpty indexedData then
    let maxIndex :=
      fold_left (fun m e => if m <? fst e then fst e else m) indexedData 0 in
    slice <- MakeSlice elemType (wrap64 (maxIndex + 1)) ;;
    slice' <- parseElements elemType indexedData slice ;;
    set canSet (GSlice (Some slice'))
  else Ok cur.

(** The first loop of [parseMap]: [mapData]. *)
Definition mapEntry (fieldName : string) (mapData : list (string * string))
  (entry : string * string) : list (string * string) :=
  let '(key, v) := entry in
  if strings.HasPrefix key (fieldName ++ "[") && strings.HasSuffix key "]"
  then sset mapData
         (strings.take (String.length key - 1 - (String.length fieldName + 1))
            (strings.drop (String.length fieldName + 1) key)) v
  else mapData.

Fixpoint populateMap (keyType elemType : gotype)
  (mapData : list (string * string)) (newMap : list (govalue * govalue))
  : outcome (list (govalue * govalue)) :=
  match mapData with
  | [] => Ok newMap
  | (keyStr, valueStr) :: rest =>
      keyValue <- setValue true keyType (zero keyType) keyStr ;;
      elemValue <- setValue true elemType (zero elemType) valueStr ;;
      populateMap keyType elemType rest
        (map_set keyEqb newMap keyValue elemValue)
  end.

Definition parseMap (canSet : bool) (keyType elemType : gotype)
  (cur : govalue) (fieldData : list (string * string)) (fieldName : string)
  : outcome govalue :=
  let mapData := fold_left (mapEntry fieldName) fieldData [] in
  if nonEmpty mapData then
    newMap <- populateMap keyType elemType mapData [] ;;
    set canSet (GMap (Some newMap))
  else Ok cur.

(** The first value of [fieldData], in iteration order, that [parse]
    accepts. *)
Fixpoint firstParsed {A} (parse : string -> option A)
  (fieldData : list (string * string)) : option A :=
  match fieldData with
  | [] => None
  | (_, v) :: rest =>
      match parse v with
      | Some a => Some a
      | None => firstParsed parse rest
      end
  end.

Definition parseFieldValue (canSet : bool) (t : gotype) (cur : govalue)
  (fieldData : list (string * string)) (fieldName : string)
  : outcome govalue :=
  match t with
  | TString =>
      match fieldData with
      | (_, v) :: _ => set canSet (GString v)
      | [] => Ok cur
      end
  | TInt bits =>
      match firstParsed (fun v => strconv.ParseInt v 64) fieldData with
      | Some intVal => set canSet (intOfWidth bits intVal)
      | None => Ok cur
      end
  | TUint bits =>
      match firstParsed (fun v => strconv.ParseUint v 64) fieldData with
      | Some uintVal => set canSet (uintOfWidth bits uintVal)
      | None => Ok cur
      end
  | TFloat bits =>
      match firstParsed strconv.ParseFloat fieldData with
      | Some floatVal => set canSet (floatOfWidth bits floatVal)
      | None => Ok cur
      end
  | TBool =>
      match firstParsed strconv.ParseBool fieldData with
      | Some boolVal => set canSet (GBool boolVal)
      | None => Ok cur
      end
  | TStruct fields =>
      if canSet then
        newStruct <- parseStructFromMap fieldData fields (zeroFields fields) ;;
        Ok (GStruct newStruct)
      else Ok cur
  | TSlice elemType => parseSlice canSet elemType cur fieldData
  | TMap keyType elemType =>
      parseMap canSet keyType elemType cur fieldData fieldName
  | TOther => Ok cur
  end.

Fixpoint parseStruct (values : url.Values)
  (fields : list (string * string * gotype)) (cur : list govalue)
  : outcome (list govalue) :=
  match fields, cur with
  | f :: fields', c :: cur' =>
      let fieldName := lookupName f in
      c' <- match findFieldData values fieldName with
            | None => Ok c
            | Some fieldData =>
                parseFieldValue (exported (fst (fst f))) (snd f) c
                  fieldData fieldName
            end ;;
      rest <- parseStruct values fields' cur' ;;
      Ok (c' :: rest)
  | _, _ => Ok cur
  end.

(** What the caller passes as [target]. *)
Inductive target : Type :=
| NotAPointer
| NilPointer
| PointerTo (t : gotype) (v : govalue).

Definition parseIntoStruct (values : url.Values) (tgt : target)
  : outcome govalue :=
  match tgt with
  | PointerTo (TStruct fields) (GStruct cur) =>
      cur' <- parseStruct values fields cur ;;
      Ok (GStruct cur')
  | PointerTo _ _ => Err "target must be a pointer to struct"
  | _ => Err "target must be a non-nil pointer to struct"
  end.

Definition ParseForm (formData : string) (tgt : target) : outcome govalue :=
  let '(values, failed) := url.ParseQuery formData in
  if failed then Err "failed to parse form data"
  else parseIntoStruct values tgt.

(** A pointer to a fresh (zero) value of a struct type. *)
Definition fresh (t : gotype) : target := PointerTo t (zero t).

(** ** Utility functions *)

(** [ParseTimestamp], [ParseInt] and [ParseFloat]: the empty string is
    refused first, then [strconv] decides.  The text of an error of
    [strconv], which quotes the input, is abbreviated. *)
Definition ParseTimestamp (timestamp : string) : outcome Z :=
  if String.eqb timestamp EmptyString then Err "empty timestamp"
  else match strconv.ParseInt timestamp 64 with
       | Some ts => Ok ts
       | None => Err "invalid timestamp format"
       end.

Definition ParseInt (v : string) : outcome Z :=
  if String.eqb v EmptyString then Err "empty value"
  else match strconv.Atoi v with
       | Some n => Ok n
       | None => Err "strconv.Atoi: invalid syntax or out of range"
       end.

Definition ParseFloat (v : string) : outcome strconv.float64 :=
  if String.eqb v EmptyString then Err "empty value"
  else match strconv.ParseFloat v with
       | Some f => Ok f
       | None => Err "strconv.ParseFloat: invalid syntax or out of range"
       end.

(** The [...Bytes] entry points convert the bytes to a string and call
    the string entry point; a byte sequence is a [string] here. *)
Definition FormToMapBytes (data : string) := FormToMap data.
Definition FormToJSONBytes (data : string) := FormToJSON data.
Definition FormToMapEncodedBytes (data : string) := FormToMapEncoded data.
Definition FormToJSONEncodedBytes (data : string) := FormToJSONEncoded data.
Definition ParseFormBytes (data : string) (tgt : target) := ParseForm data tgt.

(** ** Vocabulary of the statements *)

(** A corpus is a Go map: its keys are pairwise distinct. *)
Definition corpus (values : url.Values) : Prop := NoDup (map fst values).

(** The corpus with every value sequence cut down to its first value. *)
Definition firstValues (values : url.Values) : url.Values :=
  map (fun entry => (fst entry, firstn 1 (snd entry))) values.

(** A non-empty run of base-10 digits: the unsigned integers of the
    bracket grammar. *)
Definition allDigits (s : string) : bool :=
  negb (String.eqb s EmptyString) && forallb isDigit (list_ascii_of_string s).

Definition decimalValue (s : string) : Z :=
  fold_left (fun acc c => acc * 10 + (byte c - 48)) (list_ascii_of_string s) 0.

Definition negative (s : string) : bool :=
  match s with String c _ => Ascii.eqb c "-" | EmptyString => false end.

(** [s] without one leading sign. *)
Definition unsigned (s : string) : string :=
  match s with
  | String c s' => if Ascii.eqb c "+" || Ascii.eqb c "-" then s' else s
  | EmptyString => s
  end.

(** The text of a key from its first '[' on, where the bracket groups are
    looked for. *)
Definition bracketPart (key : string) : string :=
  strings.drop (Z.to_nat (strings.Index key "[")) key.

(** What a node contributes to the array or object of its parent; the
    three loops of [buildArrayFromGroup] and [buildObjectFromGroup] repeat
    this case analysis.  [None]: the slot or key is left alone. *)
Definition buildChild (child : keyGroup) : outcome (option any) :=
  if isSimple child then Ok (Some (value child))
  else if nonEmpty (children child) || nonEmpty (arrayData child)
  then if nonEmpty (arrayData child)
       then a <- buildArrayFromGroup child ;; Ok (Some (ASlice a))
       else o <- buildObjectFromGroup child ;; Ok (Some (AMap o))
  else Ok None.

(** The loop of [buildArrayFromGroup] and the two loops of
    [buildObjectFromGroup], in terms of [buildChild]. *)
Fixpoint fillSlots (items : list (Z * keyGroup)) (result : list any)
  : outcome (list any) :=
  match items with
  | [] => Ok result
  | (index, arrayItem) :: rest =>
      r <- buildChild arrayItem ;;
      result' <- match r with
                 | Some v => setIndex result index v
                 | None => Ok result
                 end ;;
      fillSlots rest result'
  end.

Fixpoint fillKeys {K} (name : K -> string) (entries : list (K * keyGroup))
  (result : list (string * any)) : outcome (list (string * any)) :=
  match entries with
  | [] => Ok result
  | (key, child) :: rest =>
      r <- buildChild child ;;
      fillKeys name rest
        (match r with
         | Some v => sset result (name key) v
         | None => result
         end)
  end.

(** A node that puts a value other than nil in its slot. *)
Definition contributes (c : keyGroup) : Prop :=
  (isSimple c = true /\ value c <> Nil) \/
  (isSimple c = false /\
   nonEmpty (children c) || nonEmpty (arrayData c) = true).

Definition scalarOk (c : keyGroup) : Prop :=
  isSimple c = true -> value c <> Nil.

(** A key that [parseKeyStructure] can slice: it has a '[' or it has no
    ']'. *)
Definition parsable (key : string) : bool :=
  strings.Contains key "[" || negb (strings.Contains key "]").

(** The entry gives base key [b] a child at index [i]. *)
Definition indexEntry_of (b : string) (entry : string * list string)
  (i : Z) : Prop :=
  exists v vs p,
    snd entry = v :: vs /\
    parseKeyStructure (fst entry) = Ok p /\
    parsed_baseKey p = b /\
    parsed_isArray p = true /\
    parsed_arrayIndex p = i.

Definition supplies (values : url.Values) (b : string) (i : Z) : Prop :=
  exists e, In e values /\ indexEntry_of b e i.

(** The group under construction for base key [b]. *)
Definition groupOf (groups : list (string * keyGroup)) (b : string)
  : keyGroup :=
  getOr String.eqb groups b (newKeyGroup b).

(** A scalar: what a leaf holds. *)
Definition isScalar (v : any) : bool :=
  match v with
  | AString _ | AInt _ | AInt64 _ | AFloat64 _ | ABool _ => true
  | _ => false
  end.

Definition plainGroups (values : url.Values) : list (string * keyGroup) :=
  flat_map
    (fun entry =>
       match snd entry with
       | [] => []
       | v :: _ => [(fst entry, setScalar (newKeyGroup (fst entry)) (AString v))]
       end) values.

(** Every key with its first value, as a string. *)
Definition rawStrings (values : url.Values) : list (string * any) :=
  flat_map
    (fun entry =>
       match snd entry with
       | [] => []
       | v :: _ => [(fst entry, AString v)]
       end) values.

Definition plain (values : url.Values) : Prop :=
  forall key vs, In (key, vs) values ->
                 strings.Contains key "[" = false /\
                 strings.Contains key "]" = false.

(** The entry assigns a scalar to base key [b]: its key parses to the
    bare base name, and [v] is its first value. *)
Definition scalarEntry (b : string) (entry : string * list string)
  (v : string) : Prop :=
  exists vs p,
    snd entry = v :: vs /\
    parseKeyStructure (fst entry) = Ok p /\
    parsed_baseKey p = b /\
    parsed_isArray p = false /\
    parsed_isNested p = false.

(** [x] is the scalar that the raw value stands for, as a string or
    coerced. *)
Definition scalarFrom (raw : string) (x : any) : Prop :=
  x = AString raw \/ x = convertValueToType raw.

(** The group of [b] holds the scalar of one of the scalar entries of
    [values]. *)
Definition holdsScalar (values : url.Values) (b : string)
  (groups : list (string * keyGroup)) : Prop :=
  exists g, sget groups b = Some g /\ isSimple g = true /\
            exists e v, In e values /\ scalarEntry b e v /\
                        value g = AString v.

(** The group of [b] exists and is flagged as an array. *)
Definition isArrayGroup (b : string) (groups : list (string * keyGroup))
  : Prop :=
  exists g, sget groups b = Some g /\ isArray g = true.

(** ** Vocabulary of the tree below a node *)

(** The entry gives index [i] of base key [b] the value [v] at [path]
    below the index; [path] is empty for "b[i]=v". *)
Definition entryAt (b : string) (entry : string * list string) (i : Z)
  (path : list string) (v : string) : Prop :=
  exists vs p,
    snd entry = v :: vs /\
    parseKeyStructure (fst entry) = Ok p /\
    parsed_baseKey p = b /\
    parsed_isArray p = true /\
    parsed_arrayIndex p = i /\
    parsed_path p = path.

(** The entry gives base key [b] the value [v] at the named [path]. *)
Definition entryUnder (b : string) (entry : string * list string)
  (path : list string) (v : string) : Prop :=
  exists vs p,
    snd entry = v :: vs /\
    parseKeyStructure (fst entry) = Ok p /\
    parsed_baseKey p = b /\
    parsed_isNested p = true /\
    parsed_path p = path.

(** Every entry of base key [b] gives it an indexed child. *)
Definition indexedOnly (values : url.Values) (b : string) : Prop :=
  forall key v vs p,
    In (key, v :: vs) values ->
    parseKeyStructure key = Ok p ->
    parsed_baseKey p = b ->
    parsed_isArray p = true.

(** Every entry of base key [b] gives it a named child. *)
Definition namedOnly (values : url.Values) (b : string) : Prop :=
  forall key v vs p,
    In (key, v :: vs) values ->
    parseKeyStructure key = Ok p ->
    parsed_baseKey p = b ->
    parsed_isNested p = true.

(** No node has two entries for one index or for one name, and every
    node below puts a value other than nil in its slot.  No bound on the
    indices. *)
Inductive tidy : keyGroup -> Prop :=
| Tidy (g : keyGroup) :
    NoDup (map fst (arrayData g)) ->
    NoDup (map fst (children g)) ->
    (forall i c, In (i, c) (arrayData g) -> contributes c) ->
    (forall k c, In (k, c) (children g) -> contributes c) ->
    (forall i c, In (i, c) (arrayData g) -> tidy c) ->
    (forall k c, In (k, c) (children g) -> tidy c) ->
    tidy g.

(** The child [k] of the node was assigned a value directly. *)
Definition leafAt (node : keyGroup) (k : string) : Prop :=
  exists c, sget (children node) k = Some c /\ isSimple c = true.

(** The node has taken in an assignment at [path]. *)
Definition covers (node : keyGroup) (path : list string) : Prop :=
  match path with
  | [] => isSimple node = true
  | k :: rest =>
      if isNumeric k then arrayData node <> []
      else In k (map fst (children node)) /\ (rest = [] -> leafAt node k)
  end.

(** What the node has below it comes from assignments in [F]: a named
    child from a path that starts with its name, indexed children from a
    path that starts with a numeric segment, and the scalar of a named
    child from a path that is the name alone, coerced. *)
Definition fedBy (F : list string -> string -> Prop) (node : keyGroup)
  : Prop :=
  (forall k, In k (map fst (children node)) ->
             isNumeric k = false /\ exists rest v, F (k :: rest) v) /\
  (arrayData node <> [] ->
   exists k rest v, F (k :: rest) v /\ isNumeric k = true) /\
  (forall k c, sget (children node) k = Some c -> isSimple c = true ->
               exists v, F [k] v /\ value c = convertValueToType v).

(** Some entry of [values] gives index [i] of base key [b] the value [v]
    at [path] below the index. *)
Definition assignsAt (values : url.Values) (b : string) (i : Z)
  (path : list string) (v : string) : Prop :=
  exists e, In e values /\ entryAt b e i path v.

(** Some entry of [values] gives base key [b] the value [v] at the named
    [path]. *)
Definition assignsUnder (values : url.Values) (b : string)
  (path : list string) (v : string) : Prop :=
  exists e, In e values /\ entryUnder b e path v.

(** Every node of the array of base key [b] comes from the entries of
    [values] for its index; a scalar in it is the raw value of an entry
    "b[i]=v". *)
Definition itemsFrom (values : url.Values) (b : string) (g : keyGroup)
  : Prop :=
  forall i c,
    In (i, c) (arrayData g) ->
    (exists path v, assignsAt values b i path v) /\
    fedBy (assignsAt values b i) c /\
    (isSimple c = true ->
     exists v, assignsAt values b i [] v /\ value c = AString v).

(** The node at index [i] has taken in an assignment at [path]. *)
Definition itemCovers (g : keyGroup) (i : Z) (path : list string) : Prop :=
  exists c, zget (arrayData g) i = Some c /\ covers c path.

(** The node of a base key whose entries are all named: no scalar, no
    indexed child, and what it has below comes from those entries. *)
Definition objectNode (values : url.Values) (b : string) (g : keyGroup)
  : Prop :=
  isSimple g = false /\ isArray g = false /\ arrayData g = [] /\
  tidy g /\ fedBy (assignsUnder values b) g.

(** No bracket group of the key is numeric. *)
Definition namesOnly (key : string) : Prop :=
  forall seg,
    In seg (FindAllStringSubmatch (bracketPart key)) -> isNumeric seg = false.

(** No node of the tree has an indexed child. *)
Inductive arrayFree : keyGroup -> Prop :=
| ArrayFree (g : keyGroup) :
    arrayData g = [] ->
    (forall k c, In (k, c) (children g) -> arrayFree c) ->
    arrayFree g.

(** ** Vocabulary of the further properties *)

(** The byte [c] occurs in [s]. *)
Fixpoint hasByte (c : ascii) (s : string) : bool :=
  match s with
  | EmptyString => false
  | String d s' => Ascii.eqb d c || hasByte c s'
  end.

Definition backslash : ascii := "092"%char.

(** Some entry of [values] with a value has base key [b]. *)
Definition hasBase (values : url.Values) (b : string) : Prop :=
  exists key v vs p,
    In (key, v :: vs) values /\
    parseKeyStructure key = Ok p /\
    parsed_baseKey p = b.




(** The body of the loop of [parseStruct]: the new value of one field. *)
Definition bindField (values : url.Values) (f : string * string * gotype)
  (c : govalue) : outcome govalue :=
  match findFieldData values (lookupName f) with
  | None => Ok c
  | Some fieldData =>
      parseFieldValue (exported (fst (fst f))) (snd f) c fieldData
        (lookupName f)
  end.

(** The sign that [strconv] reads before the digits. *)
Definition signed (s : string) (n : Z) : Z := if negative s then - n else n.

(** Whether [s] is an optionally signed run of digits within the range of
    a 64-bit int. *)
Definition decimalInt64 (s : string) : bool :=
  allDigits (unsigned s)
  && (if negative s then decimalValue (unsigned s) <=? 2 ^ 63
      else decimalValue (unsigned s) <? 2 ^ 63).

(** The group of [b] is flagged as an array and has an entry at index
    [i]. *)
Definition hasIndex (b : string) (i : Z) (groups : list (string * keyGroup))
  : Prop :=
  exists g, sget groups b = Some g /\ isArray g = true /\
            In i (map fst (arrayData g)).

(** The group has no scalar and every node of its array puts a value in
    its slot. *)
Definition fullArray (g : keyGroup) : Prop :=
  isSimple g = false /\
  forall j c, In (j, c) (arrayData g) -> contributes c.

(** The kinds that [setValue] has a case for. *)
Definition scalarKind (t : gotype) : bool :=
  match t with
  | TString | TInt _ | TUint _ | TFloat _ | TBool => true
  | _ => false
  end.

(** No key of the corpus is the field name followed by a '['. *)
Definition noNestedKeys (values : url.Values) (fieldName : string) : Prop :=
  forall key ws, In (key, ws) values ->
                 strings.HasPrefix key (fieldName ++ "[") = false.

(** No key of the corpus that has a value names the field. *)
Definition noKeyFor (values : url.Values) (fieldName : string) : Prop :=
  forall key v vs, In (key, v :: vs) values ->
                   key <> fieldName /\
                   strings.HasPrefix key (fieldName ++ "[") = false.

(** The fields of a nested struct that [setValue] writes are exported. *)
Definition settableFields (fields : list (string * string * gotype)) : bool :=
  forallb (fun f => exported (fst (fst f)) || negb (scalarKind (snd f))) fields.

(** A field that [parseFieldValue] can bind without a panic whatever the
    data: anything but a slice, exported where a [Set] method is called. *)
Definition bindable (f : string * string * gotype) : bool :=
  match snd f with
  | TSlice _ => false
  | TStruct inner => settableFields inner
  | TOther => true
  | _ => exported (fst (fst f))
  end.

(** No key of the corpus starts with the field name and '[' twice over. *)
Definition noDoubledPrefix (values : url.Values) (fieldName : string) : Prop :=
  forall key vs, In (key, vs) values ->
                 strings.HasPrefix key
                   (fieldName ++ "[" ++ fieldName ++ "[") = false.

(** What the corpus has for the field has no '[' besides the one that ends
    the prefix: the key is the field name, or the field name, '[' and a
    rest without a '['. *)
Definition oneBracketKeys (values : url.Values) (fieldName : string) : Prop :=
  forall key vs,
    In (key, vs) values ->
    (key = fieldName -> strings.Contains key "[" = false) /\
    (strings.HasPrefix key (fieldName ++ "[") = true ->
     strings.Contains (strings.drop (String.length fieldName + 1) key) "["
     = false).

(** ** Destination types of the examples *)

Definition Item : gotype := TStruct [("ID", "id", TInt 64)].

Definition Order : gotype :=
  TStruct [("Items", "items", TSlice Item);
           ("Meta", "meta", TMap TString TString);
           ("Scores", "scores", TMap TString (TInt 64))].

(** * Properties *)

(** ** Evaluation at concrete inputs *)

(** C1 (violated by the code).  A key with a ']' and no '[' makes
    [parseKeyStructure] slice the key at index -1, and a bracket group
    holding "-1" makes [buildArrayFromGroup] store at index -1: both
    conversions panic on a corpus that decodes without error. *)
Theorem malformed_brackets_panic :
  url.ParseQuery "a]=1" = ([("a]", ["1"])], false) /\
  FormToMap "a]=1" = Panic "slice bounds out of range" /\
  FormToJSON "a]=1" = Panic "slice bounds out of range" /\
  url.ParseQuery "a[-1]=1" = ([("a[-1]", ["1"])], false) /\
  FormToMap "a[-1]=1" = Panic "index out of range" /\
  FormToJSON "a[-1]=1" = Panic "index out of range".
Proof. repeat split; vm_compute; reflexivity. Qed.

(** Every key with a ']' and no '[' is fatal. *)
Lemma close_without_open_panics (key : string) :
  strings.Contains key "]" = true ->
  strings.Contains key "[" = false ->
  parseKeyStructure key = Panic "slice bounds out of range".
Proof.
  intros Hclose Hopen. unfold parseKeyStructure.
  rewrite Hclose, Hopen. cbn [negb andb].
  unfold strings.Contains in Hopen.
  unfold slice_to.
  replace (strings.Index key "[" <? 0) with true by (symmetry; lia).
  reflexivity.
Qed.

(** C8 (violated by the code).  [findFieldData] hands [parseSlice] the
    keys without their "items[" prefix ("0][id]"), where [parseSlice]
    looks for the index after the first '[' ("id"): nothing is indexed
    and the slice stays nil. *)
Theorem slice_field_stays_nil :
  findFieldData [("items[0][id]", ["1"]); ("items[1][id]", ["2"])] "items"
    = Some [("0][id]", "1"); ("1][id]", "2")] /\
  fold_left indexEntry [("0][id]", "1"); ("1][id]", "2")] [] = [] /\
  ParseForm "items[0][id]=1&items[1][id]=2" (fresh Order)
    = Ok (GStruct [GSlice None; GMap None; GMap None]).
Proof. repeat split; vm_compute; reflexivity. Qed.

(** C9 (violated by the code).  [parseMap] looks for the "meta[" prefix
    that [findFieldData] has already removed, so "meta[color]=red" leaves
    the map nil; and where a key does get through, a value that does not
    coerce is stored as the zero value, not skipped, since [setValue]
    never returns an error. *)
Theorem map_field_stays_nil :
  findFieldData [("meta[color]", ["red"])] "meta" = Some [("color]", "red")] /\
  fold_left (mapEntry "meta") [("color]", "red")] [] = [] /\
  ParseForm "meta[color]=red" (fresh Order)
    = Ok (GStruct [GSlice None; GMap None; GMap None]) /\
  ParseForm "scores[scores[a]=xyz" (fresh Order)
    = Ok (GStruct [GSlice None; GMap None;
                   GMap (Some [(GString "a", GInt 0)])]).
Proof. repeat split; vm_compute; reflexivity. Qed.

(** C10 (violated by the code).  On the two-line input "a = 1", "b = 2"
    only [FormToJSONEncoded] rewrites the lines into "a=1&b=2"; the map of
    [FormToMapEncoded] has the single key "a " and its JSON encoding is
    another document.  The same happens on the multi-line configuration
    that the README passes to [FormToMapEncoded]. *)
Theorem encoded_entry_points_disagree :
  FormToJSONEncoded ("a = 1" ++ newline ++ "b = 2")
    = Ok (json.Object [("a", json.Str "1"); ("b", json.Str "2")]) /\
  FormToMapEncoded ("a = 1" ++ newline ++ "b = 2")
    = Ok [("a ", AString (" 1" ++ newline ++ "b = 2"))] /\
  json.Marshal (AMap [("a ", AString (" 1" ++ newline ++ "b = 2"))])
    = Ok (json.Object [("a ", json.Str (" 1" ++ newline ++ "b = 2"))]) /\
  json.Marshal (AMap [("a ", AString (" 1" ++ newline ++ "b = 2"))])
    <> FormToJSONEncoded ("a = 1" ++ newline ++ "b = 2") /\
  FormToJSONEncoded ("database[host] = localhost" ++ newline
                     ++ "database[port] = 5432")
    = Ok (json.Object
            [("database", json.Object [("host", json.Str "localhost");
                                       ("port", json.Int 5432)])]) /\
  FormToMapEncoded ("database[host] = localhost" ++ newline
                    ++ "database[port] = 5432")
    = Ok [("database",
           AMap [("host", AString (" localhost" ++ newline
                                   ++ "database[port] = 5432"))])].
Proof.
  repeat split; try (vm_compute; reflexivity).
  vm_compute. discriminate.
Qed.

(** ** Coercion of leaf values *)

Lemma Atoi_is_ParseInt64 (s : string) : strconv.ParseInt s 64 = strconv.Atoi s.
Proof. reflexivity. Qed.

(** C4.  [convertValueToType] tries int, then float64, then bool, and
    falls back on the string (its int64 attempt can only repeat the int
    one); "0" and "1" are therefore ints, "123" is the int 123, "1.5" the
    float 1.5 and "true" the boolean. *)
Theorem coercion_priority :
  (forall s,
      convertValueToType s =
      match strconv.Atoi s with
      | Some n => AInt n
      | None =>
          match strconv.ParseFloat s with
          | Some f => AFloat64 f
          | None =>
              match strconv.ParseBool s with
              | Some b => ABool b
              | None => AString s
              end
          end
      end) /\
  strconv.ParseBool "0" = Some false /\
  strconv.ParseBool "1" = Some true /\
  convertValueToType "0" = AInt 0 /\
  convertValueToType "1" = AInt 1 /\
  convertValueToType "123" = AInt 123 /\
  convertValueToType "1.5" = AFloat64 (S754_finite false 6755399441055744 (-52)) /\
  (6755399441055744 * 2 = 3 * 2 ^ 52) /\
  convertValueToType "true" = ABool true.
Proof.
  split.
  - intro s. unfold convertValueToType.
    rewrite Atoi_is_ParseInt64.
    destruct (strconv.Atoi s); reflexivity.
  - repeat split; vm_compute; reflexivity.
Qed.

(** ** Facts about Go maps *)

Section GoMapFacts.
Context {K V : Type} (eqb : K -> K -> bool).
Hypothesis eqb_eq : forall a b, eqb a b = true <-> a = b.

Lemma eqb_refl' (k : K) : eqb k k = true.
Proof. apply eqb_eq. reflexivity. Qed.

Lemma eqb_neq (a b : K) : a <> b -> eqb a b = false.
Proof.
  intro N. destruct (eqb a b) eqn:E; [|reflexivity].
  apply eqb_eq in E. contradiction.
Qed.

Lemma map_get_set_same (m : list (K * V)) k v :
  map_get eqb (map_set eqb m k v) k = Some v.
Proof.
  induction m as [|[k' v'] m IH]; cbn.
  - rewrite eqb_refl'. reflexivity.
  - destruct (eqb k' k) eqn:E; cbn; rewrite E; auto.
Qed.

Lemma map_get_set_other (m : list (K * V)) k k' v :
  k <> k' -> map_get eqb (map_set eqb m k v) k' = map_get eqb m k'.
Proof.
  intro N. induction m as [|[k0 v0] m IH]; cbn.
  - rewrite (eqb_neq k k' N). reflexivity.
  - destruct (eqb k0 k) eqn:E; cbn.
    + apply eqb_eq in E. subst k0. rewrite (eqb_neq k k' N). reflexivity.
    + destruct (eqb k0 k'); auto.
Qed.

Lemma map_get_None_notin (m : list (K * V)) k :
  map_get eqb m k = None <-> ~ In k (map fst m).
Proof.
  induction m as [|[k0 v0] m IH]; cbn.
  - tauto.
  - destruct (eqb k0 k) eqn:E.
    + apply eqb_eq in E. split; [discriminate|]. intro N. exfalso. auto.
    + rewrite IH. split.
      * intros N [F|F]; [|auto]. subst. rewrite eqb_refl' in E. discriminate.
      * tauto.
Qed.

Lemma map_get_In (m : list (K * V)) k v :
  map_get eqb m k = Some v -> In (k, v) m.
Proof.
  induction m as [|[k0 v0] m IH]; cbn; [discriminate|].
  destruct (eqb k0 k) eqn:E.
  - apply eqb_eq in E. intro S. left. congruence.
  - auto.
Qed.

Lemma In_map_get (m : list (K * V)) k v :
  NoDup (map fst m) -> In (k, v) m -> map_get eqb m k = Some v.
Proof.
  induction m as [|[k0 v0] m IH]; cbn; [tauto|].
  intros ND [E|I].
  - injection E as -> ->. rewrite eqb_refl'. reflexivity.
  - inversion ND as [|? ? Hnot ND']; subst.
    destruct (eqb k0 k) eqn:E.
    + apply eqb_eq in E. subst k0. exfalso. apply Hnot.
      change k with (fst (k, v)). apply in_map. exact I.
    + auto.
Qed.

Lemma map_set_keys (m : list (K * V)) k v :
  map fst (map_set eqb m k v)
  = match map_get eqb m k with
    | Some _ => map fst m
    | None => (map fst m ++ [k])%list
    end.
Proof.
  induction m as [|[k0 v0] m IH]; cbn; [reflexivity|].
  destruct (eqb k0 k) eqn:E; cbn; [reflexivity|].
  rewrite IH. destruct (map_get eqb m k); reflexivity.
Qed.

Lemma map_set_NoDup (m : list (K * V)) k v :
  NoDup (map fst m) -> NoDup (map fst (map_set eqb m k v)).
Proof.
  intro ND. rewrite map_set_keys.
  destruct (map_get eqb m k) eqn:G; [exact ND|].
  apply map_get_None_notin in G.
  apply NoDup_app; [exact ND|repeat constructor; cbn; tauto|].
  intros x Hx [<-|[]]. contradiction.
Qed.

Lemma In_map_set (m : list (K * V)) k v k' v' :
  NoDup (map fst m) ->
  In (k', v') (map_set eqb m k v) ->
  (k' = k /\ v' = v) \/ (k' <> k /\ In (k', v') m).
Proof.
  intros ND I.
  assert (ND' := map_set_NoDup m k v ND).
  apply (In_map_get _ _ _ ND') in I.
  destruct (eqb k k') eqn:E.
  - apply eqb_eq in E. subst k'. rewrite map_get_set_same in I.
    left. split; congruence.
  - assert (N : k <> k').
    { intro F. subst. rewrite eqb_refl' in E. discriminate. }
    rewrite (map_get_set_other _ _ _ _ N) in I.
    right. split; [congruence|]. apply map_get_In. exact I.
Qed.
End GoMapFacts.

Lemma string_eqb_eq (a b : string) : String.eqb a b = true <-> a = b.
Proof. apply String.eqb_eq. Qed.

Lemma Z_eqb_eq (a b : Z) : (a =? b) = true <-> a = b.
Proof. apply Z.eqb_eq. Qed.

(** ** Classification of bracket groups *)

Lemma digitsFrom_spec (s : string) :
  forall acc,
    strconv.digitsFrom acc s
    = if forallb isDigit (list_ascii_of_string s)
      then Some (fold_left (fun a c => a * 10 + (byte c - 48))
                   (list_ascii_of_string s) acc)
      else None.
Proof.
  induction s as [|c s IH]; intro acc; cbn.
  - reflexivity.
  - destruct (isDigit c); cbn; [apply IH|reflexivity].
Qed.

Lemma digits_spec (s : string) :
  strconv.digits s = if allDigits s then Some (decimalValue s) else None.
Proof.
  unfold strconv.digits, allDigits, decimalValue.
  destruct s as [|c s]; [reflexivity|].
  rewrite digitsFrom_spec. reflexivity.
Qed.

(** [isNumeric] accepts an optional sign followed by digits, within the
    range of a 64-bit int. *)
Lemma isNumeric_spec (s : string) :
  isNumeric s
  = allDigits (unsigned s)
    && (if negative s then decimalValue (unsigned s) <=? 2 ^ 63
        else decimalValue (unsigned s) <? 2 ^ 63).
Proof.
  unfold isNumeric, strconv.Atoi, strconv.ParseInt, strconv.intSize.
  destruct s as [|c s]; [reflexivity|].
  cbn [unsigned negative].
  rewrite digits_spec.
  change (2 ^ (64 - 1)) with (2 ^ 63).
  destruct (allDigits (if (c =? "+")%char || (c =? "-")%char then s else String c s));
    cbn [andb]; [|reflexivity].
  destruct (c =? "-")%char.
  - destruct (_ <=? _); reflexivity.
  - destruct (_ <? _); reflexivity.
Qed.

Lemma HasPrefix_empty (s : string) : strings.HasPrefix s EmptyString = true.
Proof. destruct s; reflexivity. Qed.

Lemma no_open_bracket (key : string) :
  strings.Index key "[" < 0 -> bracketGroups key None = [].
Proof.
  induction key as [|c key IH]; intro H.
  - reflexivity.
  - cbn [strings.Index strings.HasPrefix] in H.
    rewrite HasPrefix_empty in H.
    cbn [bracketGroups].
    rewrite Ascii.eqb_sym.
    destruct (Ascii.eqb "[" c); cbn [andb] in H.
    + lia.
    + apply IH. destruct (strings.Index key "[" <? 0) eqn:L; lia.
Qed.

Lemma parseKeyStructure_first_group (key : string) (p : parsedKey)
  (first : string) (others : list string) :
  parseKeyStructure key = Ok p ->
  FindAllStringSubmatch (bracketPart key) = first :: others ->
  parsed_isArray p = isNumeric first /\
  parsed_isNested p = negb (isNumeric first) /\
  parsed_arrayIndex p = (if isNumeric first then atoi first else 0) /\
  parsed_path p = (if isNumeric first then others else first :: others).
Proof.
  unfold parseKeyStructure, FindAllStringSubmatch, bracketPart.
  destruct (strings.Contains key "[") eqn:Hopen; cbn [negb andb].
  - unfold slice_to, slice_from.
    destruct ((strings.Index key "[" <? 0) || (len key <? strings.Index key "["));
      cbn [bind]; [discriminate|].
    intros Hp Hm. rewrite Hm in Hp.
    destruct (isNumeric first); injection Hp as <-; cbn; auto.
  - intros _ Hm.
    assert (I : strings.Index key "[" < 0)
      by (unfold strings.Contains in Hopen; lia).
    replace (Z.to_nat (strings.Index key "[")) with 0%nat in Hm by lia.
    cbn [strings.drop] in Hm.
    rewrite (no_open_bracket key I) in Hm. discriminate.
Qed.

(** A later segment of the path goes to [arrayData] or to [children]
    after the same test. *)
Lemma addNestedToGroup_segment (group : keyGroup) (k : string)
  (rest : list string) (v : string) :
  let group' := addNestedToGroup group (k :: rest) v in
  if isNumeric k
  then children group' = children group /\
       map_has Z.eqb (arrayData group') (atoi k) = true
  else arrayData group' = arrayData group /\
       map_has String.eqb (children group') k = true.
Proof.
  cbn zeta. cbn [addNestedToGroup].
  destruct (isNumeric k).
  - cbn. split; [reflexivity|]. unfold map_has.
    rewrite (map_get_set_same Z.eqb Z_eqb_eq). reflexivity.
  - destruct rest; cbn; (split; [reflexivity|]); unfold map_has;
      rewrite (map_get_set_same String.eqb string_eqb_eq); reflexivity.
Qed.

Lemma atoi_unsigned (s : string) :
  negative s = false -> isNumeric s = true ->
  atoi s = decimalValue (unsigned s).
Proof.
  unfold isNumeric, atoi, strconv.Atoi, strconv.ParseInt, strconv.intSize.
  destruct s as [|c s]; [discriminate|].
  cbn [unsigned negative]. intros ->. rewrite digits_spec.
  rewrite orb_false_r.
  destruct (allDigits (if (c =? "+")%char then s else String c s));
    [|discriminate].
  destruct (_ <? _); [reflexivity|discriminate].
Qed.

(** C7 as stated fails: the group "+7" is not made of digits only, and
    [parseKeyStructure] classifies it as an array index; the group
    "9223372036854775808" is made of digits only, and it is a name. *)
Lemma signed_group_is_an_index :
  ~ (forall key p first others,
        parseKeyStructure key = Ok p ->
        FindAllStringSubmatch (bracketPart key) = first :: others ->
        parsed_isArray p = allDigits first).
Proof.
  intro H.
  specialize (H "a[+7]" (mkParsedKey "a" true false 7 []) "+7" []
                eq_refl eq_refl).
  vm_compute in H. discriminate.
Qed.

(** C7, amended.  A bracket group is an array-index segment when its
    content is one or more base-10 digits, optionally after a single '+',
    with a value below 2^63, and the index is that value; it is a name
    segment whenever the content is not an optionally signed run of
    digits, and whenever the digits after a '+' or no sign have a value of
    2^63 or more.  The first group of a key and every later segment of its
    path are classified by this one test, [isNumeric]. *)
Theorem bracket_groups_are_classified_by_isNumeric :
  (forall s,
      negative s = false ->
      isNumeric s
      = allDigits (unsigned s) && (decimalValue (unsigned s) <? 2 ^ 63)) /\
  (forall s,
      negative s = false -> isNumeric s = true ->
      atoi s = decimalValue (unsigned s)) /\
  (forall s, allDigits (unsigned s) = false -> isNumeric s = false) /\
  (forall key p first others,
      parseKeyStructure key = Ok p ->
      FindAllStringSubmatch (bracketPart key) = first :: others ->
      parsed_isArray p = isNumeric first /\
      parsed_isNested p = negb (isNumeric first) /\
      parsed_arrayIndex p = (if isNumeric first then atoi first else 0) /\
      parsed_path p = (if isNumeric first then others else first :: others)) /\
  (forall group k rest v,
      let group' := addNestedToGroup group (k :: rest) v in
      if isNumeric k
      then children group' = children group /\
           map_has Z.eqb (arrayData group') (atoi k) = true
      else arrayData group' = arrayData group /\
           map_has String.eqb (children group') k = true) /\
  isNumeric "+7" = true /\ isNumeric "12" = true /\
  isNumeric "9223372036854775808" = false /\ isNumeric "1a" = false /\
  isNumeric "" = false.
Proof.
  split; [|split; [exact atoi_unsigned|split]].
  - intros s Hs. rewrite isNumeric_spec, Hs. reflexivity.
  - intros s Hs. rewrite isNumeric_spec, Hs. reflexivity.
  - split; [exact parseKeyStructure_first_group|].
    split; [exact addNestedToGroup_segment|].
    repeat split; vm_compute; reflexivity.
Qed.

Lemma bracket_groups_are_classified_by_isNumeric_witness :
  isNumeric "+7" = allDigits (unsigned "+7") && (decimalValue (unsigned "+7") <? 2 ^ 63) /\
  atoi "+7" = decimalValue (unsigned "+7") /\
  isNumeric "x1" = false /\
  (parsed_isArray (mkParsedKey "a" true false 7 []) = isNumeric "+7" /\
   parsed_isNested (mkParsedKey "a" true false 7 []) = negb (isNumeric "+7") /\
   parsed_arrayIndex (mkParsedKey "a" true false 7 [])
     = (if isNumeric "+7" then atoi "+7" else 0) /\
   parsed_path (mkParsedKey "a" true false 7 [])
     = (if isNumeric "+7" then [] else ["+7"])).
Proof.
  pose proof bracket_groups_are_classified_by_isNumeric as (H1 & H2 & H3 & H4 & _).
  split; [apply (H1 "+7"); reflexivity|].
  split; [apply (H2 "+7"); reflexivity|].
  split; [apply (H3 "x1"); reflexivity|].
  apply (H4 "a[+7]" (mkParsedKey "a" true false 7 []) "+7" []);
    vm_compute; reflexivity.
Defined.

(** ** Corpora without brackets *)

Lemma map_set_fresh {K V} (eqb : K -> K -> bool) (m : list (K * V)) k v :
  map_get eqb m k = None -> map_set eqb m k v = (m ++ [(k, v)])%list.
Proof.
  induction m as [|[k0 v0] m IH]; cbn; [reflexivity|].
  destruct (eqb k0 k); [discriminate|].
  intro G. rewrite (IH G). reflexivity.
Qed.

Lemma NoDup_app_head {A} (l1 l2 : list A) (x : A) :
  NoDup (l1 ++ x :: l2) -> ~ In x l1 /\ NoDup ((l1 ++ [x]) ++ l2) /\ NoDup (l1 ++ l2).
Proof.
  intro ND. split; [|split].
  - apply NoDup_remove_2 in ND. intro I. apply ND. apply in_or_app. auto.
  - rewrite <- app_assoc. exact ND.
  - apply NoDup_remove_1 in ND. exact ND.
Qed.

Lemma parseKeyStructure_plain (key : string) :
  strings.Contains key "[" = false ->
  strings.Contains key "]" = false ->
  parseKeyStructure key = Ok (mkParsedKey key false false 0 []).
Proof.
  intros H1 H2. unfold parseKeyStructure. rewrite H1, H2. reflexivity.
Qed.

Lemma addEntries_plain (values : url.Values) :
  forall groups,
    NoDup (map fst groups ++ map fst values) ->
    plain values ->
    addEntries groups values = Ok (groups ++ plainGroups values)%list.
Proof.
  induction values as [|[key vs] values IH]; intros groups ND Hplain.
  - cbn. rewrite app_nil_r. reflexivity.
  - cbn [map fst] in ND. apply NoDup_app_head in ND.
    destruct ND as (Hnot & ND1 & ND2).
    assert (Hplain' : plain values).
    { intros k w I. apply (Hplain k w). right. exact I. }
    destruct (Hplain key vs (or_introl eq_refl)) as [H1 H2].
    cbn [addEntries addEntry plainGroups flat_map snd fst].
    destruct vs as [|v vs].
    + cbn [bind app]. apply IH; assumption.
    + rewrite (parseKeyStructure_plain key H1 H2). cbn [bind parsed_baseKey
        parsed_isArray parsed_isNested].
      assert (G : sget groups key = None).
      { apply (map_get_None_notin String.eqb string_eqb_eq). exact Hnot. }
      unfold getOr. rewrite G.
      rewrite (map_set_fresh String.eqb groups key _ G).
      rewrite IH.
      * rewrite <- app_assoc. reflexivity.
      * rewrite map_app. exact ND1.
      * exact Hplain'.
Qed.

Lemma buildGroups_simple (keyGroups : list (string * keyGroup)) :
  forall result,
    NoDup (map fst result ++ map fst keyGroups) ->
    (forall k g, In (k, g) keyGroups -> isSimple g = true) ->
    buildGroups keyGroups result
    = Ok (result ++ map (fun e => (fst e, value (snd e))) keyGroups)%list.
Proof.
  induction keyGroups as [|[k g] keyGroups IH]; intros result ND Hs.
  - cbn. rewrite app_nil_r. reflexivity.
  - cbn [map fst] in ND. apply NoDup_app_head in ND.
    destruct ND as (Hnot & ND1 & _).
    cbn [buildGroups]. unfold buildGroup.
    rewrite (Hs k g (or_introl eq_refl)). cbn [bind].
    assert (G : sget result k = None).
    { apply (map_get_None_notin String.eqb string_eqb_eq). exact Hnot. }
    rewrite (map_set_fresh String.eqb result k _ G).
    rewrite IH.
    + rewrite <- app_assoc. reflexivity.
    + rewrite map_app. exact ND1.
    + intros k' g' I. apply (Hs k' g'). right. exact I.
Qed.

Lemma plainGroups_keys (values : url.Values) :
  NoDup (map fst values) -> NoDup (map fst (plainGroups values)).
Proof.
  induction values as [|[key vs] values IH]; intro ND; cbn.
  - constructor.
  - inversion ND as [|? ? Hnot ND']; subst.
    destruct vs as [|v vs]; cbn; [auto|].
    constructor; [|auto].
    intro I. apply Hnot. clear - I.
    induction values as [|[k w] values IH]; cbn in *; [exact I|].
    destruct w; cbn in *; [right; auto|].
    destruct I; [left; assumption|right; auto].
Qed.

Lemma plainGroups_values (values : url.Values) :
  map (fun e => (fst e, value (snd e))) (plainGroups values) = rawStrings values.
Proof.
  unfold plainGroups, rawStrings.
  induction values as [|[key vs] values IH]; [reflexivity|].
  cbn [flat_map]. rewrite map_app, IH.
  destruct vs; reflexivity.
Qed.

Lemma plainGroups_simple (values : url.Values) k g :
  In (k, g) (plainGroups values) -> isSimple g = true.
Proof.
  induction values as [|[key vs] values IH]; cbn; [tauto|].
  destruct vs; cbn; [exact IH|].
  intros [E|I]; [|auto]. injection E as _ <-. reflexivity.
Qed.

(** C3 (violated by the code).  For a corpus whose keys have no brackets
    the result has the same keys, but every value is the raw first value
    as a string: [groupKeysByStructure] stores it without calling
    [convertValueToType].  So "age=25" gives the string "25" where the
    coerced value is the int 25. *)
Theorem flat_keys_keep_raw_strings (values : url.Values) :
  corpus values ->
  plain values ->
  parseFormFlexibly values = Ok (rawStrings values) /\
  FormToMap "age=25" = Ok [("age", AString "25")] /\
  convertValueToType "25" = AInt 25.
Proof.
  intros ND Hplain. split; [|split; vm_compute; reflexivity].
  unfold parseFormFlexibly, groupKeysByStructure.
  rewrite (addEntries_plain values [] ND Hplain). cbn [bind app].
  rewrite buildGroups_simple.
  - cbn [app]. rewrite plainGroups_values. reflexivity.
  - cbn [map app]. apply plainGroups_keys. exact ND.
  - apply plainGroups_simple.
Qed.

Lemma flat_keys_keep_raw_strings_witness :
  parseFormFlexibly [("age", ["25"]); ("name", ["John"])]
  = Ok (rawStrings [("age", ["25"]); ("name", ["John"])]) /\
  FormToMap "age=25" = Ok [("age", AString "25")] /\
  convertValueToType "25" = AInt 25.
Proof.
  apply (flat_keys_keep_raw_strings [("age", ["25"]); ("name", ["John"])]).
  - unfold corpus. cbn. repeat constructor; cbn; intuition discriminate.
  - intros key vs [E|[E|[]]]; injection E as <- <-; split; reflexivity.
Defined.

(** ** A scalar and children on one path *)

Lemma addNestedToGroup_keeps_scalar (group : keyGroup) (path : list string)
  (v : string) :
  path <> [] ->
  isSimple (addNestedToGroup group path v) = isSimple group /\
  value (addNestedToGroup group path v) = value group.
Proof.
  destruct path as [|k rest]; [congruence|]. intros _.
  cbn [addNestedToGroup].
  destruct (isNumeric k); [split; reflexivity|].
  destruct rest; split; reflexivity.
Qed.

Lemma parseKeyStructure_nested_path (key : string) (p : parsedKey) :
  parseKeyStructure key = Ok p ->
  parsed_isNested p = true -> parsed_path p <> [].
Proof.
  unfold parseKeyStructure.
  destruct (negb (strings.Contains key "[") && negb (strings.Contains key "]")).
  - intro E. injection E as <-. discriminate.
  - destruct (slice_to key (strings.Index key "[")); cbn [bind]; try discriminate.
    destruct (slice_from key (strings.Index key "[")); cbn [bind]; try discriminate.
    destruct (FindAllStringSubmatch a0) as [|first others].
    + intro E. injection E as <-. discriminate.
    + destruct (isNumeric first); intro E; injection E as <-; cbn; discriminate.
Qed.

Lemma convertValueToType_scalar (v : string) :
  isScalar (convertValueToType v) = true.
Proof.
  unfold convertValueToType.
  destruct (strconv.Atoi v); [reflexivity|].
  destruct (strconv.ParseInt v 64); [reflexivity|].
  destruct (strconv.ParseFloat v); [reflexivity|].
  destruct (strconv.ParseBool v); reflexivity.
Qed.

Section ScalarWins.
Variable values : url.Values.
Variable b : string.

Lemma addEntry_holdsScalar (groups groups' : list (string * keyGroup))
  (e : string * list string) :
  In e values ->
  addEntry groups e = Ok groups' ->
  holdsScalar values b groups \/ (exists v, scalarEntry b e v) ->
  holdsScalar values b groups'.
Proof.
  intros He Hadd Hpre. destruct e as [key vs].
  unfold addEntry in Hadd. destruct vs as [|v vs].
  - injection Hadd as <-. destruct Hpre as [H|[v (vs & p & F & _)]];
      [exact H|discriminate].
  - destruct (parseKeyStructure key) as [p| |] eqn:Hp; cbn [bind] in Hadd;
      try discriminate.
    injection Hadd as <-.
    destruct (String.eqb (parsed_baseKey p) b) eqn:Hb.
    + apply String.eqb_eq in Hb. rewrite Hb.
      unfold holdsScalar.
      rewrite (map_get_set_same String.eqb string_eqb_eq).
      eexists. split; [reflexivity|].
      destruct (parsed_isArray p) eqn:Ha; [|destruct (parsed_isNested p) eqn:Hn].
      * destruct Hpre as [(g & Hg & Hs & Hv)|[w (ws & q & _ & Hq & _ & F & _)]].
        2:{ cbn in Hq. rewrite Hp in Hq. injection Hq as <-. congruence. }
        unfold getOr. rewrite Hg. unfold addToArrayGroup.
        destruct (parsed_path p); cbn; auto.
      * destruct Hpre as [(g & Hg & Hs & Hv)|[w (ws & q & _ & Hq & _ & _ & F)]].
        2:{ cbn in Hq. rewrite Hp in Hq. injection Hq as <-. congruence. }
        unfold getOr. rewrite Hg. unfold addToObjectGroup.
        pose proof (parseKeyStructure_nested_path key p Hp Hn) as Hpath.
        destruct (parsed_path p) as [|k rest] eqn:Epath; [congruence|].
        destruct (addNestedToGroup_keeps_scalar (markObject g) (k :: rest) v)
          as [E1 E2]; [discriminate|].
        rewrite E1, E2. cbn. auto.
      * cbn. split; [reflexivity|].
        exists (key, v :: vs), v. split; [exact He|]. split; [|reflexivity].
        exists vs, p. cbn. auto.
    + assert (N : parsed_baseKey p <> b).
      { intro F. rewrite F, String.eqb_refl in Hb. discriminate. }
      destruct Hpre as [(g & Hg & Hs & Hv)|[w (ws & q & _ & Hq & F & _)]].
      2:{ cbn in Hq. rewrite Hp in Hq. injection Hq as <-. contradiction. }
      exists g. split; [|auto].
      rewrite (map_get_set_other String.eqb string_eqb_eq _ _ _ _ N).
      exact Hg.
Qed.

Lemma addEntries_holdsScalar (todo : url.Values) :
  forall groups groups',
    (forall e, In e todo -> In e values) ->
    addEntries groups todo = Ok groups' ->
    holdsScalar values b groups \/ (exists e v, In e todo /\ scalarEntry b e v) ->
    holdsScalar values b groups'.
Proof.
  induction todo as [|e todo IH]; intros groups groups' Hsub Hadd Hpre.
  - injection Hadd as <-. destruct Hpre as [H|(e & v & [] & _)]. exact H.
  - cbn [addEntries] in Hadd.
    destruct (addEntry groups e) as [groups1| |] eqn:H1; cbn [bind] in Hadd;
      try discriminate.
    apply (IH groups1 groups'); [intros; apply Hsub; right; assumption|exact Hadd|].
    destruct Hpre as [H|(e' & v & [<-|I] & Hs)].
    + left. apply (addEntry_holdsScalar groups groups1 e);
        [apply Hsub; left; reflexivity|exact H1|left; exact H].
    + left. apply (addEntry_holdsScalar groups groups1 e);
        [apply Hsub; left; reflexivity|exact H1|right; eauto].
    + right. eauto.
Qed.
End ScalarWins.

Lemma addEntry_NoDup (groups groups' : list (string * keyGroup)) e :
  NoDup (map fst groups) -> addEntry groups e = Ok groups' ->
  NoDup (map fst groups').
Proof.
  intros ND H. destruct e as [key vs]. unfold addEntry in H.
  destruct vs; [injection H as <-; exact ND|].
  destruct (parseKeyStructure key); cbn [bind] in H; try discriminate.
  injection H as <-. apply (map_set_NoDup String.eqb string_eqb_eq). exact ND.
Qed.

Lemma addEntries_NoDup (todo : url.Values) :
  forall groups groups',
    NoDup (map fst groups) -> addEntries groups todo = Ok groups' ->
    NoDup (map fst groups').
Proof.
  induction todo as [|e todo IH]; intros groups groups' ND H.
  - injection H as <-. exact ND.
  - cbn [addEntries] in H.
    destruct (addEntry groups e) as [groups1| |] eqn:H1; cbn [bind] in H;
      try discriminate.
    apply (IH groups1 groups'); [|exact H].
    apply (addEntry_NoDup groups groups1 e ND H1).
Qed.

Lemma buildGroups_other (keyGroups : list (string * keyGroup)) (b : string) :
  forall result m,
    buildGroups keyGroups result = Ok m ->
    ~ In b (map fst keyGroups) ->
    sget m b = sget result b.
Proof.
  induction keyGroups as [|[k g] keyGroups IH]; intros result m H Hnot.
  - injection H as <-. reflexivity.
  - cbn [buildGroups] in H.
    destruct (buildGroup g) as [v| |]; cbn [bind] in H; try discriminate.
    rewrite (IH _ _ H); [|intro I; apply Hnot; right; exact I].
    apply (map_get_set_other String.eqb string_eqb_eq).
    intro E. apply Hnot. left. exact E.
Qed.

Lemma buildGroups_get (keyGroups : list (string * keyGroup)) (b : string)
  (g : keyGroup) :
  forall result m,
    NoDup (map fst keyGroups) ->
    buildGroups keyGroups result = Ok m ->
    sget keyGroups b = Some g ->
    exists v, buildGroup g = Ok v /\ sget m b = Some v.
Proof.
  induction keyGroups as [|[k g0] keyGroups IH]; intros result m ND H Hg.
  - discriminate.
  - cbn [buildGroups] in H. cbn [map_get] in Hg.
    inversion ND as [|? ? Hnot ND']; subst.
    destruct (buildGroup g0) as [v| |] eqn:Hb; cbn [bind] in H; try discriminate.
    destruct (String.eqb k b) eqn:E.
    + apply String.eqb_eq in E. subst k. injection Hg as <-.
      exists v. split; [exact Hb|].
      rewrite (buildGroups_other _ b _ _ H Hnot).
      apply (map_get_set_same String.eqb string_eqb_eq).
    + apply (IH _ _ ND' H Hg).
Qed.

(** C2 as stated fails: with "a=5" and "a[b]=6" the value under "a" is the
    scalar, not the object built from the children. *)
Lemma children_do_not_win :
  exists m, FormToMap "a=5&a[b]=6" = Ok m /\
            sget m "a" = Some (AString "5") /\
            sget m "a" <> Some (AMap [("b", AInt 6)]).
Proof.
  exists [("a", AString "5")]. repeat split; vm_compute; congruence.
Qed.

(** C2, amended.  When one entry assigns a scalar to a base key and other
    entries assign children under it, the value materialized for the key
    is the scalar of a scalar entry and the children are discarded:
    [parseFormFlexibly], [buildArrayFromGroup] and [buildObjectFromGroup]
    all test [isSimple] first, and adding children to a node leaves its
    scalar alone.  The same holds below the top level. *)
Theorem scalar_wins_over_children :
  (forall (values : url.Values) (groups : list (string * keyGroup)) (b : string),
      groupKeysByStructure values = Ok groups ->
      (exists e v, In e values /\ scalarEntry b e v) ->
      exists g,
        sget groups b = Some g /\
        buildGroup g = Ok (value g) /\
        isScalar (value g) = true /\
        (exists e v, In e values /\ scalarEntry b e v /\ scalarFrom v (value g)) /\
        forall m, parseFormFlexibly values = Ok m -> sget m b = Some (value g)) /\
  (forall group path v,
      path <> [] ->
      isSimple (addNestedToGroup group path v) = isSimple group /\
      value (addNestedToGroup group path v) = value group) /\
  (forall child,
      isSimple child = true -> buildChild child = Ok (Some (value child))) /\
  FormToMap "x[a]=5&x[a][b]=6" = Ok [("x", AMap [("a", AInt 5)])].
Proof.
  split; [|split; [exact addNestedToGroup_keeps_scalar|split]].
  - intros values groups b Hgroups Hentry.
    unfold groupKeysByStructure in Hgroups.
    destruct (addEntries_holdsScalar values b values [] groups
                (fun e I => I) Hgroups (or_intror Hentry))
      as (g & Hg & Hs & e & v & He & Hse & Hv).
    exists g. split; [exact Hg|].
    assert (Hb : buildGroup g = Ok (value g))
      by (unfold buildGroup; rewrite Hs; reflexivity).
    split; [exact Hb|]. split; [rewrite Hv; reflexivity|].
    split; [exists e, v; repeat split; auto; left; exact Hv|].
    intros m Hm. unfold parseFormFlexibly, groupKeysByStructure in Hm.
    rewrite Hgroups in Hm. cbn [bind] in Hm.
    destruct (buildGroups_get groups b g [] m
                (addEntries_NoDup values [] groups (NoDup_nil _) Hgroups) Hm Hg)
      as (x & Hx & Hmx).
    congruence.
  - intros child Hs. unfold buildChild. rewrite Hs. reflexivity.
  - vm_compute. reflexivity.
Qed.

Lemma scalar_wins_over_children_witness :
  exists g,
    sget [("a", mkKeyGroup "a" (AString "5") true false true
                  [("b", mkKeyGroup "b" (AInt 6) true false false [] [])] [])]
      "a" = Some g /\
    buildGroup g = Ok (value g) /\
    isScalar (value g) = true /\
    (exists e v, In e [("a", ["5"]); ("a[b]", ["6"])] /\
                 scalarEntry "a" e v /\ scalarFrom v (value g)) /\
    forall m, parseFormFlexibly [("a", ["5"]); ("a[b]", ["6"])] = Ok m ->
              sget m "a" = Some (value g).
Proof.
  apply (proj1 scalar_wins_over_children [("a", ["5"]); ("a[b]", ["6"])]).
  - vm_compute. reflexivity.
  - exists ("a", ["5"]), "5". split; [left; reflexivity|].
    exists [], (mkParsedKey "a" false false 0 []).
    repeat split; vm_compute; reflexivity.
Defined.

(** ** Building arrays *)

Lemma buildArrayFromGroup_unfold (g : keyGroup) :
  buildArrayFromGroup g
  = if negb (nonEmpty (arrayData g)) then Ok []
    else result <- makeSlice (wrap64 (maxIndexOf (arrayData g) + 1)) ;;
         fillSlots (arrayData g) result.
Proof.
  destruct g as [base val simple arr obj kids items].
  cbn [arrayData buildArrayFromGroup].
  destruct (negb (nonEmpty items)); [reflexivity|].
  destruct (makeSlice (wrap64 (maxIndexOf items + 1))) as [result| |];
    cbn [bind]; try reflexivity.
  revert result.
  induction items as [|[index arrayItem] items IH]; intro result.
  - reflexivity.
  - cbn [fillSlots]. unfold buildChild.
    destruct (isSimple arrayItem).
    + cbn [bind]. destruct (setIndex result index (value arrayItem));
        cbn [bind]; try reflexivity. apply IH.
    + destruct (nonEmpty (children arrayItem) || nonEmpty (arrayData arrayItem)).
      * destruct (nonEmpty (arrayData arrayItem)).
        -- destruct (buildArrayFromGroup arrayItem) as [a| |]; cbn [bind];
             try reflexivity.
           destruct (setIndex result index (ASlice a)); cbn [bind];
             try reflexivity. apply IH.
        -- destruct (buildObjectFromGroup arrayItem) as [o| |]; cbn [bind];
             try reflexivity.
           destruct (setIndex result index (AMap o)); cbn [bind];
             try reflexivity. apply IH.
      * cbn [bind]. apply IH.
Qed.

Lemma buildObjectFromGroup_unfold (g : keyGroup) :
  buildObjectFromGroup g
  = result <- fillKeys (fun k : string => k) (children g)
                (if isSimple g then [("value", value g)] else []) ;;
    fillKeys Sprintd (arrayData g) result.
Proof.
  destruct g as [base val simple arr obj kids items].
  cbn [arrayData children isSimple value buildObjectFromGroup].
  generalize (if simple then [("value", val)] else []) as result.
  assert (Items : forall result,
             (fix eachItem (l : list (Z * keyGroup))
                (result : list (string * any)) : outcome (list (string * any)) :=
                match l with
                | [] => Ok result
                | (key, child) :: l' =>
                    let keyStr := Sprintd key in
                    result' <-
                      (if isSimple child
                       then Ok (sset result keyStr (value child))
                       else if nonEmpty (children child)
                               || nonEmpty (arrayData child)
                       then if nonEmpty (arrayData child)
                            then a <- buildArrayFromGroup child ;;
                                 Ok (sset result keyStr (ASlice a))
                            else o <- buildObjectFromGroup child ;;
                                 Ok (sset result keyStr (AMap o))
                       else Ok result) ;;
                    eachItem l' result'
                end) items result
             = fillKeys Sprintd items result).
  { induction items as [|[key child] items IH]; intro result; [reflexivity|].
    cbn [fillKeys]. unfold buildChild. cbv zeta.
    destruct (isSimple child); [cbn [bind]; apply IH|].
    destruct (nonEmpty (children child) || nonEmpty (arrayData child));
      [|cbn [bind]; apply IH].
    destruct (nonEmpty (arrayData child)).
    - destruct (buildArrayFromGroup child); cbn [bind]; try reflexivity. apply IH.
    - destruct (buildObjectFromGroup child); cbn [bind]; try reflexivity. apply IH. }
  induction kids as [|[key child] kids IH]; intro result.
  - cbn [fillKeys bind]. apply Items.
  - cbn [fillKeys]. unfold buildChild.
    destruct (isSimple child); [cbn [bind]; apply IH|].
    destruct (nonEmpty (children child) || nonEmpty (arrayData child));
      [|cbn [bind]; apply IH].
    destruct (nonEmpty (arrayData child)).
    + destruct (buildArrayFromGroup child); cbn [bind]; try reflexivity. apply IH.
    + destruct (buildObjectFromGroup child); cbn [bind]; try reflexivity. apply IH.
Qed.

Lemma update_length {A} (l : list A) (i : nat) (v : A) :
  List.length (update l i v) = List.length l.
Proof.
  revert i. induction l as [|x l IH]; intros [|i]; cbn; auto.
Qed.

Lemma nth_update_same {A} (l : list A) (i : nat) (v d : A) :
  (i < List.length l)%nat -> nth i (update l i v) d = v.
Proof.
  revert i. induction l as [|x l IH]; intros [|i] H; cbn in *; try lia.
  - reflexivity.
  - apply IH. lia.
Qed.

Lemma nth_update_other {A} (l : list A) (i j : nat) (v d : A) :
  i <> j -> nth j (update l i v) d = nth j l d.
Proof.
  revert i j. induction l as [|x l IH]; intros [|i] [|j] H; cbn; try reflexivity.
  - congruence.
  - apply IH. congruence.
Qed.

Lemma wrap64_small (z : Z) : - 2 ^ 63 <= z < 2 ^ 63 -> wrap64 z = z.
Proof.
  intro H. unfold wrap64.
  rewrite Z.mod_small; lia.
Qed.

Lemma maxSliceLen_small : maxSliceLen < 2 ^ 63.
Proof. reflexivity. Qed.

Lemma maxIndexOf_from (items : list (Z * keyGroup)) :
  forall acc,
    let m := fold_left
               (fun maxIndex e => if maxIndex <? fst e then fst e else maxIndex)
               items acc in
    acc <= m /\
    (forall i, In i (map fst items) -> i <= m) /\
    (m = acc \/ In m (map fst items)).
Proof.
  induction items as [|[i c] items IH]; intro acc; cbn zeta.
  - cbn. split; [lia|]. split; [tauto|]. left; reflexivity.
  - cbn [fold_left map fst].
    specialize (IH (if acc <? i then i else acc)). cbn zeta in IH.
    destruct IH as (H1 & H2 & H3).
    split; [destruct (acc <? i) eqn:E; lia|].
    split.
    + intros j [<-|I]; [destruct (acc <? i) eqn:E; lia|auto].
    + destruct H3 as [H3|H3]; [|right; right; exact H3].
      destruct (acc <? i) eqn:E; [right; left; lia|left; lia].
Qed.

Lemma fillKeys_total {K} (name : K -> string) (entries : list (K * keyGroup)) :
  forall result,
    (forall k c, In (k, c) entries -> exists r, buildChild c = Ok r) ->
    exists result', fillKeys name entries result = Ok result'.
Proof.
  induction entries as [|[k c] entries IH]; intros result H.
  - exists result. reflexivity.
  - destruct (H k c (or_introl eq_refl)) as [r Hr].
    cbn [fillKeys]. rewrite Hr. cbn [bind].
    apply IH. intros k' c' I. apply (H k' c'). right. exact I.
Qed.

Lemma nth_repeat_Nil (n j : nat) : nth j (repeat Nil n) Nil = Nil.
Proof.
  revert j. induction n as [|n IH]; intros [|j]; cbn; auto.
Qed.

Lemma buildChild_of_builds (c : keyGroup) :
  (exists a, buildArrayFromGroup c = Ok a) ->
  (exists o, buildObjectFromGroup c = Ok o) ->
  exists r, buildChild c = Ok r.
Proof.
  intros [a Ha] [o Ho]. unfold buildChild. rewrite Ha, Ho. cbn [bind].
  destruct (isSimple c); [eauto|].
  destruct (nonEmpty (children c) || nonEmpty (arrayData c)); [|eauto].
  destruct (nonEmpty (arrayData c)); eauto.
Qed.

(** ** Nodes that put a value in their slot *)

Lemma map_set_nonEmpty {K V} (eqb : K -> K -> bool) (m : list (K * V)) k v :
  nonEmpty (map_set eqb m k v) = true.
Proof.
  destruct m as [|[k0 v0] m]; cbn; [reflexivity|].
  destruct (eqb k0 k); reflexivity.
Qed.

Lemma In_map_set_weak {K V} (eqb : K -> K -> bool) (m : list (K * V))
  k v k' v' :
  In (k', v') (map_set eqb m k v) ->
  (forall a b, eqb a b = true -> a = b) ->
  (k' = k /\ v' = v) \/ In (k', v') m.
Proof.
  intros I Heq. induction m as [|[k0 v0] m IH]; cbn in I.
  - destruct I as [E|[]]. injection E as <- <-. left. auto.
  - destruct (eqb k0 k) eqn:E.
    + apply Heq in E. subst k0. destruct I as [E'|I].
      * injection E' as <- <-. left. auto.
      * right. right. exact I.
    + destruct I as [E'|I].
      * right. left. exact E'.
      * destruct (IH I) as [H|H]; [left; exact H|right; right; exact H].
Qed.

Lemma In_keys_map_set {K V} (eqb : K -> K -> bool) (m : list (K * V)) k v k' :
  (forall a b, eqb a b = true <-> a = b) ->
  In k' (map fst (map_set eqb m k v)) <-> k' = k \/ In k' (map fst m).
Proof.
  intro Heq. rewrite (map_set_keys eqb).
  destruct (map_get eqb m k) as [x|] eqn:G.
  - split; [auto|]. intros [->|I]; [|exact I].
    apply (map_get_In eqb Heq) in G.
    change k with (fst (k, x)). apply in_map. exact G.
  - rewrite in_app_iff. cbn. intuition.
Qed.

Lemma convertValueToType_not_Nil (v : string) : convertValueToType v <> Nil.
Proof.
  pose proof (convertValueToType_scalar v) as H.
  destruct (convertValueToType v); cbn in H; discriminate.
Qed.

Lemma addNestedToGroup_nonEmpty (g : keyGroup) (path : list string) (v : string) :
  path <> [] ->
  nonEmpty (children (addNestedToGroup g path v))
  || nonEmpty (arrayData (addNestedToGroup g path v)) = true.
Proof.
  destruct path as [|k rest]; [congruence|]. intros _.
  cbn [addNestedToGroup].
  destruct (isNumeric k).
  - cbn [setItem children arrayData]. rewrite map_set_nonEmpty.
    apply orb_true_r.
  - destruct rest; cbn [setChild children arrayData];
      rewrite map_set_nonEmpty; reflexivity.
Qed.

Lemma contributes_addNestedToGroup (g : keyGroup) (path : list string)
  (v : string) :
  path <> [] -> scalarOk g -> contributes (addNestedToGroup g path v).
Proof.
  intros Hp Hs.
  destruct (addNestedToGroup_keeps_scalar g path v Hp) as [E1 E2].
  unfold contributes. rewrite E1, E2.
  destruct (isSimple g) eqn:S.
  - left. split; [reflexivity|apply Hs; exact S].
  - right. split; [reflexivity|apply addNestedToGroup_nonEmpty; exact Hp].
Qed.

Lemma contributes_scalarOk (c : keyGroup) : contributes c -> scalarOk c.
Proof.
  intros [[_ H]|[H _]] S; [exact H|congruence].
Qed.

Lemma scalarOk_item (g : keyGroup) (i : Z) (base : string) :
  (forall j c, In (j, c) (arrayData g) -> contributes c) ->
  scalarOk (getOr Z.eqb (arrayData g) i (newKeyGroup base)).
Proof.
  intro H. unfold getOr.
  destruct (zget (arrayData g) i) as [c|] eqn:G.
  - apply contributes_scalarOk.
    apply (map_get_In Z.eqb Z_eqb_eq) in G. apply (H i c G).
  - intro S. discriminate.
Qed.

Lemma addToArrayGroup_item (g : keyGroup) (p : parsedKey) (v : string) :
  let index := parsed_arrayIndex p in
  let item := getOr Z.eqb (arrayData g) index (newKeyGroup (Sprintd index)) in
  addToArrayGroup g p v
  = setItem g index
      (match parsed_path p with
       | [] => setScalar item (AString v)
       | _ :: _ => addNestedToGroup item (parsed_path p) v
       end).
Proof.
  cbv zeta. unfold addToArrayGroup. destruct (parsed_path p); reflexivity.
Qed.

Lemma Index_le_len (s substr : string) : strings.Index s substr <= len s.
Proof.
  unfold len. induction s as [|c s IH]; cbn [strings.Index String.length].
  - destruct (strings.HasPrefix EmptyString substr); lia.
  - destruct (strings.HasPrefix (String c s) substr); [lia|].
    destruct (strings.Index s substr <? 0); lia.
Qed.

Lemma parseKeyStructure_returns (key : string) :
  parsable key = true -> exists p, parseKeyStructure key = Ok p.
Proof.
  unfold parsable, parseKeyStructure. intro H.
  destruct (strings.Contains key "[") eqn:Hopen; cbn [negb andb orb] in *.
  - unfold strings.Contains in Hopen.
    pose proof (Index_le_len key "[").
    unfold slice_to, slice_from.
    replace (strings.Index key "[" <? 0) with false by (symmetry; lia).
    replace (len key <? strings.Index key "[") with false by (symmetry; lia).
    cbn [orb bind].
    destruct (FindAllStringSubmatch _) as [|first others]; [eauto|].
    destruct (isNumeric first); eauto.
  - rewrite H. eauto.
Qed.

Lemma buildChild_contributes (c : keyGroup) (r : option any) :
  contributes c -> buildChild c = Ok r ->
  exists v, r = Some v /\ v <> Nil.
Proof.
  unfold buildChild. intros [[S V]|[S N]]; rewrite S.
  - intro E. injection E as <-. eauto.
  - rewrite N. destruct (nonEmpty (arrayData c)).
    + destruct (buildArrayFromGroup c); cbn [bind]; intro E; try discriminate.
      injection E as <-. eexists. split; [reflexivity|discriminate].
    + destruct (buildObjectFromGroup c); cbn [bind]; intro E; try discriminate.
      injection E as <-. eexists. split; [reflexivity|discriminate].
Qed.

Lemma In_keys_get {K V} (eqb : K -> K -> bool) (m : list (K * V)) (k : K) :
  (forall a b, eqb a b = true <-> a = b) ->
  In k (map fst m) -> exists v, map_get eqb m k = Some v.
Proof.
  intros Heq I. destruct (map_get eqb m k) eqn:G; [eauto|].
  apply (map_get_None_notin eqb Heq) in G. contradiction.
Qed.

(** ** The tree below a node, whatever the indices *)

Lemma addNestedToGroup_cons (g : keyGroup) (k : string) (rest : list string)
  (v : string) :
  addNestedToGroup g (k :: rest) v
  = if isNumeric k
    then setItem g (atoi k)
           (addNestedToGroup
              (markArray (getOr Z.eqb (arrayData g) (atoi k) (newKeyGroup k)))
              rest v)
    else setChild g k
           (addNestedToGroup
              (getOr String.eqb (children g) k (newKeyGroup k)) rest v).
Proof.
  cbn [addNestedToGroup]. destruct (isNumeric k); [reflexivity|].
  destruct rest; reflexivity.
Qed.

Lemma isArray_addNestedToGroup (g : keyGroup) (path : list string) (v : string) :
  isArray (addNestedToGroup g path v) = isArray g.
Proof.
  destruct path as [|k rest]; [reflexivity|]. cbn [addNestedToGroup].
  destruct (isNumeric k); [reflexivity|]. destruct rest; reflexivity.
Qed.

Lemma tidy_new (base : string) : tidy (newKeyGroup base).
Proof. constructor; cbn; [constructor|constructor|intros ? ? []..]. Qed.

Lemma tidy_same (g g' : keyGroup) :
  arrayData g' = arrayData g -> children g' = children g ->
  tidy g -> tidy g'.
Proof.
  intros Ea Ec T. inversion T; subst.
  constructor; rewrite ?Ea, ?Ec; assumption.
Qed.

Lemma tidy_item (g : keyGroup) (i : Z) (base : string) :
  tidy g -> tidy (getOr Z.eqb (arrayData g) i (newKeyGroup base)).
Proof.
  intro T. inversion T as [? NDa NDc Ca Cc Ta Tc]; subst. unfold getOr.
  destruct (zget (arrayData g) i) as [c|] eqn:G; [|apply tidy_new].
  apply (map_get_In Z.eqb Z_eqb_eq) in G. apply (Ta i c G).
Qed.

Lemma tidy_child (g : keyGroup) (k base : string) :
  tidy g -> tidy (getOr String.eqb (children g) k (newKeyGroup base)).
Proof.
  intro T. inversion T as [? NDa NDc Ca Cc Ta Tc]; subst. unfold getOr.
  destruct (sget (children g) k) as [c|] eqn:G; [|apply tidy_new].
  apply (map_get_In String.eqb string_eqb_eq) in G. apply (Tc k c G).
Qed.

Lemma scalarOk_child (g : keyGroup) (k base : string) :
  (forall j c, In (j, c) (children g) -> contributes c) ->
  scalarOk (getOr String.eqb (children g) k (newKeyGroup base)).
Proof.
  intro H. unfold getOr.
  destruct (sget (children g) k) as [c|] eqn:G.
  - apply contributes_scalarOk.
    apply (map_get_In String.eqb string_eqb_eq) in G. apply (H k c G).
  - intro S. discriminate.
Qed.

Lemma contributes_below (c : keyGroup) (rest : list string) (v : string) :
  scalarOk c -> contributes (addNestedToGroup c rest v).
Proof.
  intro S. destruct rest.
  - left. cbn. split; [reflexivity|apply convertValueToType_not_Nil].
  - apply contributes_addNestedToGroup; [discriminate|exact S].
Qed.

Lemma tidy_addNestedToGroup (path : list string) (v : string) :
  forall g, tidy g -> tidy (addNestedToGroup g path v).
Proof.
  induction path as [|k rest IH]; intros g T.
  - cbn. apply (tidy_same g); auto.
  - rewrite addNestedToGroup_cons.
    inversion T as [? NDa NDc Ca Cc Ta Tc]; subst.
    destruct (isNumeric k).
    + constructor; cbn [setItem arrayData children]; try assumption.
      * apply (map_set_NoDup Z.eqb Z_eqb_eq). exact NDa.
      * intros j c I.
        apply In_map_set_weak in I; [|intros a c0; apply Z.eqb_eq].
        destruct I as [[_ ->]|I]; [|apply (Ca j c I)].
        apply contributes_below. apply (scalarOk_item g). exact Ca.
      * intros j c I.
        apply In_map_set_weak in I; [|intros a c0; apply Z.eqb_eq].
        destruct I as [[_ ->]|I]; [|apply (Ta j c I)].
        apply IH.
        apply (tidy_same (getOr Z.eqb (arrayData g) (atoi k) (newKeyGroup k)));
          [reflexivity|reflexivity|apply tidy_item; exact T].
    + constructor; cbn [setChild arrayData children]; try assumption.
      * apply (map_set_NoDup String.eqb string_eqb_eq). exact NDc.
      * intros j c I.
        apply In_map_set_weak in I; [|intros a c0; apply String.eqb_eq].
        destruct I as [[_ ->]|I]; [|apply (Cc j c I)].
        apply contributes_below. apply (scalarOk_child g). exact Cc.
      * intros j c I.
        apply In_map_set_weak in I; [|intros a c0; apply String.eqb_eq].
        destruct I as [[_ ->]|I]; [|apply (Tc j c I)].
        apply IH. apply tidy_child. exact T.
Qed.

Lemma map_set_not_nil {K V} (eqb : K -> K -> bool) (m : list (K * V)) k v :
  map_set eqb m k v <> [].
Proof.
  intro E. pose proof (map_set_nonEmpty eqb m k v) as H.
  rewrite E in H. discriminate.
Qed.

Section FedNode.
Variable F : list string -> string -> Prop.

Lemma fedBy_new (base : string) : fedBy F (newKeyGroup base).
Proof.
  split; [intros k []|]. split; [intro N; exfalso; apply N; reflexivity|].
  intros k c G. discriminate.
Qed.

Lemma fedBy_same (g g' : keyGroup) :
  arrayData g' = arrayData g -> children g' = children g ->
  fedBy F g -> fedBy F g'.
Proof.
  intros Ea Ec H. unfold fedBy. rewrite Ea, Ec. exact H.
Qed.

Lemma fedBy_addNestedToGroup (node : keyGroup) (path : list string)
  (v : string) :
  fedBy F node -> F path v -> path <> [] ->
  fedBy F (addNestedToGroup node path v).
Proof.
  intros (H1 & H2 & H3) HF Hp.
  destruct path as [|k rest]; [congruence|]. clear Hp.
  rewrite addNestedToGroup_cons.
  destruct (isNumeric k) eqn:Hk.
  - split; [exact H1|]. split; [|exact H3].
    intros _. exists k, rest, v. auto.
  - split; [|split; [exact H2|]]; cbn [setChild children].
    + intros k0 I.
      apply (In_keys_map_set String.eqb _ _ _ _ string_eqb_eq) in I.
      destruct I as [->|I]; [|apply (H1 k0 I)].
      split; [exact Hk|eauto].
    + intros k0 c G S.
      destruct (String.eqb k k0) eqn:E.
      * apply String.eqb_eq in E. subst k0.
        rewrite (map_get_set_same String.eqb string_eqb_eq) in G.
        injection G as <-.
        destruct rest as [|k1 rest1].
        -- exists v. split; [exact HF|reflexivity].
        -- destruct (addNestedToGroup_keeps_scalar
                       (getOr String.eqb (children node) k (newKeyGroup k))
                       (k1 :: rest1) v) as [E1 E2]; [discriminate|].
           rewrite E1 in S. rewrite E2. unfold getOr in *.
           destruct (sget (children node) k) as [c0|] eqn:G0;
             [apply (H3 k c0 G0 S)|discriminate S].
      * assert (N : k <> k0).
        { intro X. rewrite X, String.eqb_refl in E. discriminate. }
        rewrite (map_get_set_other String.eqb string_eqb_eq _ _ _ _ N) in G.
        apply (H3 k0 c G S).
Qed.
End FedNode.

Lemma covers_same (g g' : keyGroup) (path : list string) :
  isSimple g' = isSimple g -> arrayData g' = arrayData g ->
  children g' = children g -> covers g path -> covers g' path.
Proof.
  intros Es Ea Ec. unfold covers, leafAt. rewrite Es, Ea, Ec. auto.
Qed.

Lemma covers_setScalar (g : keyGroup) (x : any) (path : list string) :
  covers g path \/ path = [] -> covers (setScalar g x) path.
Proof.
  intros [H| ->]; [|reflexivity].
  destruct path as [|k rest]; [reflexivity|exact H].
Qed.

Lemma covers_self (node : keyGroup) (path : list string) (v : string) :
  covers (addNestedToGroup node path v) path.
Proof.
  destruct path as [|k rest]; [reflexivity|].
  unfold covers. rewrite addNestedToGroup_cons.
  destruct (isNumeric k).
  - apply map_set_not_nil.
  - cbn [setChild children]. split.
    + apply (In_keys_map_set String.eqb _ _ _ _ string_eqb_eq). left. reflexivity.
    + intros ->. unfold leafAt. cbn [setChild children].
      rewrite (map_get_set_same String.eqb string_eqb_eq).
      eexists. split; reflexivity.
Qed.

Lemma covers_addNestedToGroup (node : keyGroup) (path path0 : list string)
  (v : string) :
  path <> [] -> covers node path0 ->
  covers (addNestedToGroup node path v) path0.
Proof.
  intros Hp H.
  destruct path0 as [|k0 rest0].
  - unfold covers in *.
    rewrite (proj1 (addNestedToGroup_keeps_scalar node path v Hp)). exact H.
  - destruct path as [|k rest]; [congruence|].
    unfold covers in *. rewrite addNestedToGroup_cons.
    destruct (isNumeric k0).
    + destruct (isNumeric k); [apply map_set_not_nil|exact H].
    + destruct (isNumeric k); [exact H|].
      destruct H as [I L]. cbn [setChild children]. split.
      * apply (In_keys_map_set String.eqb _ _ _ _ string_eqb_eq). right. exact I.
      * intro E. destruct (L E) as (c & G & S). unfold leafAt.
        cbn [setChild children].
        destruct (String.eqb k k0) eqn:Ek.
        -- apply String.eqb_eq in Ek. subst k0.
           rewrite (map_get_set_same String.eqb string_eqb_eq).
           eexists. split; [reflexivity|].
           unfold getOr. rewrite G.
           destruct rest as [|k1 rest1]; [reflexivity|].
           rewrite (proj1 (addNestedToGroup_keeps_scalar c (k1 :: rest1) v
                             ltac:(discriminate))).
           exact S.
        -- assert (N : k <> k0).
           { intro X. rewrite X, String.eqb_refl in Ek. discriminate. }
           rewrite (map_get_set_other String.eqb string_eqb_eq _ _ _ _ N).
           exists c. auto.
Qed.

(** ** What a successful build says about the tree *)

Lemma setIndex_Ok (result result' : list any) (index : Z) (v : any) :
  setIndex result index v = Ok result' ->
  0 <= index < Z.of_nat (List.length result) /\
  result' = update result (Z.to_nat index) v.
Proof.
  unfold setIndex.
  destruct (index <? 0) eqn:E1; [discriminate|].
  destruct (Z.of_nat (List.length result) <=? index) eqn:E2; [discriminate|].
  cbn [orb]. intro E. injection E as <-. split; [lia|reflexivity].
Qed.

Lemma fillSlots_Ok (items : list (Z * keyGroup)) :
  forall result result',
    NoDup (map fst items) ->
    (forall i c, In (i, c) items -> contributes c) ->
    fillSlots items result = Ok result' ->
    List.length result' = List.length result /\
    (forall i c,
        In (i, c) items ->
        0 <= i < Z.of_nat (List.length result) /\
        exists x, buildChild c = Ok (Some x) /\ x <> Nil /\
                  nth (Z.to_nat i) result' Nil = x) /\
    (forall j, ~ In (Z.of_nat j) (map fst items) ->
               nth j result' Nil = nth j result Nil).
Proof.
  induction items as [|[i c] items IH]; intros result result' ND Hc H.
  - injection H as <-. split; [reflexivity|]. split; [intros ? ? []|auto].
  - inversion ND as [|? ? Hnot ND']; subst.
    cbn [fillSlots] in H.
    destruct (buildChild c) as [r| |] eqn:Hr; cbn [bind] in H; try discriminate.
    destruct (buildChild_contributes c r (Hc i c (or_introl eq_refl)) Hr)
      as (x & -> & Hx).
    destruct (setIndex result i x) as [result1| |] eqn:Hset; cbn [bind] in H;
      try discriminate.
    destruct (setIndex_Ok _ _ _ _ Hset) as [Hi ->].
    destruct (IH _ _ ND' (fun j d I => Hc j d (or_intror I)) H)
      as (Hlen & Hin & Hout).
    rewrite update_length in Hlen, Hin.
    split; [exact Hlen|]. split.
    + intros j d [E|I].
      * injection E as <- <-. split; [exact Hi|].
        exists x. split; [exact Hr|]. split; [exact Hx|].
        rewrite Hout by (rewrite Z2Nat.id by lia; exact Hnot).
        apply nth_update_same. lia.
      * apply (Hin j d I).
    + intros j Hj. rewrite Hout by (intro I; apply Hj; right; exact I).
      apply nth_update_other. intro E. apply Hj. left. cbn. lia.
Qed.

Lemma makeSlice_Ok (n : Z) (l : list any) :
  makeSlice n = Ok l -> 0 <= n <= maxSliceLen /\ l = repeat Nil (Z.to_nat n).
Proof.
  unfold makeSlice.
  destruct (n <? 0) eqn:E1; [discriminate|].
  destruct (maxSliceLen <? n) eqn:E2; [discriminate|].
  cbn [orb]. intro E. injection E as <-. split; [lia|reflexivity].
Qed.

(** An array that was built is dense: its length is the largest index
    plus one, every node sits in the slot of its index and the other
    slots hold nil. *)
Lemma buildArrayFromGroup_Ok (g : keyGroup) (l : list any) :
  NoDup (map fst (arrayData g)) ->
  (forall i c, In (i, c) (arrayData g) -> contributes c) ->
  arrayData g <> [] ->
  buildArrayFromGroup g = Ok l ->
  Z.of_nat (List.length l) <= maxSliceLen /\
  In (Z.of_nat (List.length l) - 1) (map fst (arrayData g)) /\
  (forall i c,
      In (i, c) (arrayData g) ->
      0 <= i < Z.of_nat (List.length l) /\
      exists x, buildChild c = Ok (Some x) /\ x <> Nil /\
                nth (Z.to_nat i) l Nil = x) /\
  (forall j, ~ In (Z.of_nat j) (map fst (arrayData g)) -> nth j l Nil = Nil).
Proof.
  intros ND Hc Hne H. rewrite buildArrayFromGroup_unfold in H.
  destruct (arrayData g) as [|[i0 c0] items] eqn:Eitems; [congruence|].
  cbn [nonEmpty negb] in H. rewrite <- Eitems in *.
  destruct (makeSlice (wrap64 (maxIndexOf (arrayData g) + 1)))
    as [result| |] eqn:Hmake; cbn [bind] in H; try discriminate.
  destruct (makeSlice_Ok _ _ Hmake) as [Hn ->].
  destruct (fillSlots_Ok _ _ _ ND Hc H) as (Hlen & Hin & Hout).
  rewrite repeat_length in Hlen, Hin.
  destruct (maxIndexOf_from (arrayData g) 0) as (M1 & M2 & M3).
  fold (maxIndexOf (arrayData g)) in M1, M2, M3.
  assert (I0 : In (i0, c0) (arrayData g)) by (rewrite Eitems; left; reflexivity).
  assert (Hmax : In (maxIndexOf (arrayData g)) (map fst (arrayData g))).
  { destruct M3 as [M3|M3]; [|exact M3].
    destruct (Hin i0 c0 I0) as [R0 _].
    assert (i0 <= maxIndexOf (arrayData g)).
    { apply M2. change i0 with (fst (i0, c0)). apply in_map. exact I0. }
    replace (maxIndexOf (arrayData g)) with i0 by lia.
    change i0 with (fst (i0, c0)). apply in_map. exact I0. }
  assert (Hwrap : wrap64 (maxIndexOf (arrayData g) + 1)
                  = maxIndexOf (arrayData g) + 1).
  { apply in_map_iff in Hmax. destruct Hmax as ([j d] & E & I). cbn in E.
    destruct (Hin j d I) as [R _]. rewrite Z2Nat.id in R by lia.
    pose proof maxSliceLen_small.
    apply wrap64_small. lia. }
  rewrite Hwrap in *.
  assert (Elen : Z.of_nat (List.length l) = maxIndexOf (arrayData g) + 1).
  { rewrite Hlen. apply Z2Nat.id. lia. }
  split; [lia|]. split; [|split].
  - replace (Z.of_nat (List.length l) - 1) with (maxIndexOf (arrayData g)) by lia.
    exact Hmax.
  - intros i c I. destruct (Hin i c I) as [R X].
    rewrite Z2Nat.id in R by lia. split; [lia|exact X].
  - intros j Hj. rewrite (Hout j Hj). apply nth_repeat_Nil.
Qed.

Lemma fillKeys_Ok (entries : list (string * keyGroup)) :
  forall result o,
    NoDup (map fst entries) ->
    (forall k c, In (k, c) entries -> contributes c) ->
    fillKeys (fun k : string => k) entries result = Ok o ->
    (forall k, In k (map fst o)
               <-> In k (map fst result) \/ In k (map fst entries)) /\
    (forall k c,
        In (k, c) entries ->
        exists x, buildChild c = Ok (Some x) /\ x <> Nil /\ sget o k = Some x) /\
    (forall k, ~ In k (map fst entries) -> sget o k = sget result k).
Proof.
  induction entries as [|[k c] entries IH]; intros result o ND Hc H.
  - injection H as <-. cbn. split; [tauto|]. split; [intros ? ? []|auto].
  - inversion ND as [|? ? Hnot ND']; subst.
    cbn [fillKeys] in H.
    destruct (buildChild c) as [r| |] eqn:Hr; cbn [bind] in H; try discriminate.
    destruct (buildChild_contributes c r (Hc k c (or_introl eq_refl)) Hr)
      as (x & -> & Hx).
    destruct (IH _ _ ND' (fun j d I => Hc j d (or_intror I)) H)
      as (Hkeys & Hin & Hout).
    split; [|split].
    + intro k'. rewrite Hkeys.
      rewrite (In_keys_map_set String.eqb _ _ _ _ string_eqb_eq).
      cbn [map fst In]. intuition.
    + intros k' c' [E|I].
      * injection E as <- <-. exists x. split; [exact Hr|]. split; [exact Hx|].
        rewrite (Hout k Hnot).
        apply (map_get_set_same String.eqb string_eqb_eq).
      * apply (Hin k' c' I).
    + intros k' Hk'. rewrite Hout by (intro I; apply Hk'; right; exact I).
      apply (map_get_set_other String.eqb string_eqb_eq).
      intro E. apply Hk'. left. exact E.
Qed.

(** An object that was built from named children alone has their names
    as keys, each with the value built from the child. *)
Lemma buildObjectFromGroup_Ok (g : keyGroup) (o : list (string * any)) :
  tidy g -> isSimple g = false -> arrayData g = [] ->
  buildObjectFromGroup g = Ok o ->
  (forall k, In k (map fst o) <-> In k (map fst (children g))) /\
  (forall k c,
      sget (children g) k = Some c ->
      exists x, buildChild c = Ok (Some x) /\ x <> Nil /\ sget o k = Some x).
Proof.
  intros T Hs Ha H. inversion T as [? NDa NDc Ca Cc Ta Tc]; subst.
  rewrite buildObjectFromGroup_unfold, Hs, Ha in H.
  destruct (fillKeys (fun k : string => k) (children g) []) as [o'| |] eqn:Ho;
    cbn [bind fillKeys] in H; try discriminate.
  injection H as <-.
  destruct (fillKeys_Ok _ _ _ NDc Cc Ho) as (Hkeys & Hin & _).
  split.
  - intro k. rewrite Hkeys. cbn. tauto.
  - intros k c G. apply (Hin k c).
    apply (map_get_In String.eqb string_eqb_eq). exact G.
Qed.

(** ** The tree that indexed entries build *)

Lemma supplies_assignsAt (values : url.Values) (b : string) (i : Z) :
  supplies values b i <-> exists path v, assignsAt values b i path v.
Proof.
  split.
  - intros (e & I & v & vs & p & Hv & Hp & Hb & Ha & Hi).
    exists (parsed_path p), v, e. split; [exact I|].
    exists vs, p. auto 7.
  - intros (path & v & e & I & vs & p & Hv & Hp & Hb & Ha & Hi & _).
    exists e. split; [exact I|]. exists v, vs, p. auto.
Qed.

Section IndexedEntries.
Variable values : url.Values.
Variable b : string.

Lemma addEntry_indexed (groups groups' : list (string * keyGroup))
  (e : string * list string) :
  In e values ->
  indexedOnly [e] b ->
  addEntry groups e = Ok groups' ->
  isSimple (groupOf groups b) = false ->
  tidy (groupOf groups b) ->
  itemsFrom values b (groupOf groups b) ->
  (isSimple (groupOf groups' b) = false /\
   tidy (groupOf groups' b) /\
   itemsFrom values b (groupOf groups' b)) /\
  (forall i path,
      itemCovers (groupOf groups b) i path \/ (exists v, entryAt b e i path v) ->
      itemCovers (groupOf groups' b) i path) /\
  (isArrayGroup b groups \/ (exists i path v, entryAt b e i path v) ->
   isArrayGroup b groups').
Proof.
  destruct e as [key vs]. intros He Honly Hadd Hs T Hfrom.
  unfold addEntry in Hadd. destruct vs as [|v vs].
  - injection Hadd as <-. split; [auto|]. split.
    + intros i path [H|[w (ws & p & F & _)]]; [exact H|discriminate].
    + intros [H|(i & path & w & ws & p & F & _)]; [exact H|discriminate].
  - destruct (parseKeyStructure key) as [p| |] eqn:Hp; cbn [bind] in Hadd;
      try discriminate.
    injection Hadd as <-.
    assert (Hat : forall i path w,
               entryAt b (key, v :: vs) i path w ->
               parsed_baseKey p = b /\ i = parsed_arrayIndex p /\
               path = parsed_path p /\ w = v).
    { intros i path w (ws & q & Hv & Hq & Hb & Ha & Hi & Hpath).
      cbn [fst snd] in Hv, Hq. rewrite Hp in Hq. injection Hq as <-.
      injection Hv as <- _. auto. }
    destruct (String.eqb (parsed_baseKey p) b) eqn:Hb.
    + apply String.eqb_eq in Hb.
      pose proof (Honly key v vs p (or_introl eq_refl) Hp Hb) as Ha.
      rewrite Ha, Hb. fold (groupOf groups b).
      set (g := groupOf groups b) in *.
      rewrite addToArrayGroup_item. cbv zeta. cbn [markArray arrayData].
      set (index := parsed_arrayIndex p).
      set (item := getOr Z.eqb (arrayData g) index
                     (newKeyGroup (Sprintd index))).
      set (item' := match parsed_path p with
                    | [] => setScalar item (AString v)
                    | _ :: _ => addNestedToGroup item (parsed_path p) v
                    end).
      set (g' := setItem (markArray g) index item').
      assert (E : groupOf (sset groups b g') b = g').
      { unfold groupOf, getOr.
        rewrite (map_get_set_same String.eqb string_eqb_eq). reflexivity. }
      rewrite E.
      assert (Hentry : assignsAt values b index (parsed_path p) v).
      { exists (key, v :: vs). split; [exact He|]. exists vs, p. cbn. auto 7. }
      inversion T as [g0 NDa NDc Ca Cc Ta Tc]; subst g0.
      assert (Sitem : scalarOk item) by (apply (scalarOk_item g); exact Ca).
      assert (Titem : tidy item) by (apply tidy_item; exact T).
      assert (Citem' : contributes item').
      { subst item'. destruct (parsed_path p).
        - left. cbn. split; [reflexivity|discriminate].
        - apply contributes_addNestedToGroup; [discriminate|exact Sitem]. }
      assert (Titem' : tidy item').
      { subst item'. destruct (parsed_path p).
        - apply (tidy_same item); auto.
        - apply tidy_addNestedToGroup. exact Titem. }
      assert (Fitem : fedBy (assignsAt values b index) item /\
                      (isSimple item = true ->
                       exists w, assignsAt values b index [] w /\
                                 value item = AString w)).
      { subst item. unfold getOr.
        destruct (zget (arrayData g) index) as [c|] eqn:G.
        - apply (map_get_In Z.eqb Z_eqb_eq) in G.
          destruct (Hfrom index c G) as (_ & H1 & H2). auto.
        - split; [apply fedBy_new|discriminate]. }
      destruct Fitem as [Fitem Ditem].
      split; [split; [exact Hs|split]|split].
      * constructor; cbn [g' setItem markArray arrayData children];
          try assumption.
        -- apply (map_set_NoDup Z.eqb Z_eqb_eq). exact NDa.
        -- intros j c I.
           apply In_map_set_weak in I; [|intros a c0; apply Z.eqb_eq].
           destruct I as [[_ ->]|I]; [exact Citem'|apply (Ca j c I)].
        -- intros j c I.
           apply In_map_set_weak in I; [|intros a c0; apply Z.eqb_eq].
           destruct I as [[_ ->]|I]; [exact Titem'|apply (Ta j c I)].
      * intros j c I. cbn [g' setItem markArray arrayData] in I.
        apply In_map_set_weak in I; [|intros a c0; apply Z.eqb_eq].
        destruct I as [[-> ->]|I]; [|apply (Hfrom j c I)].
        split; [eauto|]. subst item'.
        destruct (parsed_path p) as [|k rest] eqn:Ep.
        -- split; [apply (fedBy_same _ item); auto|].
           intros _. exists v. split; [exact Hentry|reflexivity].
        -- split; [apply fedBy_addNestedToGroup;
                   [exact Fitem|exact Hentry|discriminate]|].
           destruct (addNestedToGroup_keeps_scalar item (k :: rest) v)
             as [E1 E2]; [discriminate|].
           rewrite E1, E2. exact Ditem.
      * intros i path [(c & G & Hc)|[w Hw]].
        -- unfold itemCovers. cbn [g' setItem markArray arrayData].
           destruct (Z.eqb index i) eqn:Ei.
           ++ apply Z.eqb_eq in Ei. subst i.
              rewrite (map_get_set_same Z.eqb Z_eqb_eq).
              eexists. split; [reflexivity|].
              assert (Ec : item = c)
                by (subst item; unfold getOr; rewrite G; reflexivity).
              subst item'. rewrite Ec.
              destruct (parsed_path p).
              ** apply covers_setScalar. left. exact Hc.
              ** apply covers_addNestedToGroup; [discriminate|exact Hc].
           ++ assert (N : index <> i).
              { intro X. rewrite X, Z.eqb_refl in Ei. discriminate. }
              rewrite (map_get_set_other Z.eqb Z_eqb_eq _ _ _ _ N).
              exists c. auto.
        -- destruct (Hat i path w Hw) as (_ & -> & -> & _).
           unfold itemCovers. cbn [g' setItem markArray arrayData].
           fold index. rewrite (map_get_set_same Z.eqb Z_eqb_eq).
           eexists. split; [reflexivity|]. subst item'.
           destruct (parsed_path p).
           ** apply covers_setScalar. right. reflexivity.
           ** apply covers_self.
      * intros _. exists g'.
        rewrite (map_get_set_same String.eqb string_eqb_eq).
        split; reflexivity.
    + assert (N : parsed_baseKey p <> b).
      { intro F. rewrite F, String.eqb_refl in Hb. discriminate. }
      unfold groupOf, getOr, isArrayGroup.
      rewrite (map_get_set_other String.eqb string_eqb_eq _ _ _ _ N).
      split; [auto|]. split.
      * intros i path [H|[w Hw]]; [exact H|].
        destruct (Hat i path w Hw) as (F & _). contradiction.
      * intros [H|(i & path & w & Hw)]; [exact H|].
        destruct (Hat i path w Hw) as (F & _). contradiction.
Qed.

Lemma addEntries_indexed (todo : url.Values) :
  forall groups groups',
    (forall e, In e todo -> In e values) ->
    indexedOnly todo b ->
    addEntries groups todo = Ok groups' ->
    isSimple (groupOf groups b) = false ->
    tidy (groupOf groups b) ->
    itemsFrom values b (groupOf groups b) ->
    (isSimple (groupOf groups' b) = false /\
     tidy (groupOf groups' b) /\
     itemsFrom values b (groupOf groups' b)) /\
    (forall i path,
        itemCovers (groupOf groups b) i path
        \/ (exists e v, In e todo /\ entryAt b e i path v) ->
        itemCovers (groupOf groups' b) i path) /\
    (isArrayGroup b groups
     \/ (exists e i path v, In e todo /\ entryAt b e i path v) ->
     isArrayGroup b groups').
Proof.
  induction todo as [|e todo IH];
    intros groups groups' Hsub Honly Hadd Hs T Hfrom.
  - injection Hadd as <-. split; [auto|]. split.
    + intros i path [H|(e & v & [] & _)]. exact H.
    + intros [H|(e & i & path & v & [] & _)]. exact H.
  - cbn [addEntries] in Hadd.
    destruct (addEntry groups e) as [groups1| |] eqn:H1; cbn [bind] in Hadd;
      try discriminate.
    destruct (addEntry_indexed groups groups1 e) as ((Hs1 & T1 & F1) & C1 & A1);
      try assumption.
    { apply Hsub. left. reflexivity. }
    { intros key v vs p [E|[]] Hp Hb.
      apply (Honly key v vs p); [left; exact E|exact Hp|exact Hb]. }
    destruct (IH groups1 groups') as (Inv & C & A); try assumption.
    { intros e' I. apply Hsub. right. exact I. }
    { intros key v vs p I. apply (Honly key v vs p). right. exact I. }
    split; [exact Inv|]. split.
    + intros i path H. apply C. destruct H as [H|(e' & v & [<-|I] & H)].
      * left. apply C1. left. exact H.
      * left. apply C1. right. exists v. exact H.
      * right. exists e', v. split; [exact I|exact H].
    + intro H. apply A. destruct H as [H|(e' & i & path & v & [<-|I] & H)].
      * left. apply A1. left. exact H.
      * left. apply A1. right. exists i, path, v. exact H.
      * right. exists e', i, path, v. split; [exact I|exact H].
Qed.
End IndexedEntries.

Lemma buildChild_simple (c : keyGroup) :
  isSimple c = true -> buildChild c = Ok (Some (value c)).
Proof. intro S. unfold buildChild. rewrite S. reflexivity. Qed.


Lemma dense_array_of_indexed_children (values : url.Values) (b : string)
  (m : list (string * any)) :
  parseFormFlexibly values = Ok m ->
  indexedOnly values b ->
  (exists i, supplies values b i) ->
  exists l,
    sget m b = Some (ASlice l) /\
    Z.of_nat (List.length l) <= maxSliceLen /\
    supplies values b (Z.of_nat (List.length l) - 1) /\
    (forall i,
        supplies values b i ->
        0 <= i < Z.of_nat (List.length l) /\ nth (Z.to_nat i) l Nil <> Nil) /\
    (forall i,
        0 <= i < Z.of_nat (List.length l) ->
        ~ supplies values b i ->
        nth (Z.to_nat i) l Nil = Nil) /\
    (forall i,
        (exists v, assignsAt values b i [] v) ->
        exists v, assignsAt values b i [] v /\
                  nth (Z.to_nat i) l Nil = AString v) /\
    (forall i,
        ~ (exists v, assignsAt values b i [] v) ->
        (exists k rest v,
            assignsAt values b i (k :: rest) v /\ isNumeric k = true) ->
        exists a, nth (Z.to_nat i) l Nil = ASlice a) /\
    (forall i,
        supplies values b i ->
        ~ (exists v, assignsAt values b i [] v) ->
        ~ (exists k rest v,
              assignsAt values b i (k :: rest) v /\ isNumeric k = true) ->
        exists o,
          nth (Z.to_nat i) l Nil = AMap o /\
          (forall k, In k (map fst o)
                     <-> exists rest v, assignsAt values b i (k :: rest) v) /\
          (forall k,
              (exists v, assignsAt values b i [k] v) ->
              exists v, assignsAt values b i [k] v /\
                        sget o k = Some (convertValueToType v))).
Proof.
  intros Hm Honly Hsome.
  unfold parseFormFlexibly, groupKeysByStructure in Hm.
  destruct (addEntries [] values) as [groups| |] eqn:Hgroups; cbn [bind] in Hm;
    try discriminate.
  destruct (addEntries_indexed values b values [] groups (fun e I => I)
              Honly Hgroups)
    as ((Hs & T & Hfrom) & Hcov & Harr).
  { reflexivity. }
  { apply tidy_new. }
  { intros i c []. }
  assert (Hcovers : forall i path v,
             assignsAt values b i path v -> itemCovers (groupOf groups b) i path).
  { intros i path v (e & I & H). apply Hcov. right. eauto. }
  destruct Hsome as [i0 Hi0].
  destruct Harr as (g & Hg & Hisarr).
  { right. apply supplies_assignsAt in Hi0.
    destruct Hi0 as (path & v & e & I & H). eauto 6. }
  assert (Eg : groupOf groups b = g)
    by (unfold groupOf, getOr; rewrite Hg; reflexivity).
  rewrite Eg in *. clear Eg.
  destruct (buildGroups_get groups b g [] m
              (addEntries_NoDup values [] groups (NoDup_nil _) Hgroups) Hm Hg)
    as (x & Hx & Hmx).
  unfold buildGroup in Hx. rewrite Hs, Hisarr in Hx.
  destruct (buildArrayFromGroup g) as [l| |] eqn:Hl; cbn [bind] in Hx;
    try discriminate.
  injection Hx as <-.
  inversion T as [g0 NDa NDc Ca Cc Ta Tc]; subst g0.
  assert (Hitem : forall i, supplies values b i ->
                            exists c, zget (arrayData g) i = Some c).
  { intros i Hi. apply supplies_assignsAt in Hi.
    destruct Hi as (path & v & H).
    destruct (Hcovers i path v H) as (c & G & _). eauto. }
  assert (Hkeys : forall i, In i (map fst (arrayData g)) <-> supplies values b i).
  { intro i. split.
    - intro I. apply in_map_iff in I. destruct I as ([j c] & <- & I).
      apply supplies_assignsAt. apply (Hfrom j c I).
    - intro Hi. destruct (Hitem i Hi) as [c G].
      apply (map_get_In Z.eqb Z_eqb_eq) in G.
      change i with (fst (i, c)). apply in_map. exact G. }
  assert (Hne : arrayData g <> []).
  { apply Hkeys in Hi0. destruct (arrayData g); [destruct Hi0|discriminate]. }
  destruct (buildArrayFromGroup_Ok g l NDa Ca Hne Hl)
    as (Hmost & Hlast & Hslots & Hgaps).
  assert (Hslot : forall i c,
             zget (arrayData g) i = Some c ->
             0 <= i < Z.of_nat (List.length l) /\
             exists x, buildChild c = Ok (Some x) /\ x <> Nil /\
                       nth (Z.to_nat i) l Nil = x).
  { intros i c G. apply Hslots. apply (map_get_In Z.eqb Z_eqb_eq). exact G. }
  exists l. split; [exact Hmx|]. split; [exact Hmost|].
  split; [apply Hkeys; exact Hlast|].
  split; [|split; [|split; [|split]]].
  - intros i Hi. destruct (Hitem i Hi) as [c G].
    destruct (Hslot i c G) as (R & x & _ & Hx & E).
    split; [exact R|congruence].
  - intros i Hi Hnot. apply Hgaps. rewrite Z2Nat.id by lia.
    intro I. apply Hnot, Hkeys, I.
  - intros i [v Hv].
    destruct (Hcovers i [] v Hv) as (c & G & S). cbn in S.
    destruct (Hslot i c G) as (_ & x & Hb & _ & E).
    rewrite (buildChild_simple c S) in Hb. injection Hb as <-.
    destruct (Hfrom i c (map_get_In Z.eqb Z_eqb_eq _ _ _ G)) as (_ & _ & D).
    destruct (D S) as (w & Hw & Ew). exists w. split; [exact Hw|congruence].
  - intros i Hdirect (k & rest & v & Hv & Hk).
    destruct (Hcovers i (k :: rest) v Hv) as (c & G & C).
    cbn [covers] in C. rewrite Hk in C.
    destruct (Hslot i c G) as (_ & x & Hb & _ & E).
    destruct (Hfrom i c (map_get_In Z.eqb Z_eqb_eq _ _ _ G)) as (_ & _ & D).
    assert (S : isSimple c = false).
    { destruct (isSimple c); [|reflexivity].
      exfalso. apply Hdirect. destruct (D eq_refl) as (w & Hw & _). eauto. }
    unfold buildChild in Hb. rewrite S in Hb.
    destruct (arrayData c) as [|item items] eqn:Ea; [congruence|].
    rewrite orb_true_r in Hb. cbn [nonEmpty] in Hb.
    destruct (buildArrayFromGroup c) as [a| |]; cbn [bind] in Hb;
      try discriminate.
    injection Hb as <-. exists a. exact E.
  - intros i Hi Hdirect Hnum.
    destruct (Hitem i Hi) as [c G].
    destruct (Hslot i c G) as (_ & x & Hb & _ & E).
    pose proof (map_get_In Z.eqb Z_eqb_eq _ _ _ G) as I.
    destruct (Hfrom i c I) as (_ & (F1 & F2 & F3) & D).
    assert (S : isSimple c = false).
    { destruct (isSimple c); [|reflexivity].
      exfalso. apply Hdirect. destruct (D eq_refl) as (w & Hw & _). eauto. }
    assert (Ea : arrayData c = []).
    { destruct (arrayData c) as [|item items] eqn:Ea; [reflexivity|].
      exfalso. apply Hnum. apply F2. discriminate. }
    assert (Hcov_c : forall path v, assignsAt values b i path v -> covers c path).
    { intros path v H. destruct (Hcovers i path v H) as (c' & G' & C).
      congruence. }
    unfold buildChild in Hb. rewrite S, Ea in Hb. cbn [nonEmpty] in Hb.
    rewrite orb_false_r in Hb.
    destruct (nonEmpty (children c)); [|discriminate].
    destruct (buildObjectFromGroup c) as [o| |] eqn:Ho; cbn [bind] in Hb;
      try discriminate.
    injection Hb as <-.
    destruct (buildObjectFromGroup_Ok c o (Ta i c I) S Ea Ho) as [Hokeys Hoget].
    exists o. split; [exact E|]. split.
    + intro k. rewrite Hokeys. split.
      * intro Ik. apply (F1 k Ik).
      * intros (rest & v & H). pose proof (Hcov_c _ _ H) as C.
        cbn [covers] in C. destruct (isNumeric k) eqn:Hk; [|apply C].
        exfalso. apply Hnum. eauto.
    + intros k [v H]. pose proof (Hcov_c _ _ H) as C.
      cbn [covers] in C. destruct (isNumeric k) eqn:Hk.
      * exfalso. apply Hnum. eauto.
      * destruct C as [_ L]. destruct (L eq_refl) as (c' & G' & S').
        destruct (F3 k c' G' S') as (w & Hw & Ew).
        destruct (Hoget k c' G') as (y & Hy & _ & Oy).
        rewrite (buildChild_simple c' S') in Hy. injection Hy as <-.
        exists w. split; [exact Hw|congruence].
Qed.



(** ** The tree that named entries build *)

Lemma parseKeyStructure_Ok (key : string) (p : parsedKey) :
  parseKeyStructure key = Ok p ->
  p = match FindAllStringSubmatch (bracketPart key) with
      | [] => mkParsedKey (parsed_baseKey p) false false 0 []
      | first :: others =>
          if isNumeric first
          then mkParsedKey (parsed_baseKey p) true false (atoi first) others
          else mkParsedKey (parsed_baseKey p) false true 0 (first :: others)
      end.
Proof.
  intro Hp.
  destruct (FindAllStringSubmatch (bracketPart key)) as [|first others] eqn:Hm.
  - revert Hp Hm. unfold parseKeyStructure, FindAllStringSubmatch, bracketPart.
    destruct (negb (strings.Contains key "[") && negb (strings.Contains key "]")).
    + intros E _. injection E as <-. reflexivity.
    + unfold slice_to, slice_from.
      destruct ((strings.Index key "[" <? 0) || (len key <? strings.Index key "["));
        cbn [bind]; [discriminate|].
      intros E Hm. rewrite Hm in E. injection E as <-. reflexivity.
  - destruct (parseKeyStructure_first_group key p first others Hp Hm)
      as (H1 & H2 & H3 & H4).
    destruct p as [base arr nested idx path]. cbn in *.
    destruct (isNumeric first); cbn in *; subst; reflexivity.
Qed.

Lemma nested_path_head (key : string) (p : parsedKey) :
  parseKeyStructure key = Ok p -> parsed_isNested p = true ->
  exists k rest, parsed_path p = k :: rest /\ isNumeric k = false /\
                 parsed_isArray p = false.
Proof.
  intros Hp Hn. pose proof (parseKeyStructure_Ok key p Hp) as Hshape.
  rewrite Hshape in Hn |- *.
  destruct (FindAllStringSubmatch (bracketPart key)) as [|first others];
    [discriminate|].
  destruct (isNumeric first) eqn:F; [discriminate|].
  cbn. exists first, others. auto.
Qed.

Section NamedEntries.
Variable values : url.Values.
Variable b : string.

Lemma addEntry_named (groups groups' : list (string * keyGroup))
  (e : string * list string) :
  In e values ->
  namedOnly [e] b ->
  addEntry groups e = Ok groups' ->
  objectNode values b (groupOf groups b) ->
  objectNode values b (groupOf groups' b) /\
  (forall path,
      covers (groupOf groups b) path \/ (exists v, entryUnder b e path v) ->
      covers (groupOf groups' b) path) /\
  (sget groups b <> None \/ (exists path v, entryUnder b e path v) ->
   sget groups' b <> None).
Proof.
  destruct e as [key vs]. intros He Honly Hadd HG.
  unfold addEntry in Hadd. destruct vs as [|v vs].
  - injection Hadd as <-. split; [exact HG|]. split.
    + intros path [H|[w (ws & p & F & _)]]; [exact H|discriminate].
    + intros [H|(path & w & ws & p & F & _)]; [exact H|discriminate].
  - destruct (parseKeyStructure key) as [p| |] eqn:Hp; cbn [bind] in Hadd;
      try discriminate.
    injection Hadd as <-.
    assert (Hat : forall path w,
               entryUnder b (key, v :: vs) path w ->
               parsed_baseKey p = b /\ path = parsed_path p /\ w = v).
    { intros path w (ws & q & Hv & Hq & Hb & Hn & Hpath).
      cbn [fst snd] in Hv, Hq. rewrite Hp in Hq. injection Hq as <-.
      injection Hv as <- _. auto. }
    destruct (String.eqb (parsed_baseKey p) b) eqn:Hb.
    + apply String.eqb_eq in Hb.
      pose proof (Honly key v vs p (or_introl eq_refl) Hp Hb) as Hn.
      destruct (nested_path_head key p Hp Hn) as (k & rest & Ep & Hk & Ha).
      rewrite Ha, Hn, Hb. fold (groupOf groups b).
      set (g := groupOf groups b) in *.
      unfold addToObjectGroup. rewrite Ep.
      set (g' := addNestedToGroup (markObject g) (k :: rest) v).
      assert (E : groupOf (sset groups b g') b = g').
      { unfold groupOf, getOr.
        rewrite (map_get_set_same String.eqb string_eqb_eq). reflexivity. }
      rewrite E.
      assert (Hentry : assignsUnder values b (k :: rest) v).
      { exists (key, v :: vs). split; [exact He|]. exists vs, p. cbn. auto 6. }
      destruct HG as (Hs & Harr & Hitems & T & Hfed).
      split; [|split].
      * unfold objectNode, g'.
        rewrite (proj1 (addNestedToGroup_keeps_scalar (markObject g)
                          (k :: rest) v ltac:(discriminate))).
        rewrite isArray_addNestedToGroup.
        split; [exact Hs|]. split; [exact Harr|]. split; [|split].
        -- rewrite addNestedToGroup_cons, Hk. exact Hitems.
        -- apply tidy_addNestedToGroup. apply (tidy_same g); auto.
        -- apply fedBy_addNestedToGroup;
             [apply (fedBy_same _ g); auto|exact Hentry|discriminate].
      * intros path [H|[w Hw]].
        -- apply covers_addNestedToGroup; [discriminate|].
           apply (covers_same g); auto.
        -- destruct (Hat path w Hw) as (_ & -> & _). rewrite Ep.
           apply covers_self.
      * intros _. rewrite (map_get_set_same String.eqb string_eqb_eq).
        discriminate.
    + assert (N : parsed_baseKey p <> b).
      { intro F. rewrite F, String.eqb_refl in Hb. discriminate. }
      unfold groupOf, getOr.
      rewrite (map_get_set_other String.eqb string_eqb_eq _ _ _ _ N).
      split; [exact HG|]. split.
      * intros path [H|[w Hw]]; [exact H|].
        destruct (Hat path w Hw) as (F & _). contradiction.
      * intros [H|(path & w & Hw)]; [exact H|].
        destruct (Hat path w Hw) as (F & _). contradiction.
Qed.

Lemma addEntries_named (todo : url.Values) :
  forall groups groups',
    (forall e, In e todo -> In e values) ->
    namedOnly todo b ->
    addEntries groups todo = Ok groups' ->
    objectNode values b (groupOf groups b) ->
    objectNode values b (groupOf groups' b) /\
    (forall path,
        covers (groupOf groups b) path
        \/ (exists e v, In e todo /\ entryUnder b e path v) ->
        covers (groupOf groups' b) path) /\
    (sget groups b <> None
     \/ (exists e path v, In e todo /\ entryUnder b e path v) ->
     sget groups' b <> None).
Proof.
  induction todo as [|e todo IH]; intros groups groups' Hsub Honly Hadd HG.
  - injection Hadd as <-. split; [exact HG|]. split.
    + intros path [H|(e & v & [] & _)]. exact H.
    + intros [H|(e & path & v & [] & _)]. exact H.
  - cbn [addEntries] in Hadd.
    destruct (addEntry groups e) as [groups1| |] eqn:H1; cbn [bind] in Hadd;
      try discriminate.
    destruct (addEntry_named groups groups1 e) as (HG1 & C1 & S1);
      try assumption.
    { apply Hsub. left. reflexivity. }
    { intros key v vs p [E|[]] Hp Hb.
      apply (Honly key v vs p); [left; exact E|exact Hp|exact Hb]. }
    destruct (IH groups1 groups') as (HG' & C & S); try assumption.
    { intros e' I. apply Hsub. right. exact I. }
    { intros key v vs p I. apply (Honly key v vs p). right. exact I. }
    split; [exact HG'|]. split.
    + intros path H. apply C. destruct H as [H|(e' & v & [<-|I] & H)].
      * left. apply C1. left. exact H.
      * left. apply C1. right. exists v. exact H.
      * right. exists e', v. split; [exact I|exact H].
    + intro H. apply S. destruct H as [H|(e' & path & v & [<-|I] & H)].
      * left. apply S1. left. exact H.
      * left. apply S1. right. exists path, v. exact H.
      * right. exists e', path, v. split; [exact I|exact H].
Qed.
End NamedEntries.

Lemma object_of_named_children (values : url.Values) (b : string)
  (m : list (string * any)) :
  parseFormFlexibly values = Ok m ->
  namedOnly values b ->
  (exists path v, assignsUnder values b path v) ->
  exists o,
    sget m b = Some (AMap o) /\
    (forall k, In k (map fst o)
               <-> exists rest v, assignsUnder values b (k :: rest) v) /\
    (forall k, In k (map fst o) -> exists x, sget o k = Some x /\ x <> Nil) /\
    (forall k,
        (exists v, assignsUnder values b [k] v) ->
        exists v, assignsUnder values b [k] v /\
                  sget o k = Some (convertValueToType v)).
Proof.
  intros Hm Honly Hsome.
  unfold parseFormFlexibly, groupKeysByStructure in Hm.
  destruct (addEntries [] values) as [groups| |] eqn:Hgroups; cbn [bind] in Hm;
    try discriminate.
  destruct (addEntries_named values b values [] groups (fun e I => I)
              Honly Hgroups)
    as (HG & Hcov & Hex).
  { unfold objectNode, groupOf, getOr. cbn [map_get].
    repeat (split; [reflexivity|]). split; [apply tidy_new|apply fedBy_new]. }
  assert (Hcovers : forall path v,
             assignsUnder values b path v -> covers (groupOf groups b) path).
  { intros path v (e & I & H). apply Hcov. right. eauto. }
  destruct (sget groups b) as [g|] eqn:Hg.
  2:{ exfalso. apply Hex; [|reflexivity]. right.
      destruct Hsome as (path & v & e & I & H). eauto. }
  assert (Eg : groupOf groups b = g)
    by (unfold groupOf, getOr; rewrite Hg; reflexivity).
  rewrite Eg in *. clear Eg Hex.
  destruct HG as (Hs & Harr & Hitems & T & F1 & F2 & F3).
  destruct (buildGroups_get groups b g [] m
              (addEntries_NoDup values [] groups (NoDup_nil _) Hgroups) Hm Hg)
    as (x & Hx & Hmx).
  unfold buildGroup in Hx. rewrite Hs, Harr in Hx.
  destruct (buildObjectFromGroup g) as [o| |] eqn:Ho; cbn [bind] in Hx;
    try discriminate.
  injection Hx as <-.
  destruct (buildObjectFromGroup_Ok g o T Hs Hitems Ho) as [Hokeys Hoget].
  assert (Hnamed : forall k rest v,
             assignsUnder values b (k :: rest) v -> isNumeric k = false).
  { intros k rest v (e & _ & vs & p & _ & Hp & _ & Hn & Hpath).
    destruct (nested_path_head _ p Hp Hn) as (k0 & rest0 & Ep & Hk & _).
    congruence. }
  exists o. split; [exact Hmx|]. split; [|split].
  - intro k. rewrite Hokeys. split.
    + intro I. apply (F1 k I).
    + intros (rest & v & H). pose proof (Hcovers _ _ H) as C.
      cbn [covers] in C. rewrite (Hnamed k rest v H) in C. apply C.
  - intros k I. apply Hokeys in I.
    destruct (In_keys_get String.eqb (children g) k string_eqb_eq I) as [c G].
    destruct (Hoget k c G) as (y & _ & Hy & Oy). eauto.
  - intros k [v H]. pose proof (Hcovers _ _ H) as C.
    cbn [covers] in C. rewrite (Hnamed k [] v H) in C.
    destruct C as [_ L]. destruct (L eq_refl) as (c & G & S).
    destruct (F3 k c G S) as (w & Hw & Ew).
    destruct (Hoget k c G) as (y & Hy & _ & Oy).
    rewrite (buildChild_simple c S) in Hy. injection Hy as <-.
    exists w. split; [exact Hw|congruence].
Qed.


(** ** Only the first value of a key is read *)

Lemma addEntry_first (groups : list (string * keyGroup)) (key : string)
  (vs : list string) :
  addEntry groups (key, vs) = addEntry groups (key, firstn 1 vs).
Proof. destruct vs; reflexivity. Qed.

Lemma addEntries_firstValues (values : url.Values) :
  forall groups, addEntries groups values = addEntries groups (firstValues values).
Proof.
  induction values as [|[key vs] values IH]; intro groups.
  - reflexivity.
  - cbn [firstValues map addEntries fst snd].
    rewrite <- (addEntry_first groups key vs).
    destruct (addEntry groups (key, vs)); cbn [bind]; auto.
Qed.

Lemma findFieldData_firstValues (values : url.Values) (fieldName : string) :
  findFieldData values fieldName = findFieldData (firstValues values) fieldName.
Proof.
  unfold findFieldData.
  match goal with
  | |- match fold_left ?f _ _ with _ => _ end = _ =>
      assert (E : forall acc, fold_left f values acc
                              = fold_left f (firstValues values) acc)
  end.
  { induction values as [|[key vs] values IH]; intro acc; cbn.
    - reflexivity.
    - destruct vs; cbn; apply IH. }
  rewrite E. reflexivity.
Qed.

Lemma parseStruct_firstValues (values : url.Values) fields :
  forall cur, parseStruct values fields cur
              = parseStruct (firstValues values) fields cur.
Proof.
  induction fields as [|f fields IH]; intro cur; cbn.
  - reflexivity.
  - destruct cur as [|c cur]; [reflexivity|].
    rewrite <- findFieldData_firstValues, IH. reflexivity.
Qed.

Lemma generic_firstValues (values : url.Values) :
  parseFormFlexibly values = parseFormFlexibly (firstValues values).
Proof.
  unfold parseFormFlexibly, groupKeysByStructure.
  rewrite <- addEntries_firstValues. reflexivity.
Qed.

Lemma binding_firstValues (values : url.Values) (tgt : target) :
  parseIntoStruct values tgt = parseIntoStruct (firstValues values) tgt.
Proof.
  destruct tgt as [| |t v]; try reflexivity.
  destruct t; try reflexivity. destruct v; try reflexivity.
  cbn. rewrite <- parseStruct_firstValues. reflexivity.
Qed.

Lemma parseStruct_fields (values : url.Values)
  (fields : list (string * string * gotype)) :
  forall cur cur',
    parseStruct values fields cur = Ok cur' ->
    List.length cur' = List.length cur /\
    forall i f c,
      nth_error fields i = Some f -> nth_error cur i = Some c ->
      exists c', nth_error cur' i = Some c' /\ bindField values f c = Ok c'.
Proof.
  induction fields as [|f fields IH]; intros cur cur' H.
  - injection H as <-. split; [reflexivity|]. intros [|i] ? ? F; discriminate.
  - destruct cur as [|c cur]; [injection H as <-; split; [reflexivity|];
                               intros [|i] ? ? _ F; discriminate|].
    cbn [parseStruct] in H. fold (bindField values f c) in H.
    destruct (bindField values f c) as [c1| |] eqn:Hc; cbn [bind] in H;
      try discriminate.
    destruct (parseStruct values fields cur) as [rest| |] eqn:Hrest;
      cbn [bind] in H; try discriminate.
    injection H as <-. destruct (IH cur rest Hrest) as [Hlen Hnth].
    split; [cbn; congruence|].
    intros [|i] f0 c0 Hf Hc0; cbn in Hf, Hc0 |- *.
    + injection Hf as <-. injection Hc0 as <-. eauto.
    + apply (Hnth i f0 c0 Hf Hc0).
Qed.

Lemma findFieldData_single (values : url.Values) (fieldName v : string)
  (vs : list string) :
  corpus values ->
  In (fieldName, v :: vs) values ->
  noNestedKeys values fieldName ->
  findFieldData values fieldName = Some [(fieldName, v)].
Proof.
  intros ND I Hno. unfold findFieldData.
  match goal with
  | |- match fold_left ?f _ _ with _ => _ end = _ =>
      assert (E : forall todo acc,
                 NoDup (map fst todo) ->
                 noNestedKeys todo fieldName ->
                 acc = [] \/ acc = [(fieldName, v)] ->
                 (In (fieldName, v :: vs) todo ->
                  fold_left f todo acc = [(fieldName, v)]) /\
                 (~ In fieldName (map fst todo) -> fold_left f todo acc = acc))
  end.
  { induction todo as [|[key ws] todo IH]; intros acc N Hn Hacc.
    - split; [intros []|reflexivity].
    - inversion N as [|? ? Hnot N']; subst.
      assert (Hn' : noNestedKeys todo fieldName).
      { intros k w J. apply (Hn k w). right. exact J. }
      cbn [fold_left].
      pose proof (Hn key ws (or_introl eq_refl)) as P.
      destruct (String.eqb key fieldName) eqn:Ek.
      + apply String.eqb_eq in Ek. subst key. split.
        * intros [E|J].
          -- injection E as ->.
             assert (Es : sset acc fieldName v = [(fieldName, v)]).
             { destruct Hacc as [->| ->]; cbn; [reflexivity|].
               rewrite String.eqb_refl. reflexivity. }
             rewrite Es.
             apply (proj2 (IH [(fieldName, v)] N' Hn' (or_intror eq_refl))).
             exact Hnot.
          -- exfalso. apply Hnot.
             change fieldName with (fst (fieldName, v :: vs)).
             apply in_map. exact J.
        * intro F. exfalso. apply F. left. reflexivity.
      + assert (Estep : match ws with
                        | [] => acc
                        | w :: _ =>
                            if strings.HasPrefix key (fieldName ++ "[")
                            then sset acc
                                   (strings.drop (String.length fieldName + 1) key) w
                            else acc
                        end = acc).
        { destruct ws; [reflexivity|]. rewrite P. reflexivity. }
        rewrite Estep.
        destruct (IH acc N' Hn' Hacc) as [H1 H2]. split.
        * intros [E|J]; [|apply H1; exact J].
          injection E as -> _. rewrite String.eqb_refl in Ek. discriminate.
        * intro F. apply H2. intro J. apply F. right. exact J. }
  destruct (E values [] ND Hno (or_introl eq_refl)) as [H1 _].
  rewrite (H1 I). reflexivity.
Qed.

Lemma scalar_field_from_first_value (values : url.Values)
  (fields : list (string * string * gotype)) (cur cur' : list govalue)
  (i : nat) (name tag : string) (t : gotype) (c : govalue)
  (v : string) (vs : list string) :
  parseStruct values fields cur = Ok cur' ->
  corpus values ->
  nth_error fields i = Some (name, tag, t) ->
  nth_error cur i = Some c ->
  scalarKind t = true ->
  In (lookupName (name, tag, t), v :: vs) values ->
  noNestedKeys values (lookupName (name, tag, t)) ->
  exists c',
    nth_error cur' i = Some c' /\ setValue (exported name) t c v = Ok c'.
Proof.
  intros H ND Hf Hc Hk I Hno.
  destruct (parseStruct_fields values fields cur cur' H) as [_ Hnth].
  destruct (Hnth i (name, tag, t) c Hf Hc) as (c' & Hc' & Hb).
  unfold bindField in Hb.
  rewrite (findFieldData_single values _ v vs ND I Hno) in Hb.
  cbn [fst snd] in Hb.
  exists c'. split; [exact Hc'|].
  destruct t; try discriminate; cbn in Hb |- *; try exact Hb.
  - destruct (strconv.ParseInt v 64); exact Hb.
  - destruct (strconv.ParseUint v 64); exact Hb.
  - destruct (strconv.ParseFloat v); exact Hb.
  - destruct (strconv.ParseBool v); exact Hb.
Qed.

(** C6.  Both paths read the first value of a key and nothing else of
    its value sequence.  Two corpora that give the same keys the same
    first values are converted alike, by the generic path and by the
    struct-binding path.  And it is that first value which reaches the
    output, whatever the further values are: a base key with a scalar
    entry comes out as the first value of such an entry; in the array
    of a base key with indexed entries only, an index assigned directly
    holds the first value of such an entry; in the object of a base key
    with named entries only, a name assigned directly holds the coerced
    first value of such an entry; and a field of a scalar kind named by
    a key is set from the first value of that key. *)
Theorem only_first_value_is_read (values values' : url.Values) :
  firstValues values = firstValues values' ->
  (parseFormFlexibly values = parseFormFlexibly values' /\
   forall tgt, parseIntoStruct values tgt = parseIntoStruct values' tgt) /\
  (forall b m,
      parseFormFlexibly values' = Ok m ->
      (exists e v, In e values /\ scalarEntry b e v) ->
      exists e v, In e values /\ scalarEntry b e v /\
                  sget m b = Some (AString v)) /\
  (forall b m i,
      parseFormFlexibly values' = Ok m ->
      indexedOnly values b ->
      (exists v, assignsAt values b i [] v) ->
      exists l v, sget m b = Some (ASlice l) /\
                  assignsAt values b i [] v /\
                  nth (Z.to_nat i) l Nil = AString v) /\
  (forall b m k,
      parseFormFlexibly values' = Ok m ->
      namedOnly values b ->
      (exists v, assignsUnder values b [k] v) ->
      exists o v, sget m b = Some (AMap o) /\
                  assignsUnder values b [k] v /\
                  sget o k = Some (convertValueToType v)) /\
  (forall fields cur cur' i name tag t c v vs,
      parseIntoStruct values' (PointerTo (TStruct fields) (GStruct cur))
      = Ok (GStruct cur') ->
      corpus values ->
      nth_error fields i = Some (name, tag, t) ->
      nth_error cur i = Some c ->
      scalarKind t = true ->
      In (lookupName (name, tag, t), v :: vs) values ->
      noNestedKeys values (lookupName (name, tag, t)) ->
      exists c',
        nth_error cur' i = Some c' /\
        setValue (exported name) t c v = Ok c' /\
        (t = TString -> c' = GString v)).
Proof.
  intro E.
  assert (G : parseFormFlexibly values = parseFormFlexibly values').
  { rewrite (generic_firstValues values), (generic_firstValues values'), E.
    reflexivity. }
  assert (B : forall tgt, parseIntoStruct values tgt = parseIntoStruct values' tgt).
  { intro tgt.
    rewrite (binding_firstValues values), (binding_firstValues values'), E.
    reflexivity. }
  split; [split; [exact G|exact B]|]. split; [|split; [|split]].
  - intros b m Hm Hentry. rewrite <- G in Hm.
    unfold parseFormFlexibly, groupKeysByStructure in Hm.
    destruct (addEntries [] values) as [groups| |] eqn:Hgroups;
      cbn [bind] in Hm; try discriminate.
    destruct (addEntries_holdsScalar values b values [] groups
                (fun e I => I) Hgroups (or_intror Hentry))
      as (g & Hg & Hs & e & v & He & Hse & Hv).
    destruct (buildGroups_get groups b g [] m
                (addEntries_NoDup values [] groups (NoDup_nil _) Hgroups) Hm Hg)
      as (x & Hx & Hmx).
    unfold buildGroup in Hx. rewrite Hs in Hx. injection Hx as <-.
    exists e, v. split; [exact He|]. split; [exact Hse|congruence].
  - intros b m i Hm Honly [v Hv]. rewrite <- G in Hm.
    destruct (dense_array_of_indexed_children values b m Hm Honly)
      as (l & Hl & _ & _ & _ & _ & Hdirect & _).
    { exists i. apply supplies_assignsAt. eauto. }
    destruct (Hdirect i (ex_intro _ v Hv)) as (w & Hw & Ew).
    exists l, w. auto.
  - intros b m k Hm Honly [v Hv]. rewrite <- G in Hm.
    destruct (object_of_named_children values b m Hm Honly)
      as (o & Ho & _ & _ & Hleaf).
    { eauto. }
    destruct (Hleaf k (ex_intro _ v Hv)) as (w & Hw & Ew).
    exists o, w. auto.
  - intros fields cur cur' i name tag t c v vs H ND Hf Hc Hk I Hno.
    rewrite <- B in H. cbn [parseIntoStruct] in H.
    destruct (parseStruct values fields cur) as [cur1| |] eqn:H1;
      cbn [bind] in H; try discriminate.
    injection H as <-.
    destruct (scalar_field_from_first_value values fields cur cur1 i name tag
                t c v vs H1 ND Hf Hc Hk I Hno) as (c' & Hc' & Hs).
    exists c'. split; [exact Hc'|]. split; [exact Hs|].
    intros ->. cbn in Hs. unfold set in Hs.
    destruct (exported name); [congruence|discriminate].
Qed.

Lemma only_first_value_is_read_witness :
  (parseFormFlexibly
     [("a", ["1"; "2"]); ("b[0]", ["x"; "y"]); ("u[n]", ["7"; "8"])]
   = parseFormFlexibly
       [("a", ["1"; "3"; "4"]); ("b[0]", ["x"]); ("u[n]", ["7"])] /\
   forall tgt,
     parseIntoStruct
       [("a", ["1"; "2"]); ("b[0]", ["x"; "y"]); ("u[n]", ["7"; "8"])] tgt
     = parseIntoStruct
         [("a", ["1"; "3"; "4"]); ("b[0]", ["x"]); ("u[n]", ["7"])] tgt) /\
  (forall b m,
      parseFormFlexibly
        [("a", ["1"; "3"; "4"]); ("b[0]", ["x"]); ("u[n]", ["7"])] = Ok m ->
      (exists e v,
          In e [("a", ["1"; "2"]); ("b[0]", ["x"; "y"]); ("u[n]", ["7"; "8"])] /\
          scalarEntry b e v) ->
      exists e v,
        In e [("a", ["1"; "2"]); ("b[0]", ["x"; "y"]); ("u[n]", ["7"; "8"])] /\
        scalarEntry b e v /\ sget m b = Some (AString v)) /\
  (forall b m i,
      parseFormFlexibly
        [("a", ["1"; "3"; "4"]); ("b[0]", ["x"]); ("u[n]", ["7"])] = Ok m ->
      indexedOnly
        [("a", ["1"; "2"]); ("b[0]", ["x"; "y"]); ("u[n]", ["7"; "8"])] b ->
      (exists v,
          assignsAt
            [("a", ["1"; "2"]); ("b[0]", ["x"; "y"]); ("u[n]", ["7"; "8"])]
            b i [] v) ->
      exists l v,
        sget m b = Some (ASlice l) /\
        assignsAt
          [("a", ["1"; "2"]); ("b[0]", ["x"; "y"]); ("u[n]", ["7"; "8"])]
          b i [] v /\
        nth (Z.to_nat i) l Nil = AString v) /\
  (forall b m k,
      parseFormFlexibly
        [("a", ["1"; "3"; "4"]); ("b[0]", ["x"]); ("u[n]", ["7"])] = Ok m ->
      namedOnly
        [("a", ["1"; "2"]); ("b[0]", ["x"; "y"]); ("u[n]", ["7"; "8"])] b ->
      (exists v,
          assignsUnder
            [("a", ["1"; "2"]); ("b[0]", ["x"; "y"]); ("u[n]", ["7"; "8"])]
            b [k] v) ->
      exists o v,
        sget m b = Some (AMap o) /\
        assignsUnder
          [("a", ["1"; "2"]); ("b[0]", ["x"; "y"]); ("u[n]", ["7"; "8"])]
          b [k] v /\
        sget o k = Some (convertValueToType v)) /\
  (forall fields cur cur' i name tag t c v vs,
      parseIntoStruct
        [("a", ["1"; "3"; "4"]); ("b[0]", ["x"]); ("u[n]", ["7"])]
        (PointerTo (TStruct fields) (GStruct cur))
      = Ok (GStruct cur') ->
      corpus [("a", ["1"; "2"]); ("b[0]", ["x"; "y"]); ("u[n]", ["7"; "8"])] ->
      nth_error fields i = Some (name, tag, t) ->
      nth_error cur i = Some c ->
      scalarKind t = true ->
      In (lookupName (name, tag, t), v :: vs)
        [("a", ["1"; "2"]); ("b[0]", ["x"; "y"]); ("u[n]", ["7"; "8"])] ->
      noNestedKeys
        [("a", ["1"; "2"]); ("b[0]", ["x"; "y"]); ("u[n]", ["7"; "8"])]
        (lookupName (name, tag, t)) ->
      exists c',
        nth_error cur' i = Some c' /\
        setValue (exported name) t c v = Ok c' /\
        (t = TString -> c' = GString v)).
Proof.
  apply (only_first_value_is_read
           [("a", ["1"; "2"]); ("b[0]", ["x"; "y"]); ("u[n]", ["7"; "8"])]
           [("a", ["1"; "3"; "4"]); ("b[0]", ["x"]); ("u[n]", ["7"])]).
  reflexivity.
Defined.

(** ** Where the generic path returns *)

Lemma parseKeyStructure_names (key : string) :
  parsable key = true -> namesOnly key ->
  exists p,
    parseKeyStructure key = Ok p /\
    parsed_isArray p = false /\
    forall k, In k (parsed_path p) -> isNumeric k = false.
Proof.
  intros Hkey Hseg. destruct (parseKeyStructure_returns key Hkey) as [p Hp].
  exists p. split; [exact Hp|].
  pose proof (parseKeyStructure_Ok key p Hp) as E.
  unfold namesOnly in Hseg.
  destruct (FindAllStringSubmatch (bracketPart key)) as [|first others].
  - rewrite E. cbn. split; [reflexivity|]. intros k [].
  - rewrite (Hseg first (or_introl eq_refl)) in E. rewrite E. cbn.
    split; [reflexivity|]. intros k I. apply Hseg. exact I.
Qed.

Lemma arrayFree_new (base : string) : arrayFree (newKeyGroup base).
Proof. constructor; cbn; [reflexivity|intros ? ? []]. Qed.

Lemma arrayFree_same (g g' : keyGroup) :
  arrayData g' = arrayData g -> children g' = children g ->
  arrayFree g -> arrayFree g'.
Proof.
  intros Ea Ec H. inversion H as [g0 Ha Hc]; subst g0.
  constructor; rewrite ?Ea, ?Ec; assumption.
Qed.

Lemma arrayFree_addNestedToGroup (path : list string) (v : string) :
  (forall k, In k path -> isNumeric k = false) ->
  forall g, arrayFree g -> arrayFree (addNestedToGroup g path v).
Proof.
  induction path as [|k rest IH]; intros Hpath g H.
  - apply (arrayFree_same g); auto.
  - rewrite addNestedToGroup_cons, (Hpath k (or_introl eq_refl)).
    inversion H as [g0 Ha Hc]; subst g0.
    constructor; cbn [setChild arrayData children]; [exact Ha|].
    intros j c I.
    apply In_map_set_weak in I; [|intros a c0; apply String.eqb_eq].
    destruct I as [[_ ->]|I]; [|apply (Hc j c I)].
    apply IH; [intros k' I'; apply Hpath; right; exact I'|].
    unfold getOr.
    destruct (sget (children g) k) as [c0|] eqn:G; [|apply arrayFree_new].
    apply (map_get_In String.eqb string_eqb_eq) in G. apply (Hc k c0 G).
Qed.

(** A tree without indexed children is built without a panic, and without
    a call of [makeSlice]. *)
Lemma arrayFree_builds (g : keyGroup) :
  arrayFree g ->
  buildArrayFromGroup g = Ok [] /\
  exists o, buildObjectFromGroup g = Ok o.
Proof.
  induction 1 as [g Ha Hkids IHkids]. split.
  - rewrite buildArrayFromGroup_unfold, Ha. reflexivity.
  - rewrite buildObjectFromGroup_unfold, Ha.
    destruct (fillKeys_total (fun k : string => k) (children g)
                (if isSimple g then [("value", value g)] else []))
      as [result Hres].
    { intros k c I. destruct (IHkids k c I) as [Ea Eo].
      apply buildChild_of_builds; eauto. }
    rewrite Hres. cbn [bind fillKeys]. eauto.
Qed.

Lemma addEntry_arrayFree (groups : list (string * keyGroup))
  (e : string * list string) :
  (forall k g, In (k, g) groups -> arrayFree g) ->
  parsable (fst e) = true -> namesOnly (fst e) ->
  exists groups',
    addEntry groups e = Ok groups' /\
    forall k g, In (k, g) groups' -> arrayFree g.
Proof.
  destruct e as [key vs]. cbn [fst]. intros Hfree Hkey Hseg.
  unfold addEntry. destruct vs as [|v vs]; [eauto|].
  destruct (parseKeyStructure_names key Hkey Hseg) as (p & Hp & Ha & Hpath).
  rewrite Hp. cbn [bind]. rewrite Ha. eexists. split; [reflexivity|].
  intros k g I.
  apply In_map_set_weak in I; [|intros a c; apply String.eqb_eq].
  destruct I as [[_ ->]|I]; [|apply (Hfree k g I)].
  assert (W : arrayFree (getOr String.eqb groups (parsed_baseKey p)
                           (newKeyGroup (parsed_baseKey p)))).
  { unfold getOr.
    destruct (sget groups (parsed_baseKey p)) as [g0|] eqn:G;
      [|apply arrayFree_new].
    apply (map_get_In String.eqb string_eqb_eq) in G. apply (Hfree _ _ G). }
  destruct (parsed_isNested p).
  - unfold addToObjectGroup. destruct (parsed_path p) eqn:Ep.
    + eapply arrayFree_same; [| |exact W]; reflexivity.
    + apply arrayFree_addNestedToGroup; [exact Hpath|].
      eapply arrayFree_same; [| |exact W]; reflexivity.
  - eapply arrayFree_same; [| |exact W]; reflexivity.
Qed.

Lemma addEntries_arrayFree (values : url.Values) :
  forall groups,
    (forall k g, In (k, g) groups -> arrayFree g) ->
    (forall key vs, In (key, vs) values ->
                    parsable key = true /\ namesOnly key) ->
    exists groups',
      addEntries groups values = Ok groups' /\
      forall k g, In (k, g) groups' -> arrayFree g.
Proof.
  induction values as [|[key vs] values IH]; intros groups Hfree Hkeys.
  - exists groups. split; [reflexivity|exact Hfree].
  - destruct (Hkeys key vs (or_introl eq_refl)) as [Hkey Hseg].
    destruct (addEntry_arrayFree groups (key, vs) Hfree Hkey Hseg)
      as (groups1 & H1 & Hfree1).
    destruct (IH groups1 Hfree1) as (groups' & H' & Hfree').
    { intros k w I. apply (Hkeys k w). right. exact I. }
    exists groups'. cbn [addEntries]. rewrite H1. cbn [bind]. auto.
Qed.

Lemma buildGroups_total (keyGroups : list (string * keyGroup)) :
  forall result,
    (forall k g, In (k, g) keyGroups -> arrayFree g) ->
    exists m, buildGroups keyGroups result = Ok m.
Proof.
  induction keyGroups as [|[k g] keyGroups IH]; intros result Hfree.
  - exists result. reflexivity.
  - cbn [buildGroups].
    destruct (arrayFree_builds g (Hfree k g (or_introl eq_refl)))
      as [Ha (o & Ho)].
    unfold buildGroup. rewrite Ha, Ho. cbn [bind].
    assert (Hrest : forall k' g', In (k', g') keyGroups -> arrayFree g').
    { intros k' g' I. apply (Hfree k' g'). right. exact I. }
    destruct (isSimple g); [|destruct (isArray g)]; cbn [bind]; apply IH, Hrest.
Qed.

(** The generic conversion returns, without an error and without a panic,
    on every corpus whose keys have a '[' whenever they have a ']' and
    have no numeric bracket group: objects of any depth are built, and no
    slice is made on the way. *)
Theorem generic_path_returns (values : url.Values) :
  (forall key vs, In (key, vs) values ->
                  parsable key = true /\ namesOnly key) ->
  exists m, parseFormFlexibly values = Ok m.
Proof.
  intro Hkeys. unfold parseFormFlexibly, groupKeysByStructure.
  destruct (addEntries_arrayFree values []) as (groups & Hg & Hfree).
  - intros k g [].
  - exact Hkeys.
  - rewrite Hg. cbn [bind]. apply buildGroups_total. exact Hfree.
Qed.

(** ** The examples of the documentation *)

Example nested_objects_and_arrays :
  FormToMap "account[subdomain]=example&account[id]=123&leads[0][id]=1&leads[0][tags][0]=urgent"
  = Ok [("account", AMap [("subdomain", AString "example"); ("id", AInt 123)]);
        ("leads", ASlice [AMap [("id", AInt 1);
                                ("tags", ASlice [AString "urgent"])]])].
Proof. vm_compute. reflexivity. Qed.

Example sequence_of_objects :
  FormToMap "leads[0][id]=1&leads[0][name]=A&leads[1][id]=2"
  = Ok [("leads", ASlice [AMap [("id", AInt 1); ("name", AString "A")];
                          AMap [("id", AInt 2)]])].
Proof. vm_compute. reflexivity. Qed.

Example percent_encoded_keys :
  FormToJSONEncoded "account%5Bid%5D=123&name=John"
  = Ok (json.Object [("account", json.Object [("id", json.Int 123)]);
                     ("name", json.Str "John")]).
Proof. vm_compute. reflexivity. Qed.

Example repeated_key :
  FormToMap "a=1&a=2&b[x]=u&b[x]=w" = FormToMap "a=1&b[x]=u".
Proof. vm_compute. reflexivity. Qed.

Example bracket_groups :
  FindAllStringSubmatch "[b][[c]]d[]e[0]" = ["b"; "[c"; "0"] /\
  FindAllStringSubmatch "[]" = [] /\
  FindAllStringSubmatch "[a" = [].
Proof. repeat split. Qed.

Example struct_with_scalar_fields :
  ParseForm "name=John&age=25"
    (fresh (TStruct [("Name", "name", TString); ("Age", "age", TInt 64)]))
  = Ok (GStruct [GString "John"; GInt 25]).
Proof. vm_compute. reflexivity. Qed.

(** * Further properties of the code *)

(** ** The key parser *)

Lemma Contains_byte (s : string) (c : ascii) :
  strings.Contains s (String c EmptyString) = hasByte c s.
Proof.
  unfold strings.Contains.
  induction s as [|d s IH]; [reflexivity|].
  cbn [strings.Index strings.HasPrefix hasByte].
  rewrite HasPrefix_empty, andb_true_r, (Ascii.eqb_sym c d).
  destruct (Ascii.eqb d c); cbn [orb]; [reflexivity|].
  rewrite <- IH.
  destruct (strings.Index s (String c EmptyString) <? 0) eqn:L; lia.
Qed.

Lemma take_drop (n : nat) (s : string) :
  (strings.take n s ++ strings.drop n s)%string = s.
Proof.
  revert s. induction n as [|n IH]; intros [|c s]; cbn; try reflexivity.
  rewrite IH. reflexivity.
Qed.

Lemma hasByte_app (c : ascii) (s t : string) :
  hasByte c (s ++ t) = hasByte c s || hasByte c t.
Proof.
  induction s as [|d s IH]; cbn; [reflexivity|].
  rewrite IH. apply orb_assoc.
Qed.

Lemma take_Index_no_byte (s : string) (c : ascii) :
  hasByte c (strings.take (Z.to_nat (strings.Index s (String c EmptyString))) s)
  = false.
Proof.
  induction s as [|d s IH]; [reflexivity|].
  cbn [strings.Index strings.HasPrefix].
  rewrite HasPrefix_empty, andb_true_r.
  destruct (Ascii.eqb c d) eqn:E; [reflexivity|].
  destruct (strings.Index s (String c EmptyString) <? 0) eqn:L; [reflexivity|].
  replace (Z.to_nat (strings.Index s (String c EmptyString) + 1))
    with (S (Z.to_nat (strings.Index s (String c EmptyString)))) by lia.
  cbn [strings.take hasByte]. rewrite IH, (Ascii.eqb_sym d c), E. reflexivity.
Qed.

Lemma bracketGroups_segments (s : string) :
  forall open seg,
    (forall g, open = Some g -> hasByte "]" g = false) ->
    In seg (bracketGroups s open) ->
    seg <> EmptyString /\ hasByte "]" seg = false.
Proof.
  induction s as [|c s IH]; intros open seg Hopen I; [destruct I|].
  cbn [bracketGroups] in I. destruct open as [g|].
  - destruct (Ascii.eqb c "]") eqn:E.
    + destruct (String.eqb g EmptyString) eqn:G.
      * apply (IH None seg); [discriminate|exact I].
      * destruct I as [<-|I].
        -- split; [|apply Hopen; reflexivity].
           intro F. rewrite F in G. discriminate.
        -- apply (IH None seg); [discriminate|exact I].
    + apply (IH (Some (g ++ String c EmptyString)) seg); [|exact I].
      intros g' Hg'. injection Hg' as <-.
      rewrite hasByte_app, (Hopen g eq_refl). cbn. rewrite E. reflexivity.
  - destruct (Ascii.eqb c "[").
    + apply (IH (Some EmptyString) seg); [|exact I].
      intros g' Hg'. injection Hg' as <-. reflexivity.
    + apply (IH None seg); [discriminate|exact I].
Qed.

Lemma parsed_baseKey_spec (key : string) (p : parsedKey) :
  parseKeyStructure key = Ok p ->
  parsed_baseKey p
  = if strings.Contains key "["
    then strings.take (Z.to_nat (strings.Index key "[")) key
    else key.
Proof.
  unfold parseKeyStructure.
  destruct (strings.Contains key "[") eqn:Hopen; cbn [negb andb].
  - unfold slice_to, slice_from.
    destruct ((strings.Index key "[" <? 0) || (len key <? strings.Index key "["));
      cbn [bind]; [discriminate|].
    destruct (FindAllStringSubmatch _) as [|first others].
    + intro E. injection E as <-. reflexivity.
    + destruct (isNumeric first); intro E; injection E as <-; reflexivity.
  - destruct (negb (strings.Contains key "]")).
    + intro E. injection E as <-. reflexivity.
    + unfold slice_to.
      replace (strings.Index key "[" <? 0) with true
        by (unfold strings.Contains in Hopen; symmetry; lia).
      cbn. discriminate.
Qed.

(** [parseKeyStructure] returns exactly on the keys that have a '[' or
    have no ']', and panics on all others; it never returns an error. *)
Theorem parseKeyStructure_returns_iff (key : string) :
  returns (parseKeyStructure key) = parsable key /\
  panics (parseKeyStructure key) = negb (parsable key).
Proof.
  destruct (parsable key) eqn:Hp.
  - destruct (parseKeyStructure_returns key Hp) as [p ->]. split; reflexivity.
  - unfold parsable in Hp. apply orb_false_elim in Hp. destruct Hp as [H1 H2].
    apply negb_false_iff in H2.
    rewrite (close_without_open_panics key H2 H1). split; reflexivity.
Qed.

Lemma append_empty_r (s : string) : (s ++ EmptyString)%string = s.
Proof. induction s as [|c s IH]; cbn; [reflexivity|]. rewrite IH. reflexivity. Qed.

(** The shape of a parsed key: the base key is the key up to its first
    '[' and has no '[' itself; a key is never both an array key and a
    nested key; a nested key has a path that starts with a segment which
    is not numeric; no segment is empty or contains a ']'. *)
Theorem parsed_key_shape (key : string) (p : parsedKey) :
  parseKeyStructure key = Ok p ->
  key = (parsed_baseKey p
         ++ (if strings.Contains key "[" then bracketPart key else EmptyString))%string /\
  strings.Contains (parsed_baseKey p) "[" = false /\
  parsed_isArray p && parsed_isNested p = false /\
  (parsed_isNested p = true ->
   exists first rest, parsed_path p = first :: rest /\ isNumeric first = false) /\
  (forall seg, In seg (FindAllStringSubmatch (bracketPart key)) ->
               seg <> EmptyString /\ strings.Contains seg "]" = false) /\
  (forall seg, In seg (parsed_path p) ->
               In seg (FindAllStringSubmatch (bracketPart key))).
Proof.
  intro Hp.
  pose proof (parsed_baseKey_spec key p Hp) as Hb.
  pose proof (parseKeyStructure_Ok key p Hp) as Hshape.
  split; [|split; [|split; [|split; [|split]]]].
  - rewrite Hb. destruct (strings.Contains key "[").
    + unfold bracketPart. symmetry. apply take_drop.
    + symmetry. apply append_empty_r.
  - rewrite Hb. destruct (strings.Contains key "[") eqn:Hopen; [|exact Hopen].
    rewrite Contains_byte. apply take_Index_no_byte.
  - rewrite Hshape.
    destruct (FindAllStringSubmatch (bracketPart key)) as [|first others];
      [reflexivity|]. destruct (isNumeric first); reflexivity.
  - rewrite Hshape.
    destruct (FindAllStringSubmatch (bracketPart key)) as [|first others];
      [discriminate|].
    destruct (isNumeric first) eqn:Hn; [discriminate|].
    intros _. exists first, others. split; [reflexivity|exact Hn].
  - intros seg I. rewrite Contains_byte.
    apply (bracketGroups_segments (bracketPart key) None seg);
      [discriminate|exact I].
  - rewrite Hshape.
    destruct (FindAllStringSubmatch (bracketPart key)) as [|first others];
      [intros seg []|].
    destruct (isNumeric first); cbn [parsed_path]; intros seg I;
      [right; exact I|exact I].
Qed.

Lemma parsed_key_shape_witness :
  "a[0][b]" = (parsed_baseKey (mkParsedKey "a" true false 0 ["b"])
         ++ (if strings.Contains "a[0][b]" "[" then bracketPart "a[0][b]"
             else EmptyString))%string /\
  strings.Contains (parsed_baseKey (mkParsedKey "a" true false 0 ["b"])) "["
    = false /\
  parsed_isArray (mkParsedKey "a" true false 0 ["b"])
    && parsed_isNested (mkParsedKey "a" true false 0 ["b"]) = false /\
  (parsed_isNested (mkParsedKey "a" true false 0 ["b"]) = true ->
   exists first rest,
     parsed_path (mkParsedKey "a" true false 0 ["b"]) = first :: rest /\
     isNumeric first = false) /\
  (forall seg, In seg (FindAllStringSubmatch (bracketPart "a[0][b]")) ->
               seg <> EmptyString /\ strings.Contains seg "]" = false) /\
  (forall seg, In seg (parsed_path (mkParsedKey "a" true false 0 ["b"])) ->
               In seg (FindAllStringSubmatch (bracketPart "a[0][b]"))).
Proof.
  apply (parsed_key_shape "a[0][b]" (mkParsedKey "a" true false 0 ["b"])).
  vm_compute. reflexivity.
Defined.

Lemma generic_path_returns_witness :
  exists m,
    parseFormFlexibly [("a[b][c]", ["1"]); ("c", ["x"]); ("d[e]", ["y"])]
    = Ok m.
Proof.
  apply (generic_path_returns
           [("a[b][c]", ["1"]); ("c", ["x"]); ("d[e]", ["y"])]).
  intros key vs [E|[E|[E|[]]]]; injection E as <- <-;
    (split; [reflexivity|]); intros seg I; vm_compute in I.
  - destruct I as [<-|[<-|[]]]; reflexivity.
  - destruct I.
  - destruct I as [<-|[]]. reflexivity.
Defined.

(** ** Negative indices *)

Lemma fillSlots_negative (i : Z) (c : keyGroup) (items : list (Z * keyGroup)) :
  forall result l,
    In (i, c) items -> i < 0 -> contributes c ->
    fillSlots items result <> Ok l.
Proof.
  induction items as [|[j d] items IH]; intros result l I Hneg Hc; [destruct I|].
  cbn [fillSlots]. destruct I as [E|I].
  - injection E as -> ->.
    destruct (buildChild c) as [r| |] eqn:Hr; cbn [bind]; try discriminate.
    destruct (buildChild_contributes c r Hc Hr) as (v & -> & _).
    unfold setIndex. replace (i <? 0) with true by (symmetry; lia).
    cbn. discriminate.
  - destruct (buildChild d) as [r| |]; cbn [bind]; try discriminate.
    destruct (match r with
              | Some v => setIndex result j v
              | None => Ok result
              end) as [result'| |]; cbn [bind]; try discriminate.
    apply IH; assumption.
Qed.

Lemma buildArrayFromGroup_negative (g : keyGroup) (i : Z) (c : keyGroup) :
  In (i, c) (arrayData g) -> i < 0 -> contributes c ->
  forall l, buildArrayFromGroup g <> Ok l.
Proof.
  intros I Hneg Hc l. rewrite buildArrayFromGroup_unfold.
  destruct (arrayData g) as [|item items] eqn:E; [destruct I|].
  cbn [nonEmpty negb].
  destruct (makeSlice _) as [result| |]; cbn [bind]; try discriminate.
  apply (fillSlots_negative i c); assumption.
Qed.

Lemma buildGroups_fails (b : string) (g : keyGroup)
  (keyGroups : list (string * keyGroup)) :
  In (b, g) keyGroups ->
  (forall x, buildGroup g <> Ok x) ->
  forall result m, buildGroups keyGroups result <> Ok m.
Proof.
  intros I Hfail.
  induction keyGroups as [|[k g0] keyGroups IH]; intros result m; [destruct I|].
  cbn [buildGroups]. destruct I as [E|I].
  - injection E as -> ->. destruct (buildGroup g) as [x| |] eqn:Hb;
      cbn [bind]; try discriminate.
    exfalso. apply (Hfail x). reflexivity.
  - destruct (buildGroup g0); cbn [bind]; try discriminate.
    apply IH. exact I.
Qed.

Lemma fullArray_addToArrayGroup (g : keyGroup) (p : parsedKey) (v : string) :
  fullArray g -> fullArray (addToArrayGroup (markArray g) p v).
Proof.
  intros [Hs Hc]. rewrite addToArrayGroup_item. cbv zeta.
  split; [exact Hs|].
  cbn [setItem arrayData markArray]. intros j c I.
  apply In_map_set_weak in I; [|intros a b; apply Z.eqb_eq].
  destruct I as [[_ ->]|I]; [|apply (Hc j c I)].
  destruct (parsed_path p) eqn:Ep.
  - left. cbn. split; [reflexivity|discriminate].
  - apply contributes_addNestedToGroup; [discriminate|].
    apply (scalarOk_item g). exact Hc.
Qed.

Section NegativeIndex.
Variable b : string.
Variable i : Z.

Lemma addEntry_negative (groups groups' : list (string * keyGroup))
  (e : string * list string) :
  addEntry groups e = Ok groups' ->
  (forall v, ~ scalarEntry b e v) ->
  fullArray (groupOf groups b) ->
  fullArray (groupOf groups' b) /\
  (hasIndex b i groups \/ indexEntry_of b e i -> hasIndex b i groups').
Proof.
  destruct e as [key vs]. unfold addEntry. intros Hadd Hnot HJ.
  destruct vs as [|v vs].
  - injection Hadd as <-. split; [exact HJ|].
    intros [H|(w & ws & p & F & _)]; [exact H|discriminate].
  - destruct (parseKeyStructure key) as [p| |] eqn:Hp; cbn [bind] in Hadd;
      try discriminate.
    injection Hadd as <-.
    assert (Hidx : indexEntry_of b (key, v :: vs) i ->
                   parsed_baseKey p = b /\ parsed_isArray p = true /\
                   parsed_arrayIndex p = i).
    { intros (w & ws & q & _ & Hq & Hb & Ha & Hi).
      cbn [fst] in Hq. rewrite Hp in Hq. injection Hq as <-. auto. }
    destruct (String.eqb (parsed_baseKey p) b) eqn:Hb.
    + apply String.eqb_eq in Hb. rewrite Hb. fold (groupOf groups b).
      set (g := groupOf groups b) in *.
      match goal with
      | |- fullArray (groupOf (sset groups b ?x) b) /\ _ => set (g' := x)
      end.
      assert (E : groupOf (sset groups b g') b = g').
      { unfold groupOf, getOr.
        rewrite (map_get_set_same String.eqb string_eqb_eq). reflexivity. }
      assert (Hg : forall g0, sget groups b = Some g0 -> g0 = g).
      { intros g0 H0. subst g. unfold groupOf, getOr. rewrite H0. reflexivity. }
      rewrite E.
      destruct (parsed_isArray p) eqn:Ha; [|destruct (parsed_isNested p) eqn:Hn].
      * split; [apply fullArray_addToArrayGroup; exact HJ|].
        intro H. exists g'. split;
          [apply (map_get_set_same String.eqb string_eqb_eq)|].
        subst g'. rewrite addToArrayGroup_item. cbv zeta.
        split; [reflexivity|].
        cbn [setItem arrayData markArray].
        apply (In_keys_map_set Z.eqb); [exact Z_eqb_eq|].
        destruct H as [(g0 & H0 & _ & Hin)|H].
        -- right. rewrite <- (Hg g0 H0). exact Hin.
        -- left. symmetry. apply Hidx. exact H.
      * pose proof (parseKeyStructure_Ok key p Hp) as Hshape.
        assert (Hpath : exists first others,
                   parsed_path p = first :: others /\ isNumeric first = false).
        { rewrite Hshape in Hn |- *.
          destruct (FindAllStringSubmatch (bracketPart key)) as [|first others];
            [discriminate|].
          destruct (isNumeric first) eqn:F; [discriminate|].
          cbn. exists first, others. auto. }
        destruct Hpath as (first & others & Epath & Hfirst).
        assert (Eg' : isSimple g' = isSimple g /\ arrayData g' = arrayData g /\
                      isArray g' = isArray g).
        { subst g'. unfold addToObjectGroup. rewrite Epath.
          cbn [addNestedToGroup]. rewrite Hfirst.
          destruct others; repeat split; reflexivity. }
        destruct Eg' as (E1 & E2 & E3). destruct HJ as [Hs Hc].
        split; [split; [congruence|rewrite E2; exact Hc]|].
        intros [(g0 & H0 & Harr & Hin)|H].
        -- exists g'. split;
             [apply (map_get_set_same String.eqb string_eqb_eq)|].
           rewrite E2, E3, <- (Hg g0 H0). auto.
        -- apply Hidx in H. destruct H as (_ & F & _). congruence.
      * exfalso. apply (Hnot v). exists vs, p. cbn. auto.
    + assert (N : parsed_baseKey p <> b).
      { intro F. rewrite F, String.eqb_refl in Hb. discriminate. }
      unfold groupOf, getOr, hasIndex.
      rewrite (map_get_set_other String.eqb string_eqb_eq _ _ _ _ N).
      split; [exact HJ|].
      intros [H|H]; [exact H|]. apply Hidx in H. tauto.
Qed.

Lemma addEntries_negative (todo : url.Values) :
  forall groups groups',
    addEntries groups todo = Ok groups' ->
    (forall e v, In e todo -> ~ scalarEntry b e v) ->
    fullArray (groupOf groups b) ->
    fullArray (groupOf groups' b) /\
    (hasIndex b i groups \/ supplies todo b i -> hasIndex b i groups').
Proof.
  induction todo as [|e todo IH]; intros groups groups' Hadd Hnot HJ.
  - injection Hadd as <-. split; [exact HJ|].
    intros [H|(e & [] & _)]. exact H.
  - cbn [addEntries] in Hadd.
    destruct (addEntry groups e) as [groups1| |] eqn:H1; cbn [bind] in Hadd;
      try discriminate.
    destruct (addEntry_negative groups groups1 e H1) as [HJ1 K1].
    { intro v. apply Hnot. left. reflexivity. }
    { exact HJ. }
    destruct (IH groups1 groups' Hadd) as [HJ' K'].
    { intros e' v I. apply Hnot. right. exact I. }
    { exact HJ1. }
    split; [exact HJ'|].
    intros [H|(e' & [<-|I] & H)]; apply K'.
    + left. apply K1. left. exact H.
    + left. apply K1. right. exact H.
    + right. exists e'. split; [exact I|exact H].
Qed.
End NegativeIndex.

(** A base key that some entry gives a child at a negative index, and
    that no entry gives a scalar, makes the whole conversion fail:
    [buildArrayFromGroup] stores at the negative index whatever the order
    of the entries. *)
Theorem negative_index_never_returns (values : url.Values) (b : string) (i : Z) :
  supplies values b i -> i < 0 ->
  (forall e v, In e values -> ~ scalarEntry b e v) ->
  forall m, parseFormFlexibly values <> Ok m.
Proof.
  intros Hsup Hneg Hnot m. unfold parseFormFlexibly, groupKeysByStructure.
  destruct (addEntries [] values) as [groups| |] eqn:Hg; cbn [bind];
    try discriminate.
  destruct (addEntries_negative b i values [] groups Hg Hnot) as [[Hs Hc] K].
  { split; [reflexivity|]. intros j c []. }
  destruct (K (or_intror Hsup)) as (g & Hget & Harr & Hin).
  assert (Eg : groupOf groups b = g)
    by (unfold groupOf, getOr; rewrite Hget; reflexivity).
  rewrite Eg in *.
  apply in_map_iff in Hin. destruct Hin as ([j c] & Ej & Hin). cbn in Ej. subst j.
  apply (buildGroups_fails b g groups).
  - apply (map_get_In String.eqb string_eqb_eq). exact Hget.
  - intros x Hx. unfold buildGroup in Hx. rewrite Hs, Harr in Hx.
    destruct (buildArrayFromGroup g) as [l| |] eqn:Hl; cbn [bind] in Hx;
      try discriminate.
    apply (buildArrayFromGroup_negative g i c Hin Hneg (Hc i c Hin) l Hl).
Qed.

Lemma negative_index_never_returns_witness :
  -2 < 0 /\
  forall m, parseFormFlexibly [("k[0]", ["x"]); ("k[-2][id]", ["7"])] <> Ok m.
Proof.
  split; [lia|].
  apply (negative_index_never_returns
           [("k[0]", ["x"]); ("k[-2][id]", ["7"])] "k" (-2)).
  - exists ("k[-2][id]", ["7"]). split; [right; left; reflexivity|].
    exists "7", [], (mkParsedKey "k" true false (-2) ["id"]).
    repeat split; vm_compute; reflexivity.
  - lia.
  - intros e v [<-|[<-|[]]] (vs & p & _ & Hp & _ & Ha & _);
      vm_compute in Hp; injection Hp as <-; discriminate.
Defined.

(** ** The keys of the result *)

Lemma addEntry_keys (groups groups' : list (string * keyGroup))
  (e : string * list string) :
  addEntry groups e = Ok groups' ->
  forall b, In b (map fst groups') <-> In b (map fst groups) \/ hasBase [e] b.
Proof.
  destruct e as [key vs]. unfold addEntry. intros Hadd b.
  destruct vs as [|v vs].
  - injection Hadd as <-. split; [auto|].
    intros [H|(k & w & ws & p & [E|[]] & _)]; [exact H|discriminate].
  - destruct (parseKeyStructure key) as [p| |] eqn:Hp; cbn [bind] in Hadd;
      try discriminate.
    injection Hadd as <-.
    rewrite (In_keys_map_set String.eqb _ _ _ _ string_eqb_eq).
    split.
    + intros [->|H]; [right|left; exact H].
      exists key, v, vs, p. split; [left; reflexivity|auto].
    + intros [H|(k & w & ws & q & [E|[]] & Hq & Hb)]; [right; exact H|].
      injection E as <- <- <-. rewrite Hp in Hq. injection Hq as <-.
      left. symmetry. exact Hb.
Qed.

Lemma addEntries_keys (values : url.Values) :
  forall groups groups',
    addEntries groups values = Ok groups' ->
    forall b, In b (map fst groups')
              <-> In b (map fst groups) \/ hasBase values b.
Proof.
  induction values as [|e values IH]; intros groups groups' Hadd b.
  - injection Hadd as <-. split; [auto|].
    intros [H|(k & w & ws & p & [] & _)]. exact H.
  - cbn [addEntries] in Hadd.
    destruct (addEntry groups e) as [groups1| |] eqn:H1; cbn [bind] in Hadd;
      try discriminate.
    rewrite (IH groups1 groups' Hadd b), (addEntry_keys groups groups1 e H1 b).
    unfold hasBase. split.
    + intros [[H|(k & w & ws & p & [E|[]] & H)]|(k & w & ws & p & I & H)].
      * left. exact H.
      * right. exists k, w, ws, p. split; [left; exact E|exact H].
      * right. exists k, w, ws, p. split; [right; exact I|exact H].
    + intros [H|(k & w & ws & p & [E|I] & H)].
      * left. left. exact H.
      * left. right. exists k, w, ws, p. split; [left; exact E|exact H].
      * right. exists k, w, ws, p. split; [exact I|exact H].
Qed.

Lemma buildGroups_keys (keyGroups : list (string * keyGroup)) :
  forall result m,
    buildGroups keyGroups result = Ok m ->
    (NoDup (map fst result) -> NoDup (map fst m)) /\
    forall b, In b (map fst m)
              <-> In b (map fst result) \/ In b (map fst keyGroups).
Proof.
  induction keyGroups as [|[k g] keyGroups IH]; intros result m H.
  - injection H as <-. split; [auto|]. intro b. cbn. tauto.
  - cbn [buildGroups] in H.
    destruct (buildGroup g) as [v| |]; cbn [bind] in H; try discriminate.
    destruct (IH _ _ H) as [ND Hkeys]. split.
    + intro N. apply ND. apply (map_set_NoDup String.eqb string_eqb_eq). exact N.
    + intro b. rewrite Hkeys.
      rewrite (In_keys_map_set String.eqb _ _ _ _ string_eqb_eq).
      cbn [map fst In]. intuition.
Qed.

(** The result of the generic conversion has exactly one entry for every
    base key that occurs in the corpus, and no other entry. *)
Theorem result_keys_are_the_base_keys (values : url.Values)
  (m : list (string * any)) :
  parseFormFlexibly values = Ok m ->
  NoDup (map fst m) /\
  forall b, In b (map fst m) <-> hasBase values b.
Proof.
  unfold parseFormFlexibly, groupKeysByStructure. intro H.
  destruct (addEntries [] values) as [groups| |] eqn:Hg; cbn [bind] in H;
    try discriminate.
  destruct (buildGroups_keys groups [] m H) as [ND Hkeys].
  split; [apply ND; constructor|].
  intro b. rewrite Hkeys, (addEntries_keys values [] groups Hg b).
  cbn. tauto.
Qed.

Lemma result_keys_are_the_base_keys_witness :
  NoDup (map fst [("a", AMap [("b", AInt 1); ("c", AInt 2)]);
                  ("d", ASlice [AString "x"])]) /\
  forall b,
    In b (map fst [("a", AMap [("b", AInt 1); ("c", AInt 2)]);
                   ("d", ASlice [AString "x"])])
    <-> hasBase [("a[b]", ["1"]); ("a[c]", ["2"]); ("d[0]", ["x"])] b.
Proof.
  apply (result_keys_are_the_base_keys
           [("a[b]", ["1"]); ("a[c]", ["2"]); ("d[0]", ["x"])]).
  vm_compute. reflexivity.
Defined.

(** ** Encoding the result *)


























(** ** The encoded entry points on input that needs no decoding *)

Lemma HasPrefix_absent (c : ascii) (s old : string) :
  hasByte c s = false -> strings.HasPrefix s (String c old) = false.
Proof.
  destruct s as [|d s]; [reflexivity|]. cbn [hasByte strings.HasPrefix].
  intro H. apply orb_false_elim in H. destruct H as [H _].
  rewrite (Ascii.eqb_sym c d), H. reflexivity.
Qed.

Lemma replaceFrom_absent (c : ascii) (old new : string) (fuel : nat) :
  forall s,
    hasByte c s = false -> (String.length s < fuel)%nat ->
    strings.replaceFrom fuel s (String c old) new = s.
Proof.
  induction fuel as [|fuel IH]; intros s H L; [lia|].
  cbn [strings.replaceFrom]. rewrite (HasPrefix_absent c s old H).
  destruct s as [|d s]; [reflexivity|].
  cbn [hasByte] in H. apply orb_false_elim in H. destruct H as [_ H].
  cbn [String.length] in L. rewrite IH; [reflexivity|exact H|lia].
Qed.

Lemma ReplaceAll_absent (c : ascii) (s old new : string) :
  hasByte c s = false -> strings.ReplaceAll s (String c old) new = s.
Proof.
  intro H. unfold strings.ReplaceAll. apply replaceFrom_absent; [exact H|lia].
Qed.

Lemma unescapeUnicode_absent (data : string) :
  hasByte backslash data = false -> unescapeUnicode data = data.
Proof.
  intro H. unfold backslash in H. unfold unescapeUnicode, replacements.
  cbn [fold_left fst snd].
  repeat rewrite (ReplaceAll_absent _ data _ _ H). reflexivity.
Qed.

Lemma QueryUnescape_absent (s : string) :
  hasByte "%" s = false -> hasByte "+" s = false ->
  url.QueryUnescape s = Some s.
Proof.
  induction s as [|c s IH]; [reflexivity|].
  cbn [hasByte url.QueryUnescape]. intros H1 H2.
  apply orb_false_elim in H1. destruct H1 as [E1 H1].
  apply orb_false_elim in H2. destruct H2 as [E2 H2].
  rewrite E1, E2, (IH H1 H2). reflexivity.
Qed.

(** On input without a backslash, a '%' or a '+' the encoded entry points
    do what the plain ones do, [FormToJSONEncoded] after its line
    normalization, which leaves input without a line feed alone. *)
Theorem encoded_entry_points_on_undecorated_input (encodedData : string) :
  strings.Contains encodedData (String backslash EmptyString) = false ->
  strings.Contains encodedData "%" = false ->
  strings.Contains encodedData "+" = false ->
  FormToMapEncoded encodedData = FormToMap encodedData /\
  FormToJSONEncoded encodedData = FormToJSON (normalizeFormData encodedData) /\
  (strings.Contains encodedData newline = false ->
   FormToJSONEncoded encodedData = FormToJSON encodedData).
Proof.
  rewrite !Contains_byte. intros Hb Hp Hplus.
  unfold FormToMapEncoded, FormToJSONEncoded.
  rewrite (unescapeUnicode_absent encodedData Hb).
  rewrite (QueryUnescape_absent encodedData Hp Hplus).
  split; [reflexivity|]. split; [reflexivity|].
  intro Hn. unfold normalizeFormData. rewrite Hn. reflexivity.
Qed.

Lemma encoded_entry_points_on_undecorated_input_witness :
  FormToMapEncoded "a[b]=1&c=x" = FormToMap "a[b]=1&c=x" /\
  FormToJSONEncoded "a[b]=1&c=x" = FormToJSON (normalizeFormData "a[b]=1&c=x") /\
  (strings.Contains "a[b]=1&c=x" newline = false ->
   FormToJSONEncoded "a[b]=1&c=x" = FormToJSON "a[b]=1&c=x").
Proof.
  apply (encoded_entry_points_on_undecorated_input "a[b]=1&c=x"); reflexivity.
Defined.

(** ** The struct-binding path, field by field *)

Lemma findFieldData_absent (values : url.Values) (fieldName : string) :
  noKeyFor values fieldName -> findFieldData values fieldName = None.
Proof.
  intro H. unfold findFieldData.
  match goal with
  | |- match fold_left ?f _ _ with _ => _ end = _ =>
      assert (E : fold_left f values [] = [])
  end.
  { induction values as [|[key vs] values IH]; [reflexivity|].
    cbn [fold_left]. destruct vs as [|v vs].
    - apply IH. intros k w ws I. apply (H k w ws). right. exact I.
    - destruct (H key v vs (or_introl eq_refl)) as [N P].
      apply String.eqb_neq in N. rewrite N, P.
      apply IH. intros k w ws I. apply (H k w ws). right. exact I. }
  rewrite E. reflexivity.
Qed.

(** The struct binder leaves the number of fields alone, and a field that
    no key of the corpus names (neither the field name itself nor the
    name followed by '[') keeps the value it had; the name is the [form]
    tag when there is one. *)
Theorem unnamed_fields_are_left_alone (values : url.Values)
  (fields : list (string * string * gotype)) (cur cur' : list govalue)
  (i : nat) (f : string * string * gotype) (c : govalue) :
  parseStruct values fields cur = Ok cur' ->
  nth_error fields i = Some f ->
  nth_error cur i = Some c ->
  noKeyFor values (lookupName f) ->
  List.length cur' = List.length cur /\ nth_error cur' i = Some c.
Proof.
  intros H Hf Hc Hno.
  destruct (parseStruct_fields values fields cur cur' H) as [Hlen Hnth].
  split; [exact Hlen|].
  destruct (Hnth i f c Hf Hc) as (c' & Hc' & Hb).
  unfold bindField in Hb. rewrite (findFieldData_absent values _ Hno) in Hb.
  congruence.
Qed.

Lemma unnamed_fields_are_left_alone_witness :
  List.length [GString "John"; GInt 7] = List.length [GString "x"; GInt 7] /\
  nth_error [GString "John"; GInt 7] 1 = Some (GInt 7).
Proof.
  apply (unnamed_fields_are_left_alone
           [("name", ["John"]); ("agent[id]", ["3"])]
           [("Name", "name", TString); ("Age", "age", TInt 64)]
           [GString "x"; GInt 7] [GString "John"; GInt 7]
           1 ("Age", "age", TInt 64) (GInt 7));
    try reflexivity.
  intros key v vs [E|[E|[]]]; injection E as <- <- <-;
    (split; [discriminate|reflexivity]).
Defined.

(** A field of a scalar kind whose name (its [form] tag, or else its own
    name) is a key of the corpus, while no key is that name followed by
    '[', is set by [setValue] from the first value of that key: a string
    field receives the value itself, and an integer field the parsed
    value, or keeps its old value when the value does not parse. *)
Theorem scalar_field_is_bound_by_name (values : url.Values)
  (fields : list (string * string * gotype)) (cur cur' : list govalue)
  (i : nat) (name tag : string) (t : gotype) (c : govalue)
  (v : string) (vs : list string) :
  parseStruct values fields cur = Ok cur' ->
  corpus values ->
  nth_error fields i = Some (name, tag, t) ->
  nth_error cur i = Some c ->
  scalarKind t = true ->
  In (lookupName (name, tag, t), v :: vs) values ->
  noNestedKeys values (lookupName (name, tag, t)) ->
  exists c',
    nth_error cur' i = Some c' /\
    setValue (exported name) t c v = Ok c' /\
    (t = TString -> c' = GString v) /\
    (forall bits, t = TInt bits ->
                  c' = match strconv.ParseInt v 64 with
                       | Some n => intOfWidth bits n
                       | None => c
                       end).
Proof.
  intros H ND Hf Hc Hk I Hno.
  destruct (parseStruct_fields values fields cur cur' H) as [_ Hnth].
  destruct (Hnth i (name, tag, t) c Hf Hc) as (c' & Hc' & Hb).
  unfold bindField in Hb.
  rewrite (findFieldData_single values _ v vs ND I Hno) in Hb.
  cbn [fst snd] in Hb.
  assert (Hs : setValue (exported name) t c v = Ok c').
  { destruct t; try discriminate; cbn in Hb |- *; try exact Hb.
    - destruct (strconv.ParseInt v 64); exact Hb.
    - destruct (strconv.ParseUint v 64); exact Hb.
    - destruct (strconv.ParseFloat v); exact Hb.
    - destruct (strconv.ParseBool v); exact Hb. }
  exists c'. split; [exact Hc'|]. split; [exact Hs|]. split.
  - intros ->. cbn in Hs. unfold set in Hs.
    destruct (exported name); [congruence|discriminate].
  - intros bits ->. cbn in Hs. unfold set in Hs.
    destruct (strconv.ParseInt v 64); [|congruence].
    destruct (exported name); [congruence|discriminate].
Qed.

Lemma scalar_field_is_bound_by_name_witness :
  exists c',
    nth_error [GInt 42; GString ""] 0 = Some c' /\
    setValue (exported "UserID") (TInt 64) (GInt 0) "42" = Ok c' /\
    (TInt 64 = TString -> c' = GString "42") /\
    (forall bits, TInt 64 = TInt bits ->
                  c' = match strconv.ParseInt "42" 64 with
                       | Some n => intOfWidth bits n
                       | None => GInt 0
                       end).
Proof.
  apply (scalar_field_is_bound_by_name
           [("user_id", ["42"; "43"]); ("UserID", ["7"])]
           [("UserID", "user_id", TInt 64); ("Note", "", TString)]
           [GInt 0; GString ""] [GInt 42; GString ""]
           0 "UserID" "user_id" (TInt 64) (GInt 0) "42" ["43"]);
    try reflexivity.
  - unfold corpus. cbn. repeat constructor; cbn; intuition discriminate.
  - left. reflexivity.
  - intros key ws [E|[E|[]]]; injection E as <- <-; reflexivity.
Defined.

(** ** The utility functions *)

Lemma ParseInt64_spec (s : string) :
  strconv.ParseInt s 64
  = if decimalInt64 s then Some (signed s (decimalValue (unsigned s)))
    else None.
Proof.
  unfold decimalInt64, signed, strconv.ParseInt.
  destruct s as [|c s]; [reflexivity|].
  cbn [unsigned negative]. rewrite digits_spec.
  change (2 ^ (64 - 1)) with (2 ^ 63).
  destruct (allDigits (if (c =? "+")%char || (c =? "-")%char then s else String c s));
    cbn [andb]; [|reflexivity].
  destruct (c =? "-")%char; reflexivity.
Qed.

(** [ParseTimestamp] and [ParseInt] return exactly on an optional sign
    followed by base-10 digits whose value fits 64 bits, with that value;
    every other input, the empty string included, is an error and never a
    panic.  So the two agree on every input, up to the error. *)
Theorem utility_integers_accept_decimal_int64 (s : string) :
  if decimalInt64 s
  then ParseTimestamp s = Ok (signed s (decimalValue (unsigned s))) /\
       ParseInt s = Ok (signed s (decimalValue (unsigned s)))
  else (exists e, ParseTimestamp s = Err e) /\ (exists e, ParseInt s = Err e).
Proof.
  assert (A : strconv.Atoi s = strconv.ParseInt s 64) by reflexivity.
  unfold ParseTimestamp, ParseInt. rewrite A, ParseInt64_spec.
  destruct (String.eqb s EmptyString) eqn:E.
  - apply String.eqb_eq in E. subst s. cbn. eauto.
  - destruct (decimalInt64 s); eauto.
Qed.

(** ** The decoded corpus *)

Lemma add_keeps_corpus (m : url.Values) (key v : string) :
  NoDup (map fst m) /\ (forall k vs, In (k, vs) m -> vs <> []) ->
  NoDup (map fst (url.add m key v)) /\
  (forall k vs, In (k, vs) (url.add m key v) -> vs <> []).
Proof.
  intros [ND Hne]. unfold url.add. split.
  - apply (map_set_NoDup String.eqb string_eqb_eq). exact ND.
  - intros k vs I.
    apply In_map_set_weak in I; [|intros a b; apply String.eqb_eq].
    destruct I as [[_ ->]|I]; [|apply (Hne k vs I)].
    destruct (sget m key) as [ws|]; [|discriminate].
    destruct ws; discriminate.
Qed.

Lemma ParseQuery_corpus (query : string) :
  corpus (fst (url.ParseQuery query)) /\
  forall key vs, In (key, vs) (fst (url.ParseQuery query)) -> vs <> [].
Proof.
  unfold url.ParseQuery, corpus.
  assert (H : forall pieces st,
             (NoDup (map fst (fst st)) /\
              forall k vs, In (k, vs) (fst st) -> vs <> []) ->
             NoDup (map fst (fst (fold_left url.parsePiece pieces st))) /\
             forall k vs,
               In (k, vs) (fst (fold_left url.parsePiece pieces st)) -> vs <> []).
  { induction pieces as [|piece pieces IH]; intros st Hst; [exact Hst|].
    cbn [fold_left]. apply IH. destruct st as [m failed].
    unfold url.parsePiece.
    destruct (strings.Contains piece ";"); [exact Hst|].
    destruct (String.eqb piece EmptyString); [exact Hst|].
    destruct (strings.Cut piece "=") as [[key v] found].
    destruct (url.QueryUnescape key) as [key'|]; [|exact Hst].
    destruct (url.QueryUnescape v) as [v'|]; [|exact Hst].
    cbn [fst] in *. apply add_keeps_corpus. exact Hst. }
  apply H. cbn. split; [constructor|intros k vs []].
Qed.

Lemma addEntries_parses (values : url.Values) :
  forall groups groups',
    addEntries groups values = Ok groups' ->
    forall key v vs,
      In (key, v :: vs) values -> exists p, parseKeyStructure key = Ok p.
Proof.
  induction values as [|e values IH]; intros groups groups' Hadd key v vs I;
    [destruct I|].
  cbn [addEntries] in Hadd.
  destruct (addEntry groups e) as [groups1| |] eqn:H1; cbn [bind] in Hadd;
    try discriminate.
  destruct I as [->|I]; [|exact (IH _ _ Hadd key v vs I)].
  unfold addEntry in H1.
  destruct (parseKeyStructure key) as [p| |]; cbn [bind] in H1;
    try discriminate.
  exists p. reflexivity.
Qed.

(** When [FormToMap] returns a map, every key that [url.ParseQuery]
    decoded from the form data was parsed and its base key is a key of
    the map: a decoded key always comes with a value, so the guard on
    [len(valueSlice) == 0] of [groupKeysByStructure] skips none. *)
Theorem FormToMap_reads_every_decoded_key (formData : string)
  (m : list (string * any)) :
  FormToMap formData = Ok m ->
  forall key vs,
    In (key, vs) (fst (url.ParseQuery formData)) ->
    exists p, parseKeyStructure key = Ok p /\ In (parsed_baseKey p) (map fst m).
Proof.
  unfold FormToMap. intros H key vs I.
  destruct (ParseQuery_corpus formData) as [_ Hne].
  destruct (url.ParseQuery formData) as [values failed]. cbn [fst] in I, Hne.
  destruct failed; [discriminate|].
  unfold parseFormFlexibly, groupKeysByStructure in H.
  destruct (addEntries [] values) as [groups| |] eqn:Hg; cbn [bind] in H;
    try discriminate.
  destruct vs as [|v vs]; [destruct (Hne key [] I eq_refl)|].
  destruct (addEntries_parses values [] groups Hg key v vs I) as [p Hp].
  exists p. split; [exact Hp|].
  destruct (buildGroups_keys groups [] m H) as [_ Hkeys].
  apply Hkeys. right.
  apply (addEntries_keys values [] groups Hg). right.
  exists key, v, vs, p. auto.
Qed.

Lemma FormToMap_reads_every_decoded_key_witness :
  FormToMap "a[b]=1&c=x&a[b]=2"
  = Ok [("a", AMap [("b", AInt 1)]); ("c", AString "x")] /\
  forall key vs,
    In (key, vs) (fst (url.ParseQuery "a[b]=1&c=x&a[b]=2")) ->
    exists p,
      parseKeyStructure key = Ok p /\
      In (parsed_baseKey p)
        (map fst [("a", AMap [("b", AInt 1)]); ("c", AString "x")]).
Proof.
  split; [vm_compute; reflexivity|].
  apply (FormToMap_reads_every_decoded_key "a[b]=1&c=x&a[b]=2").
  vm_compute. reflexivity.
Defined.

(** ** Building objects *)

(** When every entry of a base key gives it a named child and the
    conversion returns a map, the value under the key is an object; its
    keys are the first path segments of the entries; none of them holds
    nil; and a name that an entry assigns a value to directly ("b[k]=v")
    holds the coerced value of such an entry, whatever else is assigned
    below that name. *)
Theorem named_children_make_an_object (values : url.Values) (b : string)
  (m : list (string * any)) :
  parseFormFlexibly values = Ok m ->
  namedOnly values b ->
  (exists path v, assignsUnder values b path v) ->
  exists o,
    sget m b = Some (AMap o) /\
    (forall k, In k (map fst o)
               <-> exists rest v, assignsUnder values b (k :: rest) v) /\
    (forall k, In k (map fst o) -> exists x, sget o k = Some x /\ x <> Nil) /\
    (forall k,
        (exists v, assignsUnder values b [k] v) ->
        exists v, assignsUnder values b [k] v /\
                  sget o k = Some (convertValueToType v)).
Proof. exact (object_of_named_children values b m). Qed.

Lemma named_children_make_an_object_witness :
  exists o,
    sget [("u", AMap [("name", AString "John"); ("age", AInt 25);
                      ("tags", ASlice [AString "x"])])] "u"
    = Some (AMap o) /\
    (forall k,
        In k (map fst o)
        <-> exists rest v,
              assignsUnder
                [("u[name]", ["John"]); ("u[age]", ["25"]);
                 ("u[tags][0]", ["x"])] "u" (k :: rest) v) /\
    (forall k, In k (map fst o) -> exists x, sget o k = Some x /\ x <> Nil) /\
    (forall k,
        (exists v,
            assignsUnder
              [("u[name]", ["John"]); ("u[age]", ["25"]);
               ("u[tags][0]", ["x"])] "u" [k] v) ->
        exists v,
          assignsUnder
            [("u[name]", ["John"]); ("u[age]", ["25"]);
             ("u[tags][0]", ["x"])] "u" [k] v /\
          sget o k = Some (convertValueToType v)).
Proof.
  apply (named_children_make_an_object
           [("u[name]", ["John"]); ("u[age]", ["25"]); ("u[tags][0]", ["x"])]
           "u").
  - vm_compute. reflexivity.
  - intros key v vs p [E|[E|[E|[]]]] Hp Hb; injection E as <- <- <-;
      vm_compute in Hp; injection Hp as <-; reflexivity.
  - exists ["name"], "John", ("u[name]", ["John"]).
    split; [left; reflexivity|].
    exists [], (mkParsedKey "u" false true 0 ["name"]).
    repeat split; vm_compute; reflexivity.
Defined.

(** ** Two entries for one path *)

Lemma map_set_set {K V} (eqb : K -> K -> bool) (m : list (K * V)) k v w :
  (forall a, eqb a a = true) ->
  map_set eqb (map_set eqb m k v) k w = map_set eqb m k w.
Proof.
  intro R. induction m as [|[k0 v0] m IH]; cbn.
  - rewrite R. reflexivity.
  - destruct (eqb k0 k) eqn:E; cbn; rewrite E; [reflexivity|].
    rewrite IH. reflexivity.
Qed.

Lemma getOr_set {K} (eqb : K -> K -> bool) (m : list (K * keyGroup)) k v fresh :
  (forall a, eqb a a = true) ->
  getOr eqb (map_set eqb m k v) k fresh = v.
Proof.
  intro R. unfold getOr.
  induction m as [|[k0 v0] m IH]; cbn.
  - rewrite R. reflexivity.
  - destruct (eqb k0 k) eqn:E; cbn; rewrite E; [reflexivity|exact IH].
Qed.

Lemma markArray_fixed (g : keyGroup) : isArray g = true -> markArray g = g.
Proof. destruct g. cbn. intros ->. reflexivity. Qed.

(** A second value for the same path replaces the first and leaves no
    other trace: the tree is the one that the second value alone builds.
    (Two keys of a corpus can have the same path, as "a[b]" and "a[b]x";
    the one that the iteration reaches last decides.) *)
Theorem later_value_replaces_earlier (path : list string) :
  forall (group : keyGroup) (v1 v2 : string),
    addNestedToGroup (addNestedToGroup group path v1) path v2
    = addNestedToGroup group path v2.
Proof.
  induction path as [|k rest IH]; intros group v1 v2; [reflexivity|].
  cbn [addNestedToGroup]. destruct (isNumeric k).
  - cbn [setItem arrayData].
    rewrite (getOr_set Z.eqb _ _ _ _ Z.eqb_refl).
    rewrite (markArray_fixed (addNestedToGroup _ rest v1))
      by (rewrite isArray_addNestedToGroup; reflexivity).
    rewrite IH. unfold setItem. cbn.
    rewrite (map_set_set Z.eqb _ _ _ _ Z.eqb_refl). reflexivity.
  - destruct rest as [|k' rest'].
    + cbn [setChild children].
      rewrite (getOr_set String.eqb _ _ _ _ String.eqb_refl).
      unfold setChild, setScalar. cbn.
      rewrite (map_set_set String.eqb _ _ _ _ String.eqb_refl). reflexivity.
    + cbn [setChild children].
      rewrite (getOr_set String.eqb _ _ _ _ String.eqb_refl).
      rewrite IH. unfold setChild. cbn.
      rewrite (map_set_set String.eqb _ _ _ _ String.eqb_refl). reflexivity.
Qed.

(** ** Map fields *)

Lemma findFieldData_keys (values : url.Values) (fieldName : string)
  (fieldData : list (string * string)) :
  findFieldData values fieldName = Some fieldData ->
  forall k v,
    In (k, v) fieldData ->
    (k = fieldName /\ exists vs, In (fieldName, vs) values) \/
    exists key vs,
      In (key, vs) values /\
      strings.HasPrefix key (fieldName ++ "[") = true /\
      k = strings.drop (String.length fieldName + 1) key.
Proof.
  unfold findFieldData.
  match goal with
  | |- match fold_left ?f _ _ with _ => _ end = _ -> _ =>
      assert (E : forall todo acc,
                 (forall e, In e todo -> In e values) ->
                 forall k v,
                   In (k, v) (fold_left f todo acc) ->
                   In (k, v) acc \/
                   (k = fieldName /\ exists vs, In (fieldName, vs) values) \/
                   exists key vs,
                     In (key, vs) values /\
                     strings.HasPrefix key (fieldName ++ "[") = true /\
                     k = strings.drop (String.length fieldName + 1) key)
  end.
  { induction todo as [|[key vs] todo IH]; intros acc Hsub k v I; [left; exact I|].
    cbn [fold_left] in I.
    assert (Hsub' : forall e, In e todo -> In e values)
      by (intros e J; apply Hsub; right; exact J).
    destruct (IH _ Hsub' k v I) as [J|J]; [|right; exact J].
    destruct vs as [|w ws]; [left; exact J|].
    destruct (String.eqb key fieldName) eqn:Ek.
    - apply In_map_set_weak in J; [|intros a c; apply String.eqb_eq].
      apply String.eqb_eq in Ek.
      destruct J as [[-> _]|J]; [|left; exact J].
      right. left. split; [exact Ek|].
      exists (w :: ws). rewrite <- Ek. apply Hsub. left. reflexivity.
    - destruct (strings.HasPrefix key (fieldName ++ "[")) eqn:P;
        [|left; exact J].
      apply In_map_set_weak in J; [|intros a c; apply String.eqb_eq].
      destruct J as [[-> _]|J]; [|left; exact J].
      right. right. exists key, (w :: ws).
      split; [apply Hsub; left; reflexivity|auto]. }
  intros H k v I.
  destruct (fold_left _ values []) as [|x l] eqn:F; [discriminate|].
  injection H as <-. rewrite <- F in I.
  destruct (E values [] (fun e J => J) k v I) as [[]|J]. exact J.
Qed.

Lemma HasPrefix_drop (p q : string) :
  forall key,
    strings.HasPrefix key p = true ->
    strings.HasPrefix (strings.drop (String.length p) key) q = true ->
    strings.HasPrefix key (p ++ q) = true.
Proof.
  induction p as [|c p IH]; intros key Hp Hq; [exact Hq|].
  destruct key as [|d key]; [discriminate|].
  cbn in Hp, Hq |- *. apply andb_true_iff in Hp. destruct Hp as [E Hp].
  rewrite E. cbn. apply IH; assumption.
Qed.

Lemma length_append (s t : string) :
  String.length (s ++ t) = (String.length s + String.length t)%nat.
Proof. induction s as [|c s IH]; cbn; [reflexivity|]. rewrite IH. reflexivity. Qed.

Lemma HasPrefix_longer (s t : string) :
  t <> EmptyString -> strings.HasPrefix s (s ++ t) = false.
Proof.
  intro N. induction s as [|c s IH]; cbn.
  - destruct t; [congruence|reflexivity].
  - rewrite IH. apply andb_false_r.
Qed.

Lemma append_assoc (s t u : string) : ((s ++ t) ++ u = s ++ (t ++ u))%string.
Proof. induction s as [|c s IH]; cbn; [reflexivity|]. rewrite IH. reflexivity. Qed.

(** A map field keeps the value it had unless some key of the corpus
    starts with the field name and '[' twice over ("meta[meta[..."):
    [findFieldData] removes the first "meta[" and [parseMap] asks for it
    again. *)
Theorem map_field_needs_doubled_prefix (values : url.Values)
  (fields : list (string * string * gotype)) (cur cur' : list govalue)
  (i : nat) (name tag : string) (keyType elemType : gotype) (c : govalue) :
  parseStruct values fields cur = Ok cur' ->
  nth_error fields i = Some (name, tag, TMap keyType elemType) ->
  nth_error cur i = Some c ->
  noDoubledPrefix values (lookupName (name, tag, TMap keyType elemType)) ->
  nth_error cur' i = Some c.
Proof.
  intros H Hf Hc Hno.
  destruct (parseStruct_fields values fields cur cur' H) as [_ Hnth].
  destruct (Hnth i _ c Hf Hc) as (c' & Hc' & Hb).
  rewrite Hc'. f_equal.
  unfold bindField in Hb.
  set (n := lookupName (name, tag, TMap keyType elemType)) in *.
  destruct (findFieldData values n) as [fieldData|] eqn:Hfd; [|congruence].
  cbn [snd parseFieldValue] in Hb. unfold parseMap in Hb.
  assert (E : forall todo acc,
             (forall e, In e todo -> In e fieldData) ->
             fold_left (mapEntry n) todo acc = acc).
  { induction todo as [|[k v] todo IH]; intros acc Hsub; [reflexivity|].
    cbn [fold_left].
    assert (P : strings.HasPrefix k (n ++ "[") = false).
    { destruct (findFieldData_keys values n fieldData Hfd k v
                  (Hsub _ (or_introl eq_refl)))
        as [[-> _]|(key & vs & I & Hp & ->)].
      - apply HasPrefix_longer. discriminate.
      - destruct (strings.HasPrefix
                    (strings.drop (String.length n + 1) key) (n ++ "[")) eqn:Q;
          [|reflexivity].
        pose proof (Hno key vs I) as F.
        rewrite <- append_assoc in F.
        rewrite HasPrefix_drop in F; [discriminate|exact Hp|].
        rewrite length_append. cbn [String.length]. exact Q. }
    unfold mapEntry at 2. rewrite P. cbn [andb].
    apply IH. intros e J. apply Hsub. right. exact J. }
  rewrite (E fieldData [] (fun e J => J)) in Hb. cbn in Hb. congruence.
Qed.

Lemma map_field_needs_doubled_prefix_witness :
  nth_error [GString "x"; GMap None] 1 = Some (GMap None).
Proof.
  apply (map_field_needs_doubled_prefix
           [("meta[color]", ["red"]); ("name", ["x"])]
           [("Name", "name", TString); ("Meta", "meta", TMap TString TString)]
           [GString ""; GMap None] [GString "x"; GMap None]
           1 "Meta" "meta" TString TString (GMap None));
    try reflexivity.
  intros key vs [E|[E|[]]]; injection E as <- <-; reflexivity.
Defined.

(** ** Slice fields *)

(** A slice field keeps the value it had on every corpus whose keys for
    the field have a single '[' ("tags[0]", "tags[1]"): [findFieldData]
    removes "tags[" and [parseSlice] skips a key without a '['. *)
Theorem slice_field_needs_second_bracket (values : url.Values)
  (fields : list (string * string * gotype)) (cur cur' : list govalue)
  (i : nat) (name tag : string) (elemType : gotype) (c : govalue) :
  parseStruct values fields cur = Ok cur' ->
  nth_error fields i = Some (name, tag, TSlice elemType) ->
  nth_error cur i = Some c ->
  oneBracketKeys values (lookupName (name, tag, TSlice elemType)) ->
  nth_error cur' i = Some c.
Proof.
  intros H Hf Hc Hone.
  destruct (parseStruct_fields values fields cur cur' H) as [_ Hnth].
  destruct (Hnth i _ c Hf Hc) as (c' & Hc' & Hb).
  rewrite Hc'. f_equal.
  unfold bindField in Hb.
  set (n := lookupName (name, tag, TSlice elemType)) in *.
  destruct (findFieldData values n) as [fieldData|] eqn:Hfd; [|congruence].
  cbn [snd parseFieldValue] in Hb. unfold parseSlice in Hb.
  assert (E : forall todo acc,
             (forall e, In e todo -> In e fieldData) ->
             fold_left indexEntry todo acc = acc).
  { induction todo as [|[k v] todo IH]; intros acc Hsub; [reflexivity|].
    cbn [fold_left].
    assert (P : strings.Contains k "[" = false).
    { destruct (findFieldData_keys values n fieldData Hfd k v
                  (Hsub _ (or_introl eq_refl)))
        as [[-> (vs & I)]|(key & vs & I & Hp & ->)].
      - apply (proj1 (Hone n vs I)). reflexivity.
      - apply (proj2 (Hone key vs I)). exact Hp. }
    unfold indexEntry at 2. rewrite P. cbn [andb].
    apply IH. intros e J. apply Hsub. right. exact J. }
  rewrite (E fieldData [] (fun e J => J)) in Hb. cbn in Hb. congruence.
Qed.

Lemma slice_field_needs_second_bracket_witness :
  nth_error [GString "x"; GSlice None] 1 = Some (GSlice None).
Proof.
  apply (slice_field_needs_second_bracket
           [("tags[0]", ["go"]); ("tags[1]", ["web"]); ("name", ["x"])]
           [("Name", "name", TString); ("Tags", "tags", TSlice TString)]
           [GString ""; GSlice None] [GString "x"; GSlice None]
           1 "Tags" "tags" TString (GSlice None));
    try reflexivity.
  intros key vs [E|[E|[E|[]]]]; injection E as <- <-;
    (split; [discriminate|reflexivity]) || (split; intro; reflexivity)
    || (split; [discriminate|discriminate]).
Defined.

(** ** Where the struct binder returns *)

Lemma setValue_returns (canSet : bool) (t : gotype) (c : govalue) (v : string) :
  canSet || negb (scalarKind t) = true ->
  exists c', setValue canSet t c v = Ok c'.
Proof.
  intro H. destruct t; cbn in H |- *; try (rewrite orb_false_r in H; subst canSet);
    cbn; eauto.
  - destruct (strconv.ParseInt v 64); cbn; eauto.
  - destruct (strconv.ParseUint v 64); cbn; eauto.
  - destruct (strconv.ParseFloat v); cbn; eauto.
  - destruct (strconv.ParseBool v); cbn; eauto.
Qed.

Lemma parseStructFromMap_returns (fieldData : list (string * string))
  (fields : list (string * string * gotype)) :
  settableFields fields = true ->
  forall cur, exists cur', parseStructFromMap fieldData fields cur = Ok cur'.
Proof.
  induction fields as [|f fields IH]; intros Hs cur; [cbn; eauto|].
  destruct cur as [|c cur]; [cbn; eauto|].
  cbn [settableFields forallb] in Hs. apply andb_true_iff in Hs.
  destruct Hs as [Hf Hs].
  cbn [parseStructFromMap].
  assert (Hc : exists c',
             match sget fieldData (lookupName f) with
             | Some v => setValue (exported (fst (fst f))) (snd f) c v
             | None => Ok c
             end = Ok c').
  { destruct (sget fieldData (lookupName f)); [|eauto].
    apply setValue_returns. exact Hf. }
  destruct Hc as [c' ->]. cbn [bind].
  destruct (IH Hs cur) as [rest ->]. cbn [bind]. eauto.
Qed.

Lemma populateMap_returns (keyType elemType : gotype)
  (mapData : list (string * string)) :
  forall newMap, exists m, populateMap keyType elemType mapData newMap = Ok m.
Proof.
  induction mapData as [|[k v] mapData IH]; intro newMap; [cbn; eauto|].
  cbn [populateMap].
  destruct (setValue_returns true keyType (zero keyType) k eq_refl) as [kv ->].
  destruct (setValue_returns true elemType (zero elemType) v eq_refl) as [ev ->].
  cbn [bind]. apply IH.
Qed.

Lemma parseFieldValue_returns (f : string * string * gotype) (c : govalue)
  (fieldData : list (string * string)) (fieldName : string) :
  bindable f = true ->
  exists c', parseFieldValue (exported (fst (fst f))) (snd f) c
               fieldData fieldName = Ok c'.
Proof.
  unfold bindable. destruct f as [[name tag] t]. cbn [fst snd].
  destruct t; intro H; try discriminate; cbn [parseFieldValue];
    try rewrite H; unfold set.
  - destruct fieldData as [|[k v] fd]; eauto.
  - destruct (firstParsed _ fieldData); eauto.
  - destruct (firstParsed _ fieldData); eauto.
  - destruct (firstParsed _ fieldData); eauto.
  - destruct (firstParsed _ fieldData); eauto.
  - destruct (exported name); [|eauto].
    destruct (parseStructFromMap_returns fieldData fields H (zeroFields fields))
      as [cur' ->]. cbn [bind]. eauto.
  - unfold parseMap.
    destruct (nonEmpty (fold_left (mapEntry fieldName) fieldData [])); [|eauto].
    destruct (populateMap_returns t1 t2
                (fold_left (mapEntry fieldName) fieldData []) []) as [m ->].
    cbn [bind]. unfold set. eauto.
  - eauto.
Qed.

(** The struct binder returns, without an error and without a panic, on
    every corpus and every current value of the fields, for a struct
    whose fields are exported, those of nested structs included, and
    none of whose fields is a slice.  (Nothing is said here about the
    values: a nested struct that some key names is replaced by a fresh
    one.) *)
Theorem struct_without_slices_is_bound (values : url.Values)
  (fields : list (string * string * gotype)) :
  forallb bindable fields = true ->
  forall cur, exists cur', parseStruct values fields cur = Ok cur'.
Proof.
  induction fields as [|f fields IH]; intros Hb cur; [cbn; eauto|].
  destruct cur as [|c cur]; [cbn; eauto|].
  cbn [forallb] in Hb. apply andb_true_iff in Hb. destruct Hb as [Hf Hb].
  cbn [parseStruct].
  assert (Hc : exists c',
             match findFieldData values (lookupName f) with
             | None => Ok c
             | Some fieldData =>
                 parseFieldValue (exported (fst (fst f))) (snd f) c
                   fieldData (lookupName f)
             end = Ok c').
  { destruct (findFieldData values (lookupName f)); [|eauto].
    apply parseFieldValue_returns. exact Hf. }
  destruct Hc as [c' ->]. cbn [bind].
  destruct (IH Hb cur) as [rest ->]. cbn [bind]. eauto.
Qed.

Lemma struct_without_slices_is_bound_witness :
  forallb bindable
    [("Name", "name", TString); ("Age", "age", TInt 32);
     ("Acc", "acc", TStruct [("ID", "id", TInt 64)]);
     ("Meta", "meta", TMap TString TString)] = true /\
  forall cur,
    exists cur',
      parseStruct [("name", ["John"]); ("age", ["x"]); ("acc[id", ["3"])]
        [("Name", "name", TString); ("Age", "age", TInt 32);
         ("Acc", "acc", TStruct [("ID", "id", TInt 64)]);
         ("Meta", "meta", TMap TString TString)] cur = Ok cur'.
Proof.
  split; [reflexivity|].
  apply (struct_without_slices_is_bound
           [("name", ["John"]); ("age", ["x"]); ("acc[id", ["3"])]
           [("Name", "name", TString); ("Age", "age", TInt 32);
            ("Acc", "acc", TStruct [("ID", "id", TInt 64)]);
            ("Meta", "meta", TMap TString TString)]).
  reflexivity.
Defined.
